(** * A shallow embedding of the toy PEG parser

    The development follows [src/peg_token.py] and [src/peg_parser.py]:
    the token cursor, the five PEG combinators and the grammar rules built
    on them.  The parser object is modelled by explicit state passing: every
    method takes the parser state and gives back a [result] that carries the
    state it leaves behind, also when it raises.  *)

From Stdlib Require Import String Ascii List Arith Bool Lia DecimalString.
Import ListNotations.
Open Scope string_scope.
Open Scope list_scope.

Set Implicit Arguments.
Set Warnings "-register-all".

(** ** Tokens ([src/peg_token.py]) *)

Inductive TokenType : Type :=
| VAR | IF | ELSE | WHILE | PRINT
| IDENTIFIER | NUMBER
| PLUS | MINUS | MUL | DIV | ASSIGN | EQ | NEQ | LT | GT | LTE | GTE | AND | OR
| SEMICOLON | LPAREN | RPAREN | LBRACE | RBRACE
| EOF.

Definition TokenType_eq_dec (a b : TokenType) : {a = b} + {a <> b}.
Proof. decide equality. Defined.

Definition TokenType_eqb (a b : TokenType) : bool :=
  if TokenType_eq_dec a b then true else false.

(** [TokenType.name] of the enumeration. *)
Definition TokenType_name (t : TokenType) : string :=
  match t with
  | VAR => "VAR" | IF => "IF" | ELSE => "ELSE" | WHILE => "WHILE"
  | PRINT => "PRINT" | IDENTIFIER => "IDENTIFIER" | NUMBER => "NUMBER"
  | PLUS => "PLUS" | MINUS => "MINUS" | MUL => "MUL" | DIV => "DIV"
  | ASSIGN => "ASSIGN" | EQ => "EQ" | NEQ => "NEQ" | LT => "LT" | GT => "GT"
  | LTE => "LTE" | GTE => "GTE" | AND => "AND" | OR => "OR"
  | SEMICOLON => "SEMICOLON" | LPAREN => "LPAREN" | RPAREN => "RPAREN"
  | LBRACE => "LBRACE" | RBRACE => "RBRACE" | EOF => "EOF"
  end.

(** [Token(type, value=None, lineno=None, col=None)]: the three optional
    attributes default to [None]. *)
Record Token : Type := mkToken {
  type : TokenType;
  value : option string;
  lineno : option nat;
  col : option nat
}.

(** [Token(TokenType.EOF)], the sentinel the cursor synthesizes. *)
Definition eof_token : Token := mkToken EOF None None None.

(** A token as the tests write it, [Token(ty, text)]. *)
Definition tok (ty : TokenType) (text : string) : Token :=
  mkToken ty (Some text) None None.

(** ** Python values the parser builds

    Rules return dictionaries, combinators return lists.  A dictionary is
    kept as its items in insertion order; its fields hold token texts,
    floats, or further values. *)

Inductive pyval : Type :=
| VDict (items : list (string * field))
| VList (elems : list pyval)
with field : Type :=
| FNone
| FStr (s : string)
| FFloat (literal : option string)
| FVal (v : pyval).

(** [{}], the marker of an absent optional child. *)
Definition empty_marker : pyval := VDict [].

(** Truth value of a dictionary or list: non-empty. *)
Definition truthy (v : pyval) : bool :=
  match v with
  | VDict [] => false
  | VList [] => false
  | _ => true
  end.

(** [isinstance(v, dict)]. *)
Definition is_dict (v : pyval) : bool :=
  match v with VDict _ => true | VList _ => false end.

(** [tok.value] stored in a node. *)
Definition field_of_text (o : option string) : field :=
  match o with Some s => FStr s | None => FNone end.

(** [d[k]] as a lookup that may miss. *)
Fixpoint dict_get (k : string) (items : list (string * field)) : option field :=
  match items with
  | [] => None
  | (k', f) :: rest => if String.eqb k k' then Some f else dict_get k rest
  end.

Definition get_field (k : string) (v : pyval) : option field :=
  match v with VDict items => dict_get k items | VList _ => None end.

(** ** Failures

    [raise SyntaxError(msg) from se] keeps the cause [se] in the new
    exception. *)

Inductive exn : Type :=
| SyntaxError (msg : string) (cause : option exn).

Definition message (e : exn) : string :=
  match e with SyntaxError m _ => m end.

(** The exceptions of the built-in [float], which [primary] calls on the
    text of a number token.  They are no [SyntaxError]: no handler of the
    parser catches them. *)
Inductive builtin_error : Type :=
| ValueError (text : string)
| TypeError.

(** ** The parser object: [tokens], [pos], [current_token] *)

Record parser : Type := mkParser {
  tokens : list Token;
  pos : nat;
  current_token : Token
}.

(** What a method call yields: a returned value, a raised [SyntaxError], an
    exception of another class that passes every [except SyntaxError], or
    no answer within the recursion budget.  The first three carry the parser
    state after the call. *)
Inductive result (A : Type) : Type :=
| Ok (a : A) (p : parser)
| Raise (e : exn) (p : parser)
| Uncaught (e : builtin_error) (p : parser)
| OutOfFuel.

Arguments Ok {A} a p.
Arguments Raise {A} e p.
Arguments Uncaught {A} e p.
Arguments OutOfFuel {A}.

(** A "symbol": a zero-argument bound method of the parser. *)
Definition symbol : Type := parser -> result pyval.

(** [ToyPEGParser(_tokens)]. *)
Definition init (_tokens : list Token) : parser :=
  mkParser _tokens 0
    (match _tokens with t :: _ => t | [] => eof_token end).

(** [self.pos = start_pos; self.current_token = start_token]. *)
Definition restore (p : parser) (start_pos : nat) (start_token : Token) : parser :=
  mkParser (tokens p) start_pos start_token.

Definition advance_to_next_token (p : parser) : Token * parser :=
  let pos' := pos p + 1 in
  let cur :=
    if (pos' <? List.length (tokens p))%nat then nth pos' (tokens p) eof_token
    else eof_token in
  (cur, mkParser (tokens p) pos' cur).

Definition option_string_eqb (a b : option string) : bool :=
  match a, b with
  | Some x, Some y => String.eqb x y
  | None, None => true
  | _, _ => false
  end.

(** The matching test of [consume_token]:
    [type == token_type and (value is None or current.value == value)]. *)
Definition token_matches (t : Token) (token_type : TokenType)
    (v : option string) : bool :=
  TokenType_eqb (type t) token_type &&
  match v with
  | None => true
  | Some _ => option_string_eqb (value t) v
  end.

Definition consume_token (token_type : TokenType) (v : option string)
    (p : parser) : option Token * parser :=
  if token_matches (current_token p) token_type v then
    let consumed_token := current_token p in
    (Some consumed_token, snd (advance_to_next_token p))
  else (None, p).

(** [x or d] on an optional string: [None] and [''] are false. *)
Definition str_or (o : option string) (d : string) : string :=
  match o with
  | Some "" => d
  | Some s => s
  | None => d
  end.

(** [f"{n}"] for an [int] or [None]. *)
Definition fmt_int (o : option nat) : string :=
  match o with
  | Some n => NilZero.string_of_uint (Nat.to_uint n)
  | None => "None"
  end.

Definition consume_token_or_fail (token_type : TokenType) (v : option string)
    (err_msg : option string) (p : parser) : result Token :=
  match consume_token token_type v p with
  | (Some token, p') => Ok token p'
  | (None, p') =>
      let expected := str_or v (TokenType_name token_type) in
      let found := str_or (value (current_token p'))
                     (TokenType_name (type (current_token p'))) in
      Raise (SyntaxError
               (str_or err_msg "Syntax error" ++ ". Expected " ++ expected
                ++ ", found " ++ found ++ " at line "
                ++ fmt_int (lineno (current_token p')) ++ ":"
                ++ fmt_int (col (current_token p')))%string None) p'
  end.

(** ** Sequencing of parser methods

    A method body is a computation over the parser state.  [bind] runs the
    next statement, [try_except] is [try: ... except SyntaxError as se: ...]
    (the handler runs in the state the failing call left behind; an
    exception of another class is not caught), and a computation that ran
    out of budget stays so. *)

Definition M (A : Type) : Type := parser -> result A.

Definition ret {A} (a : A) : M A := fun p => Ok a p.

Definition raise {A} (e : exn) : M A := fun p => Raise e p.

Definition uncaught {A} (e : builtin_error) : M A := fun p => Uncaught e p.

Definition out_of_fuel {A} : M A := fun _ => OutOfFuel.

Definition bind {A B} (m : M A) (k : A -> M B) : M B :=
  fun p =>
    match m p with
    | Ok a p' => k a p'
    | Raise e p' => Raise e p'
    | Uncaught e p' => Uncaught e p'
    | OutOfFuel => OutOfFuel
    end.

Definition try_except {A} (m : M A) (handler : exn -> M A) : M A :=
  fun p =>
    match m p with
    | Ok a p' => Ok a p'
    | Raise se p' => handler se p'
    | Uncaught e p' => Uncaught e p'
    | OutOfFuel => OutOfFuel
    end.

Notation "x <- c ;; k" := (bind c (fun x => k))
  (at level 61, c at next level, right associativity).
Notation "c >> k" := (bind c (fun _ => k))
  (at level 61, right associativity).

Definition get_pos : M nat := fun p => Ok (pos p) p.

Definition get_current_token : M Token := fun p => Ok (current_token p) p.

(** [self.pos = start_pos; self.current_token = start_token] as a statement. *)
Definition rollback (start_pos : nat) (start_token : Token) : M unit :=
  fun p => Ok tt (restore p start_pos start_token).

(** [self.consume_token(token_type, value)] as a statement. *)
Definition consume (token_type : TokenType) (v : option string) : M (option Token) :=
  fun p => let (t, p') := consume_token token_type v p in Ok t p'.

(** The recurring handler
    [self.pos = start_pos; self.current_token = start_token;
     raise SyntaxError(msg) from se]. *)
Definition rollback_and_raise {A} (start_pos : nat) (start_token : Token)
    (msg : string) (se : exn) : M A :=
  rollback start_pos start_token >> raise (SyntaxError msg (Some se)).

(** ** PEG combinators *)

Fixpoint sequence_loop (start_pos : nat) (start_token : Token)
    (symbols : list symbol) (results : list pyval) : M (list pyval) :=
  match symbols with
  | [] => ret results
  | symbol :: rest =>
      result <- try_except symbol
                  (rollback_and_raise start_pos start_token
                     "Syntax error. One symbol parsing failed within sequence.") ;;
      sequence_loop start_pos start_token rest (results ++ [result])
  end.

Definition parse_sequence (symbols : list symbol) : M (list pyval) :=
  match symbols with
  | [] => raise (SyntaxError "Syntax error. Empty sequence." None)
  | _ =>
      start_pos <- get_pos ;;
      start_token <- get_current_token ;;
      sequence_loop start_pos start_token symbols []
  end.

Fixpoint ordered_choice_loop (start_pos : nat) (start_token : Token)
    (symbols : list symbol) : M (list pyval) :=
  match symbols with
  | [] => ret []
  | symbol :: rest =>
      fun p =>
        match symbol p with
        | Ok result p' => Ok [result] p'
        | Raise _ p' =>
            ordered_choice_loop start_pos start_token rest
              (restore p' start_pos start_token)
        | Uncaught e p' => Uncaught e p'
        | OutOfFuel => OutOfFuel
        end
  end.

Definition parse_ordered_choice (symbols : list symbol) : M (list pyval) :=
  match symbols with
  | [] => raise (SyntaxError "Syntax error. Empty ordered choice." None)
  | _ =>
      start_pos <- get_pos ;;
      start_token <- get_current_token ;;
      ordered_choice_loop start_pos start_token symbols
  end.

(** The [while True] loop of [parse_zero_or_more]; [fuel] bounds the number
    of iterations. *)
Fixpoint zero_or_more_loop (fuel : nat) (symbol : symbol)
    (results : list pyval) : M (list pyval) :=
  match fuel with
  | 0 => out_of_fuel
  | S fuel' =>
      fun p =>
        let start_pos := pos p in
        let start_token := current_token p in
        match symbol p with
        | Raise _ p' => Ok results (restore p' start_pos start_token)
        | Ok result p' =>
            let results := results ++ [result] in
            if (start_pos =? pos p')%nat then Ok results p'
            else zero_or_more_loop fuel' symbol results p'
        | Uncaught e p' => Uncaught e p'
        | OutOfFuel => OutOfFuel
        end
  end.

Definition parse_zero_or_more (fuel : nat) (symbol : symbol) : M (list pyval) :=
  zero_or_more_loop fuel symbol [].

(** [if isinstance(r, dict): r = [r]]. *)
Definition as_list (r : pyval) : list pyval :=
  match r with
  | VDict _ => [r]
  | VList l => l
  end.

(** [rest_results] is the list [parse_zero_or_more] returns, so the second
    [isinstance(..., dict)] test of the source is never true. *)
Definition parse_one_or_more (fuel : nat) (symbol : symbol) : M (list pyval) :=
  start_pos <- get_pos ;;
  start_token <- get_current_token ;;
  first_result <- try_except symbol
                    (rollback_and_raise start_pos start_token
                       "Syntax error. 1st symbol parsing failed in 'one_or_more'.") ;;
  if negb (truthy first_result) then ret []
  else
    let first_result := as_list first_result in
    rest_results <- parse_zero_or_more fuel symbol ;;
    match rest_results with
    | [] => ret first_result
    | _ => ret (first_result ++ rest_results)
    end.

Definition parse_optional (symbol : symbol) : M pyval :=
  start_pos <- get_pos ;;
  start_token <- get_current_token ;;
  try_except symbol
    (fun _ => rollback start_pos start_token >> ret (VList [])).

(** ** The built-in [float] on a token text

    [float(x)] raises [TypeError] on [None].  On a string it skips white
    space at both ends and accepts, after an optional sign,

      [digitpart ["." [digitpart]] [exponent]],
      ["." digitpart [exponent]], or
      ["inf"], ["infinity"], ["nan"] in any letter case,

    where [digitpart] is digits with single underscores between them and
    [exponent] is ["e"] or ["E"], an optional sign and a [digitpart]; on any
    other string it raises [ValueError].  A character is its code point
    (below 256 in this string type).  The number read is kept as the text
    it is read from. *)

Definition is_digit (c : ascii) : bool :=
  let n := nat_of_ascii c in (48 <=? n)%nat && (n <=? 57)%nat.

(** Tab, line feed, vertical tab, form feed, carriage return, space, next
    line, no-break space. *)
Definition is_space (c : ascii) : bool :=
  let n := nat_of_ascii c in
  ((9 <=? n)%nat && (n <=? 13)%nat) || (n =? 32)%nat || (n =? 133)%nat
  || (n =? 160)%nat.

Definition to_lower (c : ascii) : ascii :=
  let n := nat_of_ascii c in
  if (65 <=? n)%nat && (n <=? 90)%nat then ascii_of_nat (n + 32) else c.

Fixpoint lstrip (l : list ascii) : list ascii :=
  match l with
  | c :: l' => if is_space c then lstrip l' else l
  | [] => []
  end.

Definition strip (l : list ascii) : list ascii :=
  rev (lstrip (rev (lstrip l))).

(** After a digit: [(["_"] digit)*]; what follows is returned. *)
Fixpoint more_digits (l : list ascii) : list ascii :=
  match l with
  | c :: l' =>
      if is_digit c then more_digits l'
      else if Ascii.eqb c "_" then
        match l' with
        | d :: l'' => if is_digit d then more_digits l'' else l
        | [] => l
        end
      else l
  | [] => []
  end.

(** [digitpart ::= digit (["_"] digit)*]; what follows is returned. *)
Definition digitpart (l : list ascii) : option (list ascii) :=
  match l with
  | c :: l' => if is_digit c then Some (more_digits l') else None
  | [] => None
  end.

Definition skip_sign (l : list ascii) : list ascii :=
  match l with
  | c :: l' => if Ascii.eqb c "+" || Ascii.eqb c "-" then l' else l
  | [] => []
  end.

(** [[exponent]] up to the end of the text. *)
Definition exponent_to_end (l : list ascii) : bool :=
  match l with
  | [] => true
  | c :: l' =>
      if Ascii.eqb c "e" || Ascii.eqb c "E" then
        match digitpart (skip_sign l') with
        | Some [] => true
        | _ => false
        end
      else false
  end.

Definition is_number (l : list ascii) : bool :=
  match digitpart l with
  | Some l' =>
      match l' with
      | c :: l'' =>
          if Ascii.eqb c "." then
            match digitpart l'' with
            | Some l3 => exponent_to_end l3
            | None => exponent_to_end l''
            end
          else exponent_to_end l'
      | [] => true
      end
  | None =>
      match l with
      | c :: l' =>
          if Ascii.eqb c "." then
            match digitpart l' with
            | Some l'' => exponent_to_end l''
            | None => false
            end
          else false
      | [] => false
      end
  end.

Definition is_inf_or_nan (l : list ascii) : bool :=
  let word := string_of_list_ascii (map to_lower l) in
  String.eqb word "inf" || String.eqb word "infinity" || String.eqb word "nan".

(** The strings [float] converts. *)
Definition float_literal (s : string) : bool :=
  let l := skip_sign (strip (list_ascii_of_string s)) in
  is_number l || is_inf_or_nan l.

(** [float(tok.value)] as a statement. *)
Definition float (x : option string) : M field :=
  match x with
  | None => uncaught TypeError
  | Some s =>
      if float_literal s then ret (FFloat x) else uncaught (ValueError s)
  end.

(** ** Grammar rules: expressions

    The rules call each other recursively; [fuel] bounds the depth of
    nested calls and the iterations of each loop.  A call with enough fuel
    takes no notice of it (see [expression_fuel_mono] below). *)

Definition node (ty : string) (fields : list (string * field)) : pyval :=
  VDict (("type", FStr ty) :: fields).

Definition binary_expr (op : string) (left right : pyval) : pyval :=
  node "binary_expr" [("op", FStr op); ("left", FVal left); ("right", FVal right)].

(** [f"{op}"] for a token text. *)
Definition fmt_str (o : option string) : string :=
  match o with Some s => s | None => "None" end.

(** The [if self.consume_token(T1, 'op1'): op = 'op1' elif ... else: break]
    head of an operator loop: the first listed operator the current token
    matches is consumed. *)
Fixpoint match_operator (ops : list (TokenType * string)) : M (option string) :=
  match ops with
  | [] => ret None
  | (token_type, op) :: rest =>
      t <- consume token_type (Some op) ;;
      match t with
      | Some _ => ret (Some op)
      | None => match_operator rest
      end
  end.

(** The operator loop shared by [logical_or] ... [multiplicative]: as long
    as an operator of the level is consumed, parse the right operand (a
    failure rolls back to the start of the whole rule) and fold
    [left = {'type': 'binary_expr', 'op': op, 'left': left, 'right': right}]. *)
Fixpoint operator_loop (fuel : nat) (ops : list (TokenType * string))
    (operand : symbol) (start_pos : nat) (start_token : Token)
    (left : pyval) : M pyval :=
  match fuel with
  | 0 => out_of_fuel
  | S fuel' =>
      o <- match_operator ops ;;
      match o with
      | None => ret left
      | Some op =>
          right <- try_except operand
                     (rollback_and_raise start_pos start_token
                        ("Expected expression after '" ++ op ++ "'")%string) ;;
          operator_loop fuel' ops operand start_pos start_token
            (binary_expr op left right)
      end
  end.

(** The body common to the six binary levels; they differ in the operators,
    the operand rule and the message of a failing first operand. *)
Definition binary_level (fuel : nat) (ops : list (TokenType * string))
    (operand : symbol) (before_msg : string) : M pyval :=
  start_pos <- get_pos ;;
  start_token <- get_current_token ;;
  left <- try_except operand
            (rollback_and_raise start_pos start_token before_msg) ;;
  operator_loop fuel ops operand start_pos start_token left.

Fixpoint expression (fuel : nat) : symbol :=
  match fuel with
  | 0 => out_of_fuel
  | S fuel' =>
      try_except (logical_or fuel')
        (fun se => raise (SyntaxError "Failed to parse expression" (Some se)))
  end

with logical_or (fuel : nat) : symbol :=
  match fuel with
  | 0 => out_of_fuel
  | S fuel' =>
      binary_level fuel' [(OR, "||")] (logical_and fuel')
        "Expected expression before '||'"
  end

with logical_and (fuel : nat) : symbol :=
  match fuel with
  | 0 => out_of_fuel
  | S fuel' =>
      binary_level fuel' [(AND, "&&")] (equality fuel')
        "Expected expression before '&&'"
  end

with equality (fuel : nat) : symbol :=
  match fuel with
  | 0 => out_of_fuel
  | S fuel' =>
      binary_level fuel' [(EQ, "=="); (NEQ, "!=")] (relational fuel')
        "Expected expression before '==' or '!='"
  end

with relational (fuel : nat) : symbol :=
  match fuel with
  | 0 => out_of_fuel
  | S fuel' =>
      binary_level fuel' [(LT, "<"); (GT, ">"); (LTE, "<="); (GTE, ">=")]
        (additive fuel')
        "Expected expression before '<', '>', '<=', or '>='"
  end

with additive (fuel : nat) : symbol :=
  match fuel with
  | 0 => out_of_fuel
  | S fuel' =>
      binary_level fuel' [(PLUS, "+"); (MINUS, "-")] (multiplicative fuel')
        "Expected expression before '<', '>', '<=', or '>='"
  end

with multiplicative (fuel : nat) : symbol :=
  match fuel with
  | 0 => out_of_fuel
  | S fuel' =>
      binary_level fuel' [(MUL, "*"); (DIV, "/")] (primary fuel')
        "Expected expression before '*' or '/'"
  end

with primary (fuel : nat) : symbol :=
  match fuel with
  | 0 => out_of_fuel
  | S fuel' =>
      num <- consume NUMBER None ;;
      match num with
      | Some num =>
          number <- float (value num) ;;
          ret (node "number" [("value", number)])
      | None =>
      ident <- consume IDENTIFIER None ;;
      match ident with
      | Some ident =>
          ret (node "identifier" [("name", field_of_text (value ident))])
      | None =>
      start_pos <- get_pos ;;
      start_token <- get_current_token ;;
      lparen <- consume LPAREN (Some "(") ;;
      match lparen with
      | Some _ =>
          expr_result <- try_except (expression fuel')
                           (rollback_and_raise start_pos start_token
                              "Expected expression after '('") ;;
          consume_token_or_fail RPAREN (Some ")")
            (Some "Expected ')' after expression") >>
          ret expr_result
      | None =>
      op_token <- (plus <- consume PLUS (Some "+") ;;
                   match plus with
                   | Some _ => ret plus
                   | None => consume MINUS (Some "-")
                   end) ;;
      match op_token with
      | Some op_token =>
          let op := value op_token in
          operand <- try_except (primary fuel')
                       (rollback_and_raise start_pos start_token
                          ("Expected expression after '" ++ fmt_str op ++ "'")%string) ;;
          ret (node "unary_expr"
                 [("op", field_of_text op); ("argument", FVal operand)])
      | None => raise (SyntaxError "Expected primary expression" None)
      end end end end
  end.

(** ** Grammar rules: statements *)

Definition var_decl (fuel : nat) : symbol :=
  start_pos <- get_pos ;;
  start_token <- get_current_token ;;
  consume_token_or_fail VAR (Some "var") None >>
  id_token <- consume_token_or_fail IDENTIFIER None
                (Some "Expected variable name in declaration") ;;
  assign <- consume ASSIGN (Some "=") ;;
  expr_result <- match assign with
                 | Some _ =>
                     try_except (expression fuel)
                       (rollback_and_raise start_pos start_token
                          "Expected expression after '=' in declaration")
                 | None => ret empty_marker
                 end ;;
  consume_token_or_fail SEMICOLON (Some ";")
    (Some "Expected ';' after declaration") >>
  ret (node "var_decl"
         [("name", field_of_text (value id_token)); ("init", FVal expr_result)]).

Definition assignment (fuel : nat) : symbol :=
  start_pos <- get_pos ;;
  start_token <- get_current_token ;;
  id_token <- consume_token_or_fail IDENTIFIER None
                (Some "Expected variable name in assignment") ;;
  consume_token_or_fail ASSIGN (Some "=") (Some "Expected '=' in assignment") >>
  expr_result <- try_except (expression fuel)
                   (rollback_and_raise start_pos start_token
                      "Expected expression in assignment") ;;
  consume_token_or_fail SEMICOLON (Some ";")
    (Some "Expected ';' after assignment") >>
  ret (node "assignment"
         [("name", field_of_text (value id_token)); ("value", FVal expr_result)]).

Definition print_stmt (fuel : nat) : symbol :=
  start_pos <- get_pos ;;
  start_token <- get_current_token ;;
  consume_token_or_fail PRINT (Some "print") None >>
  expr_result <- try_except (expression fuel)
                   (rollback_and_raise start_pos start_token
                      "Expected expression after 'print'") ;;
  consume_token_or_fail SEMICOLON (Some ";") (Some "Expected ';' after print") >>
  ret (node "print_stmt" [("expression", FVal expr_result)]).

Fixpoint statement (fuel : nat) : symbol :=
  match fuel with
  | 0 => out_of_fuel
  | S fuel' =>
      choice_results <- parse_ordered_choice
                          [var_decl fuel'; assignment fuel'; if_stmt fuel';
                           while_loop fuel'; print_stmt fuel'; block fuel'] ;;
      match choice_results with
      | [] => raise (SyntaxError "Expected statement" None)
      | first :: _ => ret first
      end
  end

with block (fuel : nat) : symbol :=
  match fuel with
  | 0 => out_of_fuel
  | S fuel' =>
      consume_token_or_fail LBRACE (Some "{")
        (Some "Expected '{' to start block") >>
      stmt_results <- parse_zero_or_more fuel' (statement fuel') ;;
      consume_token_or_fail RBRACE (Some "}")
        (Some "Expected '}' to end block") >>
      ret (node "block" [("body", FVal (VList stmt_results))])
  end

with if_stmt (fuel : nat) : symbol :=
  match fuel with
  | 0 => out_of_fuel
  | S fuel' =>
      start_pos <- get_pos ;;
      start_token <- get_current_token ;;
      consume_token_or_fail IF (Some "if") None >>
      consume_token_or_fail LPAREN (Some "(") (Some "Expected '(' after 'if'") >>
      condition_result <- try_except (expression fuel')
                            (rollback_and_raise start_pos start_token
                               "Expected condition in 'if' statement") ;;
      consume_token_or_fail RPAREN (Some ")")
        (Some "Expected ')' after condition") >>
      if_body_result <- try_except (statement fuel')
                          (rollback_and_raise start_pos start_token
                             "Expected statement after 'if'") ;;
      else_token <- consume ELSE (Some "else") ;;
      else_body_result <- match else_token with
                          | Some _ =>
                              try_except (statement fuel')
                                (rollback_and_raise start_pos start_token
                                   "Expected statement after 'else'")
                          | None => ret empty_marker
                          end ;;
      ret (node "if_stmt"
             [("cond", FVal condition_result);
              ("if-body", FVal if_body_result);
              ("else-body", FVal else_body_result)])
  end

with while_loop (fuel : nat) : symbol :=
  match fuel with
  | 0 => out_of_fuel
  | S fuel' =>
      start_pos <- get_pos ;;
      start_token <- get_current_token ;;
      consume_token_or_fail WHILE (Some "while") None >>
      consume_token_or_fail LPAREN (Some "(")
        (Some "Expected '(' after 'while'") >>
      condition_result <- try_except (expression fuel')
                            (rollback_and_raise start_pos start_token
                               "Expected condition in 'while' loop") ;;
      consume_token_or_fail RPAREN (Some ")")
        (Some "Expected ')' after condition") >>
      body_result <- try_except (statement fuel')
                       (rollback_and_raise start_pos start_token
                          "Expected loop body") ;;
      ret (node "while_loop"
             [("cond", FVal condition_result); ("body", FVal body_result)])
  end.

Definition program (fuel : nat) : symbol :=
  stmt_results <- parse_one_or_more fuel (statement fuel) ;;
  match stmt_results with
  | [] => raise (SyntaxError "Empty program" None)
  | _ => ret (node "program" [("body", FVal (VList stmt_results))])
  end.

(** * Vocabulary of the properties

    The notions the statements below are written with; none of them is
    part of the parser. *)

(** [fuel_le m1 m2]: wherever [m1] answers (returns or raises), [m2] gives
    the same answer. *)
Definition fuel_le {A} (m1 m2 : M A) : Prop :=
  forall p, m1 p <> OutOfFuel -> m2 p = m1 p.

(** [current_token] is [tokens[pos]] inside the list and the end-of-stream
    sentinel past its end. *)
Definition cursor_ok (p : parser) : Prop :=
  current_token p =
    if (pos p <? List.length (tokens p))%nat
    then nth (pos p) (tokens p) eof_token
    else eof_token.

(** Where the cursor stands: the pair a rule saves on entry. *)
Definition cursor (p : parser) : nat * Token := (pos p, current_token p).

(** [all_fail sp st ss p q]: tried in order from [p], every symbol of [ss]
    raises, each failure is followed by the rollback to [(sp, st)], and the
    attempts end in state [q]. *)
Inductive all_fail (start_pos : nat) (start_token : Token) :
    list symbol -> parser -> parser -> Prop :=
| all_fail_nil p : all_fail start_pos start_token [] p p
| all_fail_cons s rest p e p' q :
    s p = Raise e p' ->
    all_fail start_pos start_token rest (restore p' start_pos start_token) q ->
    all_fail start_pos start_token (s :: rest) p q.

(** [all_succeed ss p rs q]: run in order from [p], every symbol of [ss]
    returns; [rs] are the results in order and [q] the final state. *)
Inductive all_succeed : list symbol -> parser -> list pyval -> parser -> Prop :=
| all_succeed_nil p : all_succeed [] p [] p
| all_succeed_cons s rest p r p' rs q :
    s p = Ok r p' ->
    all_succeed rest p' rs q ->
    all_succeed (s :: rest) p (r :: rs) q.

(** The choice of the spec's words: the cursor is saved before each
    attempt and restored to that snapshot when the attempt fails. *)
Fixpoint ordered_choice_by_spec (symbols : list symbol) : M (list pyval) :=
  match symbols with
  | [] => ret []
  | symbol :: rest =>
      fun p =>
        match symbol p with
        | Ok result p' => Ok [result] p'
        | Raise _ p' =>
            ordered_choice_by_spec rest
              (restore p' (pos p) (current_token p))
        | Uncaught e p' => Uncaught e p'
        | OutOfFuel => OutOfFuel
        end
  end.

(** [repeats s p rs q]: the iterations of the repetition of [s] from state
    [p].  It ends at the first failure, with the cursor put back to where
    that iteration started, or at the first success that leaves the position
    unchanged; [rs] are the successes in order. *)
Inductive repeats (s : symbol) : parser -> list pyval -> parser -> Prop :=
| repeats_fail p e p' :
    s p = Raise e p' ->
    repeats s p [] (restore p' (pos p) (current_token p))
| repeats_stuck p r p' :
    s p = Ok r p' -> pos p' = pos p ->
    repeats s p [r] p'
| repeats_more p r p' rs q :
    s p = Ok r p' -> pos p' <> pos p ->
    repeats s p' rs q ->
    repeats s p (r :: rs) q.






(** [s] only returns true values: non-empty dictionaries or lists. *)
Definition returns_truthy (s : symbol) : Prop :=
  forall p v q, s p = Ok v q -> truthy v = true.

(** A saved pair [(start_pos, start_token)] that obeys the cursor invariant
    for the token list [ts]. *)
Definition snapshot_ok (ts : list Token) (start_pos : nat) (start_token : Token) : Prop :=
  start_token =
    if (start_pos <? List.length ts)%nat then nth start_pos ts eof_token
    else eof_token.

(** A state over the token list [ts] that obeys the cursor invariant. *)
Definition consistent (ts : list Token) (p : parser) : Prop :=
  tokens p = ts /\ cursor_ok p.

(** [m] leaves a consistent state, returning or raising, when entered in
    one. *)
Definition preserves (ts : list Token) {A} (m : M A) : Prop :=
  forall p, consistent ts p ->
    match m p with
    | Ok _ q => consistent ts q
    | Raise _ q => consistent ts q
    | Uncaught _ q => consistent ts q
    | OutOfFuel => True
    end.

Definition advancing {A} (m : M A) : Prop :=
  forall p a q, m p = Ok a q -> pos p < pos q.

Definition stays {A} (m : M A) : Prop :=
  forall p a q, m p = Ok a q -> pos p <= pos q.

Definition never_returns {A} (m : M A) : Prop :=
  forall p a q, m p <> Ok a q.

(** A conditional consumption: one token further when it yields a token,
    the same state when it yields [None]. *)
Definition eats_if_some (m : M (option Token)) : Prop :=
  forall p o q, m p = Ok o q ->
    match o with
    | Some _ => pos q = pos p + 1
    | None => q = p
    end.

(** The sixteen grammar rules, each taking its recursion budget. *)
Definition grammar_rules : list (nat -> symbol) :=
  [program; statement; block; var_decl; assignment; if_stmt; while_loop;
   print_stmt; expression; logical_or; logical_and; equality; relational;
   additive; multiplicative; primary].

Definition restoring {A} (m : M A) : Prop :=
  forall p e q, m p = Raise e q -> cursor q = cursor p.

(** The rules whose every failure is rolled back. *)
Definition restoring_rules : list (nat -> symbol) :=
  [program; statement; expression; logical_or; logical_and; equality;
   relational; additive; multiplicative].

Definition keeps (Inv : parser -> Prop) {A} (m : M A) : Prop :=
  forall p, Inv p ->
    match m p with
    | Ok _ q => Inv q
    | Raise _ q => Inv q
    | Uncaught _ q => Inv q
    | OutOfFuel => True
    end.

(** No operator of the list is the end-of-stream type. *)
Definition no_eof (ops : list (TokenType * string)) : Prop :=
  Forall (fun o => fst o <> EOF) ops.

(** The state is over the token list [ts], obeys the cursor invariant, and
    its position is at most the length of the list. *)
Definition in_range (ts : list Token) (p : parser) : Prop :=
  tokens p = ts /\ cursor_ok p /\ pos p <= List.length ts.

Definition snapshot_in_range (ts : list Token) (sp : nat) (st : Token) : Prop :=
  snapshot_ok ts sp st /\ sp <= List.length ts.

(** Tokens left from the cursor to the end of the list. *)
Definition remaining (ts : list Token) (p : parser) : nat :=
  List.length ts - pos p.

(** [answers ts r m]: in every state in range with at most [r] tokens
    left, [m] returns or raises. *)
Definition answers (ts : list Token) (r : nat) {A} (m : M A) : Prop :=
  forall p, in_range ts p -> remaining ts p <= r -> m p <> OutOfFuel.

(** [m] returns or raises in every state. *)
Definition total {A} (m : M A) : Prop := forall p, m p <> OutOfFuel.

(** The fuel that suffices for a state with the given tokens left. *)
Definition enough_fuel (ts : list Token) (p : parser) : nat :=
  8 * remaining ts p + 10.

(** The token at index [i] is [t], and it matches type [ty] and, when
    given, text [v]. *)
Definition token_at (ts : list Token) (i : nat) (ty : TokenType)
    (v : option string) (t : Token) : Prop :=
  nth_error ts i = Some t /\ token_matches t ty v = true.

Inductive chain (ts : list Token) (ops : list (TokenType * string))
    (operand : nat -> nat -> pyval -> Prop) : nat -> nat -> pyval -> Prop :=
| chain_operand i j v :
    operand i j v -> chain ts ops operand i j v
| chain_operator i k j left ty op t right :
    chain ts ops operand i k left ->
    In (ty, op) ops ->
    token_at ts k ty (Some op) t ->
    operand (S k) j right ->
    chain ts ops operand i j (binary_expr op left right).

Definition or_ops : list (TokenType * string) := [(OR, "||")].
Definition and_ops : list (TokenType * string) := [(AND, "&&")].
Definition equality_ops : list (TokenType * string) := [(EQ, "=="); (NEQ, "!=")].
Definition relational_ops : list (TokenType * string) :=
  [(LT, "<"); (GT, ">"); (LTE, "<="); (GTE, ">=")].
Definition additive_ops : list (TokenType * string) := [(PLUS, "+"); (MINUS, "-")].
Definition multiplicative_ops : list (TokenType * string) := [(MUL, "*"); (DIV, "/")].


(** [primary ::= NUMBER | IDENTIFIER | '(' expression ')' | ('+' | '-') primary],
    with [expression] spelled out as the six nested binary levels. *)
Inductive derives_primary (ts : list Token) : nat -> nat -> pyval -> Prop :=
| derives_number i t :
    token_at ts i NUMBER None t ->
    derives_primary ts i (S i) (node "number" [("value", FFloat (value t))])
| derives_identifier i t :
    token_at ts i IDENTIFIER None t ->
    derives_primary ts i (S i)
      (node "identifier" [("name", field_of_text (value t))])
| derives_parenthesized i j t1 t2 v :
    token_at ts i LPAREN (Some "(") t1 ->
    chain ts or_ops
      (chain ts and_ops
         (chain ts equality_ops
            (chain ts relational_ops
               (chain ts additive_ops
                  (chain ts multiplicative_ops (derives_primary ts))))))
      (S i) j v ->
    token_at ts j RPAREN (Some ")") t2 ->
    derives_primary ts i (S j) v
| derives_unary i j t v :
    token_at ts i PLUS (Some "+") t \/ token_at ts i MINUS (Some "-") t ->
    derives_primary ts (S i) j v ->
    derives_primary ts i j
      (node "unary_expr"
         [("op", field_of_text (value t)); ("argument", FVal v)]).

Definition derives_multiplicative ts := chain ts multiplicative_ops (derives_primary ts).
Definition derives_additive ts := chain ts additive_ops (derives_multiplicative ts).
Definition derives_relational ts := chain ts relational_ops (derives_additive ts).
Definition derives_equality ts := chain ts equality_ops (derives_relational ts).
Definition derives_logical_and ts := chain ts and_ops (derives_equality ts).
Definition derives_logical_or ts := chain ts or_ops (derives_logical_and ts).
Definition derives_expression ts := derives_logical_or ts.

(** [x*]: constructs one after the other. *)
Inductive sequence_of (item : nat -> nat -> pyval -> Prop) :
    nat -> nat -> list pyval -> Prop :=
| sequence_nil i : sequence_of item i i []
| sequence_cons i k j v vs :
    item i k v -> sequence_of item k j vs -> sequence_of item i j (v :: vs).

Inductive derives_statement (ts : list Token) : nat -> nat -> pyval -> Prop :=
| derives_var_decl i t1 t2 t3 :
    token_at ts i VAR (Some "var") t1 ->
    token_at ts (S i) IDENTIFIER None t2 ->
    token_at ts (S (S i)) SEMICOLON (Some ";") t3 ->
    derives_statement ts i (S (S (S i)))
      (node "var_decl"
         [("name", field_of_text (value t2)); ("init", FVal empty_marker)])
| derives_var_decl_init i j t1 t2 t3 t4 e :
    token_at ts i VAR (Some "var") t1 ->
    token_at ts (S i) IDENTIFIER None t2 ->
    token_at ts (S (S i)) ASSIGN (Some "=") t3 ->
    derives_expression ts (S (S (S i))) j e ->
    token_at ts j SEMICOLON (Some ";") t4 ->
    derives_statement ts i (S j)
      (node "var_decl"
         [("name", field_of_text (value t2)); ("init", FVal e)])
| derives_assignment i j t1 t2 t3 e :
    token_at ts i IDENTIFIER None t1 ->
    token_at ts (S i) ASSIGN (Some "=") t2 ->
    derives_expression ts (S (S i)) j e ->
    token_at ts j SEMICOLON (Some ";") t3 ->
    derives_statement ts i (S j)
      (node "assignment"
         [("name", field_of_text (value t1)); ("value", FVal e)])
| derives_if i j k t1 t2 t3 c b :
    token_at ts i IF (Some "if") t1 ->
    token_at ts (S i) LPAREN (Some "(") t2 ->
    derives_expression ts (S (S i)) j c ->
    token_at ts j RPAREN (Some ")") t3 ->
    derives_statement ts (S j) k b ->
    derives_statement ts i k
      (node "if_stmt"
         [("cond", FVal c); ("if-body", FVal b);
          ("else-body", FVal empty_marker)])
| derives_if_else i j k l t1 t2 t3 t4 c b e :
    token_at ts i IF (Some "if") t1 ->
    token_at ts (S i) LPAREN (Some "(") t2 ->
    derives_expression ts (S (S i)) j c ->
    token_at ts j RPAREN (Some ")") t3 ->
    derives_statement ts (S j) k b ->
    token_at ts k ELSE (Some "else") t4 ->
    derives_statement ts (S k) l e ->
    derives_statement ts i l
      (node "if_stmt"
         [("cond", FVal c); ("if-body", FVal b); ("else-body", FVal e)])
| derives_while i j k t1 t2 t3 c b :
    token_at ts i WHILE (Some "while") t1 ->
    token_at ts (S i) LPAREN (Some "(") t2 ->
    derives_expression ts (S (S i)) j c ->
    token_at ts j RPAREN (Some ")") t3 ->
    derives_statement ts (S j) k b ->
    derives_statement ts i k
      (node "while_loop" [("cond", FVal c); ("body", FVal b)])
| derives_print i j t1 t2 e :
    token_at ts i PRINT (Some "print") t1 ->
    derives_expression ts (S i) j e ->
    token_at ts j SEMICOLON (Some ";") t2 ->
    derives_statement ts i (S j)
      (node "print_stmt" [("expression", FVal e)])
| derives_block i j t1 t2 body :
    token_at ts i LBRACE (Some "{") t1 ->
    sequence_of (derives_statement ts) (S i) j body ->
    token_at ts j RBRACE (Some "}") t2 ->
    derives_statement ts i (S j)
      (node "block" [("body", FVal (VList body))]).

(** [program ::= statement+]. *)
Definition derives_program (ts : list Token) (i j : nat) (v : pyval) : Prop :=
  exists body,
    body <> [] /\
    sequence_of (derives_statement ts) i j body /\
    v = node "program" [("body", FVal (VList body))].

(** [m] only returns trees the grammar relation [derives] allows for the
    tokens it consumed. *)
Definition sound_for (ts : list Token) (m : symbol)
    (derives : nat -> nat -> pyval -> Prop) : Prop :=
  forall p v q, in_range ts p -> m p = Ok v q -> derives (pos p) (pos q) v.

(** The node type of the statement a leading token of type [ty] starts. *)
Definition statement_tag (ty : TokenType) : option string :=
  match ty with
  | VAR => Some "var_decl"
  | IDENTIFIER => Some "assignment"
  | IF => Some "if_stmt"
  | WHILE => Some "while_loop"
  | PRINT => Some "print_stmt"
  | LBRACE => Some "block"
  | _ => None
  end.

(** [s] only returns when the current token has type [ty], and then a node
    of type [tag]. *)
Definition leads_with (ty : TokenType) (tag : string) (s : symbol) : Prop :=
  forall p v q,
    s p = Ok v q ->
    type (current_token p) = ty /\ get_field "type" v = Some (FStr tag).

(** [k] calls of [advance_to_next_token]. *)
Fixpoint advance_times (k : nat) (p : parser) : parser :=
  match k with
  | 0 => p
  | S k' => snd (advance_to_next_token (advance_times k' p))
  end.

(** The token types an expression can start with. *)
Definition starts_expression (ty : TokenType) : bool :=
  match ty with
  | NUMBER | IDENTIFIER | LPAREN | PLUS | MINUS => true
  | _ => false
  end.

(** [s] only returns when the current token can start an expression. *)
Definition needs_expression_start (s : symbol) : Prop :=
  forall p v q,
    s p = Ok v q -> starts_expression (type (current_token p)) = true.

(** The failure [expression] raises on a token that starts no expression:
    ["Expected primary expression"] wrapped by each level on the way up. *)
Definition no_expression_failure : exn :=
  SyntaxError "Failed to parse expression"
    (Some (SyntaxError "Expected expression before '||'"
    (Some (SyntaxError "Expected expression before '&&'"
    (Some (SyntaxError "Expected expression before '==' or '!='"
    (Some (SyntaxError "Expected expression before '<', '>', '<=', or '>='"
    (Some (SyntaxError "Expected expression before '<', '>', '<=', or '>='"
    (Some (SyntaxError "Expected expression before '*' or '/'"
    (Some (SyntaxError "Expected primary expression" None)))))))))))))).

(** [float(x)] raises [e]. *)
Definition float_fails (x : option string) (e : builtin_error) : Prop :=
  match x with
  | Some s => float_literal s = false /\ e = ValueError s
  | None => e = TypeError
  end.

(** The state [q] stands just after a number token of [ts] on whose text
    [float] raises [e]. *)
Definition after_bad_number (ts : list Token) (e : builtin_error)
    (q : parser) : Prop :=
  exists i t,
    pos q = S i /\ nth_error ts i = Some t /\ type t = NUMBER /\
    float_fails (value t) e.

(** [m] moves forward through [ts]: entered in a state in range it leaves
    one; when it returns the position has not gone back, and when it ends
    with an exception of [float] the position is beyond the entry, just
    after the number token [float] was called on. *)
Definition forward (ts : list Token) {A} (m : M A) : Prop :=
  forall p, in_range ts p ->
    match m p with
    | Ok _ q => in_range ts q /\ pos p <= pos q
    | Raise _ q => in_range ts q
    | Uncaught e q => in_range ts q /\ pos p < pos q /\ after_bad_number ts e q
    | OutOfFuel => True
    end.

(** A handler that always raises, in a state in range. *)
Definition raising_handler (ts : list Token) {A} (h : exn -> M A) : Prop :=
  forall se p, in_range ts p ->
    exists e q, h se p = Raise e q /\ in_range ts q.

(** * Lemmas

    Fuel is only a budget: every rule with more fuel agrees with itself
    with less wherever the latter answers.  Then the cursor operations, the
    combinators, the invariant along whole parses, and the shape of what
    the statement rules return and raise. *)

(** ** Fuel is only a budget *)

Lemma fuel_le_refl {A} (m : M A) : fuel_le m m.
Proof. intros p _. reflexivity. Qed.

Lemma fuel_le_bind {A B} (m1 m2 : M A) (k1 k2 : A -> M B) :
  fuel_le m1 m2 -> (forall a, fuel_le (k1 a) (k2 a)) ->
  fuel_le (bind m1 k1) (bind m2 k2).
Proof.
  intros Hm Hk p H. unfold bind in *.
  destruct (m1 p) as [a p'| e p'|? ?|] eqn:E.
  - rewrite (Hm p), E by (rewrite E; discriminate). now apply Hk.
  - rewrite (Hm p), E by (rewrite E; discriminate). reflexivity.
  - rewrite (Hm p), E by (rewrite E; discriminate). reflexivity.
  - contradiction.
Qed.

Lemma fuel_le_try_except {A} (m1 m2 : M A) (h1 h2 : exn -> M A) :
  fuel_le m1 m2 -> (forall e, fuel_le (h1 e) (h2 e)) ->
  fuel_le (try_except m1 h1) (try_except m2 h2).
Proof.
  intros Hm Hh p H. unfold try_except in *.
  destruct (m1 p) as [a p'| e p'|? ?|] eqn:E.
  - rewrite (Hm p), E by (rewrite E; discriminate). reflexivity.
  - rewrite (Hm p), E by (rewrite E; discriminate). now apply Hh.
  - rewrite (Hm p), E by (rewrite E; discriminate). reflexivity.
  - contradiction.
Qed.

Lemma fuel_le_sequence_loop start_pos start_token ss1 ss2 :
  Forall2 fuel_le ss1 ss2 ->
  forall results,
    fuel_le (sequence_loop start_pos start_token ss1 results)
            (sequence_loop start_pos start_token ss2 results).
Proof.
  induction 1 as [|s1 s2 r1 r2 Hs _ IH]; intros results; simpl.
  - apply fuel_le_refl.
  - apply fuel_le_bind.
    + apply fuel_le_try_except; [exact Hs | intros; apply fuel_le_refl].
    + intros a. apply IH.
Qed.

Lemma fuel_le_parse_sequence ss1 ss2 :
  Forall2 fuel_le ss1 ss2 ->
  fuel_le (parse_sequence ss1) (parse_sequence ss2).
Proof.
  intros H. destruct H as [|s1 s2 r1 r2 Hs Hr]; [apply fuel_le_refl|].
  unfold parse_sequence.
  apply fuel_le_bind; [apply fuel_le_refl|intros start_pos].
  apply fuel_le_bind; [apply fuel_le_refl|intros start_token].
  apply fuel_le_sequence_loop. now constructor.
Qed.

Lemma fuel_le_ordered_choice_loop start_pos start_token ss1 ss2 :
  Forall2 fuel_le ss1 ss2 ->
  fuel_le (ordered_choice_loop start_pos start_token ss1)
          (ordered_choice_loop start_pos start_token ss2).
Proof.
  induction 1 as [|s1 s2 r1 r2 Hs _ IH]; simpl.
  - apply fuel_le_refl.
  - intros p H.
    destruct (s1 p) as [a p'| e p'|? ?|] eqn:E.
    + rewrite (Hs p), E by (rewrite E; discriminate). reflexivity.
    + rewrite (Hs p), E by (rewrite E; discriminate). now apply IH.
    + rewrite (Hs p), E by (rewrite E; discriminate). reflexivity.
    + contradiction.
Qed.

Lemma fuel_le_parse_ordered_choice ss1 ss2 :
  Forall2 fuel_le ss1 ss2 ->
  fuel_le (parse_ordered_choice ss1) (parse_ordered_choice ss2).
Proof.
  intros H. destruct H as [|s1 s2 r1 r2 Hs Hr]; [apply fuel_le_refl|].
  unfold parse_ordered_choice.
  apply fuel_le_bind; [apply fuel_le_refl|intros start_pos].
  apply fuel_le_bind; [apply fuel_le_refl|intros start_token].
  apply fuel_le_ordered_choice_loop. now constructor.
Qed.

Lemma fuel_le_zero_or_more_loop n m (s1 s2 : symbol) :
  n <= m -> fuel_le s1 s2 ->
  forall results,
    fuel_le (zero_or_more_loop n s1 results) (zero_or_more_loop m s2 results).
Proof.
  intros Hnm Hs. revert m Hnm.
  induction n as [|n IH]; intros m Hnm results p H; [now elim H|].
  destruct m as [|m]; [lia|]. simpl in *.
  destruct (s1 p) as [a p'| e p'|? ?|] eqn:E.
  - rewrite (Hs p), E by (rewrite E; discriminate).
    destruct (pos p =? pos p')%nat; [reflexivity|].
    apply IH; [lia | exact H].
  - rewrite (Hs p), E by (rewrite E; discriminate). reflexivity.
  - rewrite (Hs p), E by (rewrite E; discriminate). reflexivity.
  - contradiction.
Qed.

Lemma fuel_le_parse_zero_or_more n m (s1 s2 : symbol) :
  n <= m -> fuel_le s1 s2 ->
  fuel_le (parse_zero_or_more n s1) (parse_zero_or_more m s2).
Proof. intros. now apply fuel_le_zero_or_more_loop. Qed.

Lemma fuel_le_parse_one_or_more n m (s1 s2 : symbol) :
  n <= m -> fuel_le s1 s2 ->
  fuel_le (parse_one_or_more n s1) (parse_one_or_more m s2).
Proof.
  intros Hnm Hs. unfold parse_one_or_more.
  apply fuel_le_bind; [apply fuel_le_refl|intros start_pos].
  apply fuel_le_bind; [apply fuel_le_refl|intros start_token].
  apply fuel_le_bind.
  - apply fuel_le_try_except; [exact Hs | intros; apply fuel_le_refl].
  - intros first_result. destruct (negb (truthy first_result)).
    + apply fuel_le_refl.
    + apply fuel_le_bind; [now apply fuel_le_parse_zero_or_more|].
      intros rest. apply fuel_le_refl.
Qed.

Lemma fuel_le_operator_loop n m ops (s1 s2 : symbol) start_pos start_token :
  n <= m -> fuel_le s1 s2 ->
  forall left,
    fuel_le (operator_loop n ops s1 start_pos start_token left)
            (operator_loop m ops s2 start_pos start_token left).
Proof.
  intros Hnm Hs. revert m Hnm.
  induction n as [|n IH]; intros m Hnm left; [intros p H; now elim H|].
  destruct m as [|m]; [lia|]. simpl.
  apply fuel_le_bind; [apply fuel_le_refl|intros [op|]].
  - apply fuel_le_bind.
    + apply fuel_le_try_except; [exact Hs | intros; apply fuel_le_refl].
    + intros right. apply IH. lia.
  - apply fuel_le_refl.
Qed.

Lemma fuel_le_binary_level n m ops (s1 s2 : symbol) before_msg :
  n <= m -> fuel_le s1 s2 ->
  fuel_le (binary_level n ops s1 before_msg) (binary_level m ops s2 before_msg).
Proof.
  intros Hnm Hs. unfold binary_level.
  apply fuel_le_bind; [apply fuel_le_refl|intros start_pos].
  apply fuel_le_bind; [apply fuel_le_refl|intros start_token].
  apply fuel_le_bind.
  - apply fuel_le_try_except; [exact Hs | intros; apply fuel_le_refl].
  - intros left. now apply fuel_le_operator_loop.
Qed.

(** Closes a goal [fuel_le body1 body2] where the two bodies differ only in
    the fuel given to the rules they call. *)
Ltac fuel_le_step :=
  first
    [ assumption
    | apply fuel_le_refl
    | apply fuel_le_binary_level; [lia|]
    | apply fuel_le_parse_zero_or_more; [lia|]
    | apply fuel_le_parse_one_or_more; [lia|]
    | apply fuel_le_parse_ordered_choice
    | apply Forall2_cons
    | apply Forall2_nil
    | apply fuel_le_try_except; [|intros ?]
    | apply fuel_le_bind; [|intros ?]
    | match goal with
      | |- fuel_le (match ?x with _ => _ end) _ => destruct x
      end
    | match goal with
      | H : forall m, _ <= m -> _ |- _ => apply H; lia
      end ].

Ltac fuel_le_auto := repeat fuel_le_step.

Lemma expression_family_fuel_mono n :
  forall m, n <= m ->
    fuel_le (expression n) (expression m) /\
    fuel_le (logical_or n) (logical_or m) /\
    fuel_le (logical_and n) (logical_and m) /\
    fuel_le (equality n) (equality m) /\
    fuel_le (relational n) (relational m) /\
    fuel_le (additive n) (additive m) /\
    fuel_le (multiplicative n) (multiplicative m) /\
    fuel_le (primary n) (primary m).
Proof.
  induction n as [|n IH]; intros m Hnm.
  - repeat split; intros p H; now elim H.
  - destruct m as [|m]; [lia|].
    assert (Hle : n <= m) by lia.
    destruct (IH m Hle) as (He & Hor & Hand & Heq & Hrel & Hadd & Hmul & Hpri).
    repeat split; simpl; fuel_le_auto.
Qed.

Lemma expression_fuel_mono n m : n <= m -> fuel_le (expression n) (expression m).
Proof. intros H. apply (expression_family_fuel_mono H). Qed.


Lemma primary_fuel_mono n m : n <= m -> fuel_le (primary n) (primary m).
Proof. intros H. apply (expression_family_fuel_mono H). Qed.

Lemma var_decl_fuel_mono n m : n <= m -> fuel_le (var_decl n) (var_decl m).
Proof.
  intros H. pose proof (expression_fuel_mono H). unfold var_decl. fuel_le_auto.
Qed.

Lemma assignment_fuel_mono n m : n <= m -> fuel_le (assignment n) (assignment m).
Proof.
  intros H. pose proof (expression_fuel_mono H). unfold assignment. fuel_le_auto.
Qed.

Lemma print_stmt_fuel_mono n m : n <= m -> fuel_le (print_stmt n) (print_stmt m).
Proof.
  intros H. pose proof (expression_fuel_mono H). unfold print_stmt. fuel_le_auto.
Qed.

Lemma statement_family_fuel_mono n :
  forall m, n <= m ->
    fuel_le (statement n) (statement m) /\
    fuel_le (block n) (block m) /\
    fuel_le (if_stmt n) (if_stmt m) /\
    fuel_le (while_loop n) (while_loop m).
Proof.
  induction n as [|n IH]; intros m Hnm.
  - repeat split; intros p H; now elim H.
  - destruct m as [|m]; [lia|].
    assert (Hle : n <= m) by lia.
    destruct (IH m Hle) as (Hst & Hbl & Hif & Hwh).
    pose proof (expression_fuel_mono Hle).
    pose proof (var_decl_fuel_mono Hle).
    pose proof (assignment_fuel_mono Hle).
    pose proof (print_stmt_fuel_mono Hle).
    repeat split; cbn [statement block if_stmt while_loop]; fuel_le_auto.
Qed.

Lemma statement_fuel_mono n m : n <= m -> fuel_le (statement n) (statement m).
Proof. intros H. apply (statement_family_fuel_mono H). Qed.


Lemma block_fuel_mono n m : n <= m -> fuel_le (block n) (block m).
Proof. intros H. apply (statement_family_fuel_mono H). Qed.

Lemma program_fuel_mono n m : n <= m -> fuel_le (program n) (program m).
Proof.
  intros H. pose proof (statement_fuel_mono H). unfold program. fuel_le_auto.
Qed.

(** A result computed with fuel [n] stands for every larger fuel. *)
Lemma fuel_enough {A} (f : nat -> M A) (n : nat) (p : parser) (r : result A) :
  (forall m, n <= m -> fuel_le (f n) (f m)) ->
  f n p = r -> r <> OutOfFuel ->
  forall m, n <= m -> f m p = r.
Proof.
  intros Hmono Hr Hne m Hnm. subst r. now apply Hmono.
Qed.

(** ** Cursor operations *)

Lemma cursor_ok_init ts : cursor_ok (init ts).
Proof. destruct ts; reflexivity. Qed.

Lemma cursor_ok_advance p : cursor_ok (snd (advance_to_next_token p)).
Proof. reflexivity. Qed.

Lemma cursor_ok_consume_token ty v p :
  cursor_ok p -> cursor_ok (snd (consume_token ty v p)).
Proof.
  intros H. unfold consume_token.
  destruct (token_matches (current_token p) ty v); [reflexivity | exact H].
Qed.

Lemma consume_token_tokens ty v p :
  tokens (snd (consume_token ty v p)) = tokens p.
Proof.
  unfold consume_token.
  destruct (token_matches (current_token p) ty v); reflexivity.
Qed.

Lemma cursor_ok_restore p p0 :
  cursor_ok p0 -> tokens p = tokens p0 ->
  cursor_ok (restore p (pos p0) (current_token p0)).
Proof.
  intros H Ht. unfold cursor_ok, restore in *. simpl. now rewrite Ht.
Qed.

(** ** Combinators *)

Lemma cursor_restore p start_pos start_token :
  cursor (restore p start_pos start_token) = (start_pos, start_token).
Proof. reflexivity. Qed.

Lemma all_fail_cursor start_pos start_token ss p q :
  all_fail start_pos start_token ss p q ->
  cursor p = (start_pos, start_token) -> cursor q = (start_pos, start_token).
Proof. induction 1; intros Hc; [exact Hc | apply IHall_fail; reflexivity]. Qed.

Lemma all_succeed_length ss p rs q :
  all_succeed ss p rs q -> List.length rs = List.length ss.
Proof. induction 1; simpl; congruence. Qed.

Lemma ordered_choice_loop_by_spec ss :
  forall p,
    ordered_choice_loop (pos p) (current_token p) ss p
    = ordered_choice_by_spec ss p.
Proof.
  induction ss as [|s rest IH]; intros p; simpl; [reflexivity|].
  destruct (s p) as [r p'|e p'|? ?|]; try reflexivity.
  apply (IH (restore p' (pos p) (current_token p))).
Qed.

Lemma ordered_choice_loop_no_raise start_pos start_token ss :
  forall p e p', ordered_choice_loop start_pos start_token ss p <> Raise e p'.
Proof.
  induction ss as [|s rest IH]; intros p e q; simpl; [discriminate|].
  destruct (s p) as [r p'|e' p'|? ?|]; try discriminate. apply IH.
Qed.

Lemma ordered_choice_loop_first start_pos start_token pre :
  forall p q s post r p',
    all_fail start_pos start_token pre p q ->
    s q = Ok r p' ->
    ordered_choice_loop start_pos start_token (pre ++ s :: post) p = Ok [r] p'.
Proof.
  induction pre as [|s0 pre IH]; intros p q s post r p' Hf Hs;
    inversion Hf; subst; simpl.
  - now rewrite Hs.
  - match goal with H : s0 p = _ |- _ => rewrite H end. eapply IH; eauto.
Qed.

Lemma ordered_choice_loop_none start_pos start_token ss :
  forall p q,
    all_fail start_pos start_token ss p q ->
    ordered_choice_loop start_pos start_token ss p = Ok [] q.
Proof.
  induction ss as [|s rest IH]; intros p q Hf; inversion Hf; subst; simpl.
  - reflexivity.
  - match goal with H : s p = _ |- _ => rewrite H end. now apply IH.
Qed.

Lemma ordered_choice_loop_shape start_pos start_token ss :
  forall p rs p',
    ordered_choice_loop start_pos start_token ss p = Ok rs p' ->
    (rs = [] /\ all_fail start_pos start_token ss p p') \/
    (exists pre s post q r,
        ss = pre ++ s :: post /\ all_fail start_pos start_token pre p q /\
        s q = Ok r p' /\ rs = [r]).
Proof.
  induction ss as [|s rest IH]; intros p rs p' H; simpl in H.
  - inversion H; subst. left. split; [reflexivity | constructor].
  - destruct (s p) as [r p1|e p1|? ?|] eqn:E; try discriminate.
    + inversion H; subst. right.
      exists [], s, rest, p, r. repeat split; [constructor | exact E].
    + destruct (IH _ _ _ H) as [[-> Hf] | (pre & s' & post & q & r & -> & Hf & Hs & ->)].
      * left. split; [reflexivity | econstructor; eauto].
      * right. exists (s :: pre), s', post, q, r.
        repeat split; [econstructor; eauto | exact Hs].
Qed.

Lemma parse_ordered_choice_unfold ss p :
  ss <> [] ->
  parse_ordered_choice ss p
  = ordered_choice_loop (pos p) (current_token p) ss p.
Proof. destruct ss; [congruence | reflexivity]. Qed.

Lemma sequence_loop_raise start_pos start_token ss :
  forall results p e p',
    sequence_loop start_pos start_token ss results p = Raise e p' ->
    cursor p' = (start_pos, start_token) /\
    exists se,
      e = SyntaxError
            "Syntax error. One symbol parsing failed within sequence."
            (Some se).
Proof.
  induction ss as [|s rest IH]; intros results p e q H; simpl in H.
  - discriminate.
  - unfold bind, try_except in H.
    destruct (s p) as [r p1|se p1|? ?|] eqn:E; try discriminate.
    + eapply IH; eauto.
    + inversion H; subst. split; [reflexivity | eauto].
Qed.

Lemma sequence_loop_ok start_pos start_token ss :
  forall results p rs q,
    sequence_loop start_pos start_token ss results p = Ok rs q <->
    exists rs', rs = results ++ rs' /\ all_succeed ss p rs' q.
Proof.
  induction ss as [|s rest IH]; intros results p rs q; simpl.
  - split.
    + intros H. inversion H; subst. exists []. rewrite app_nil_r.
      split; [reflexivity | constructor].
    + intros (rs' & -> & Hs). inversion Hs; subst. now rewrite app_nil_r.
  - unfold bind, try_except. split.
    + intros H. destruct (s p) as [r p1|se p1|? ?|] eqn:E; try discriminate.
      apply IH in H. destruct H as (rs' & -> & Hs).
      exists (r :: rs'). rewrite <- app_assoc. split; [reflexivity|].
      econstructor; eauto.
    + intros (rs' & -> & Hs). inversion Hs; subst.
      match goal with H : s p = _ |- _ => rewrite H end.
      apply IH. eexists. rewrite <- app_assoc. split; [reflexivity | eauto].
Qed.

Lemma sequence_loop_fail start_pos start_token pre :
  forall results p rs p1 s post se p2,
    all_succeed pre p rs p1 ->
    s p1 = Raise se p2 ->
    sequence_loop start_pos start_token (pre ++ s :: post) results p
    = Raise (SyntaxError
               "Syntax error. One symbol parsing failed within sequence."
               (Some se))
            (restore p2 start_pos start_token).
Proof.
  induction pre as [|s0 pre IH]; intros results p rs p1 s post se p2 Hs Hr;
    inversion Hs; subst; simpl; unfold bind, try_except.
  - now rewrite Hr.
  - match goal with H : s0 p = _ |- _ => rewrite H end. eapply IH; eauto.
Qed.

Lemma parse_sequence_unfold ss p :
  ss <> [] ->
  parse_sequence ss p = sequence_loop (pos p) (current_token p) ss [] p.
Proof. destruct ss; [congruence | reflexivity]. Qed.

Lemma zero_or_more_loop_no_raise fuel (s : symbol) :
  forall results p e p', zero_or_more_loop fuel s results p <> Raise e p'.
Proof.
  induction fuel as [|fuel IH]; intros results p e q; simpl; [discriminate|].
  destruct (s p) as [r p'|e' p'|? ?|]; try discriminate.
  destruct (pos p =? pos p')%nat; [discriminate | apply IH].
Qed.

Lemma zero_or_more_loop_no_uncaught fuel (s : symbol) :
  (forall p e q, s p <> Uncaught e q) ->
  forall results p e p', zero_or_more_loop fuel s results p <> Uncaught e p'.
Proof.
  intros Hs. induction fuel as [|fuel IH]; intros results p e q; simpl;
    [discriminate|].
  destruct (s p) as [r p'|e' p'|e' p'|] eqn:E; try discriminate.
  - destruct (pos p =? pos p')%nat; [discriminate | apply IH].
  - now elim (Hs p e' p').
Qed.

(** The loop ends within the budget when every successful iteration that
    moves the cursor lowers a measure of the state. *)
Lemma zero_or_more_loop_terminates (s : symbol) (mu : parser -> nat) :
  (forall p, s p <> OutOfFuel) ->
  (forall p r p', s p = Ok r p' -> pos p' <> pos p -> mu p' < mu p) ->
  forall fuel results p,
    mu p < fuel -> zero_or_more_loop fuel s results p <> OutOfFuel.
Proof.
  intros Hs Hmu. induction fuel as [|fuel IH]; intros results p Hlt; [lia|].
  simpl. destruct (s p) as [r p'|e p'|? ?|] eqn:E.
  - destruct (pos p =? pos p')%nat eqn:Ep; [discriminate|].
    apply IH. apply Nat.eqb_neq in Ep.
    assert (mu p' < mu p) by (eapply Hmu; eauto). lia.
  - discriminate.
  - discriminate.
  - now apply Hs in E.
Qed.

Lemma zero_or_more_loop_sound fuel (s : symbol) :
  forall results p rs q,
    zero_or_more_loop fuel s results p = Ok rs q ->
    exists rs', rs = results ++ rs' /\ repeats s p rs' q.
Proof.
  induction fuel as [|fuel IH]; intros results p rs q H; simpl in H;
    [discriminate|].
  destruct (s p) as [r p'|e p'|? ?|] eqn:E; try discriminate.
  - destruct (pos p =? pos p')%nat eqn:Ep.
    + inversion H; subst. apply Nat.eqb_eq in Ep.
      exists [r]. split; [reflexivity | apply repeats_stuck; [exact E | congruence]].
    + apply Nat.eqb_neq in Ep. apply IH in H. destruct H as (rs' & -> & Hr).
      exists (r :: rs'). rewrite <- app_assoc. split; [reflexivity|].
      eapply repeats_more; eauto.
  - inversion H; subst. exists []. rewrite app_nil_r.
    split; [reflexivity | eapply repeats_fail; exact E].
Qed.

Lemma zero_or_more_loop_complete (s : symbol) p rs q :
  repeats s p rs q ->
  forall fuel results,
    List.length rs < fuel ->
    zero_or_more_loop fuel s results p = Ok (results ++ rs) q.
Proof.
  induction 1 as [p e p' E|p r p' E Hp|p r p' rs q E Hp _ IH];
    intros fuel results Hlt; (destruct fuel as [|fuel]; [simpl in Hlt; lia|]);
    simpl; rewrite E.
  - now rewrite app_nil_r.
  - rewrite Hp, Nat.eqb_refl. reflexivity.
  - assert (Hne : (pos p =? pos p')%nat = false) by (apply Nat.eqb_neq; congruence).
    rewrite Hne, IH by (simpl in Hlt; lia).
    now rewrite <- app_assoc.
Qed.

(** ** Grammar rules *)






(** How the expression rules return: one lemma per way of returning. *)














(** Case analysis on every call a hypothesis [H : rule p = result] runs
    through. *)
Ltac unfold_monad H :=
  unfold rollback_and_raise in H;
  unfold bind, try_except, rollback, ret, raise,
    out_of_fuel, get_pos, get_current_token, consume in H.

Ltac break_calls H :=
  repeat match type of H with
         | context [match ?x with _ => _ end] =>
             destruct x eqn:?; try discriminate H
         | context [let (_, _) := ?x in _] =>
             destruct x eqn:?; try discriminate H
         end.

Lemma var_decl_returns_node fuel p v q :
  var_decl fuel p = Ok v q ->
  exists name init,
    v = node "var_decl" [("name", name); ("init", FVal init)].
Proof.
  intros H. unfold var_decl in H. unfold_monad H. break_calls H.
  all: inversion H; subst; eauto.
Qed.

Lemma if_stmt_returns_node fuel p v q :
  if_stmt fuel p = Ok v q ->
  exists cond if_body else_body,
    v = node "if_stmt" [("cond", FVal cond); ("if-body", FVal if_body);
                        ("else-body", FVal else_body)].
Proof.
  intros H. destruct fuel as [|fuel]; [discriminate|].
  cbn [if_stmt] in H. unfold_monad H. break_calls H.
  all: inversion H; subst; eauto.
Qed.

Lemma ordered_choice_loop_truthy start_pos start_token ss :
  Forall returns_truthy ss ->
  forall p rs q,
    ordered_choice_loop start_pos start_token ss p = Ok rs q ->
    Forall (fun v => truthy v = true) rs.
Proof.
  induction 1 as [|s rest Hs _ IH]; intros p rs q H; simpl in H.
  - inversion H. constructor.
  - destruct (s p) as [r p'|e p'|? ?|] eqn:E; try discriminate.
    + inversion H; subst. constructor; [eapply Hs; eauto | constructor].
    + eapply IH; eauto.
Qed.

Lemma var_decl_returns_truthy fuel : returns_truthy (var_decl fuel).
Proof.
  intros p v q H. destruct (var_decl_returns_node _ _ H) as (? & ? & ->).
  reflexivity.
Qed.

Lemma assignment_returns_truthy fuel : returns_truthy (assignment fuel).
Proof.
  intros p v q H. unfold assignment in H. unfold_monad H. break_calls H.
  all: inversion H; subst; reflexivity.
Qed.

Lemma print_stmt_returns_truthy fuel : returns_truthy (print_stmt fuel).
Proof.
  intros p v q H. unfold print_stmt in H. unfold_monad H. break_calls H.
  all: inversion H; subst; reflexivity.
Qed.

Lemma if_stmt_returns_truthy fuel : returns_truthy (if_stmt fuel).
Proof.
  intros p v q H. destruct (if_stmt_returns_node _ _ H) as (? & ? & ? & ->).
  reflexivity.
Qed.

Lemma while_loop_returns_truthy fuel : returns_truthy (while_loop fuel).
Proof.
  intros p v q H. destruct fuel as [|fuel]; [discriminate|].
  cbn [while_loop] in H. unfold_monad H. break_calls H.
  all: inversion H; subst; reflexivity.
Qed.

Lemma block_returns_truthy fuel : returns_truthy (block fuel).
Proof.
  intros p v q H. destruct fuel as [|fuel]; [discriminate|].
  cbn [block] in H. unfold_monad H. break_calls H.
  all: inversion H; subst; reflexivity.
Qed.

Lemma statement_returns_truthy fuel : returns_truthy (statement fuel).
Proof.
  intros p v q H. destruct fuel as [|fuel]; [discriminate|].
  cbn [statement] in H. unfold bind in H.
  destruct (parse_ordered_choice _ p) as [rs p'|e p'|? ?|] eqn:E;
    try discriminate.
  rewrite parse_ordered_choice_unfold in E by discriminate.
  apply ordered_choice_loop_truthy in E.
  - destruct rs as [|first rest]; [discriminate|].
    inversion H; subst. now inversion E.
  - repeat constructor;
      auto using var_decl_returns_truthy, assignment_returns_truthy,
        if_stmt_returns_truthy, while_loop_returns_truthy,
        print_stmt_returns_truthy, block_returns_truthy.
Qed.

Lemma parse_one_or_more_nil fuel (s : symbol) p q :
  parse_one_or_more fuel s p = Ok [] q ->
  exists first, s p = Ok first q /\ truthy first = false.
Proof.
  unfold parse_one_or_more, bind, try_except, get_pos, get_current_token.
  intros H. destruct (s p) as [first p1|e p1|? ?|] eqn:E; try discriminate.
  destruct (truthy first) eqn:Ht; simpl in H.
  - destruct (parse_zero_or_more fuel s p1) as [rest p2|e p2|? ?|];
      try discriminate.
    destruct rest; inversion H; subst.
    + destruct first as [items|[|x l]]; simpl in *; try discriminate.
    + destruct first as [items|[|x l]]; simpl in *; discriminate.
  - inversion H; subst. eauto.
Qed.

Lemma parse_one_or_more_raise fuel (s : symbol) p e q :
  parse_one_or_more fuel s p = Raise e q ->
  message e = "Syntax error. 1st symbol parsing failed in 'one_or_more'.".
Proof.
  unfold parse_one_or_more, bind, try_except, get_pos, get_current_token.
  intros H. destruct (s p) as [first p1|se p1|? ?|] eqn:E; try discriminate.
  - destruct (truthy first); simpl in H; [|discriminate].
    pose proof (@zero_or_more_loop_no_raise fuel s [] p1) as Hn.
    unfold parse_zero_or_more in H.
    destruct (zero_or_more_loop fuel s [] p1) as [rest p2|e2 p2|? ?|];
      try discriminate.
    + destruct rest; discriminate.
    + now elim (Hn e2 p2).
  - inversion H. reflexivity.
Qed.

(** The failure of [program] is always the one [parse_one_or_more] raises:
    the [raise SyntaxError("Empty program")] of the source is never
    reached. *)
Lemma program_raise_message fuel p e q :
  program fuel p = Raise e q ->
  message e = "Syntax error. 1st symbol parsing failed in 'one_or_more'.".
Proof.
  unfold program, bind. intros H.
  destruct (parse_one_or_more fuel (statement fuel) p) as [rs p1|e1 p1|? ?|] eqn:E;
    try discriminate.
  - destruct rs; [|discriminate].
    apply parse_one_or_more_nil in E. destruct E as (first & Hs & Hf).
    apply statement_returns_truthy in Hs. congruence.
  - inversion H; subst. eapply parse_one_or_more_raise; eauto.
Qed.

(** ** The cursor invariant along whole parses *)

Lemma consistent_snapshot ts p :
  consistent ts p -> snapshot_ok ts (pos p) (current_token p).
Proof. intros [<- H]. exact H. Qed.

Lemma preserves_ret ts {A} (a : A) : preserves ts (ret a).
Proof. intros p H. exact H. Qed.

Lemma preserves_raise ts {A} e : preserves ts (@raise A e).
Proof. intros p H. exact H. Qed.

Lemma preserves_out_of_fuel ts {A} : preserves ts (@out_of_fuel A).
Proof. intros p H. exact I. Qed.

Lemma preserves_float ts x : preserves ts (float x).
Proof.
  intros p H. unfold float, uncaught, ret.
  destruct x as [s|]; [destruct (float_literal s)|]; exact H.
Qed.

Lemma preserves_bind ts {A B} (m : M A) (k : A -> M B) :
  preserves ts m -> (forall a, preserves ts (k a)) -> preserves ts (bind m k).
Proof.
  intros Hm Hk p H. unfold bind. specialize (Hm p H).
  destruct (m p) as [a q|e q|? ?|]; [now apply Hk | exact Hm | exact Hm | exact I].
Qed.

Lemma preserves_try_except ts {A} (m : M A) (h : exn -> M A) :
  preserves ts m -> (forall e, preserves ts (h e)) ->
  preserves ts (try_except m h).
Proof.
  intros Hm Hh p H. unfold try_except. specialize (Hm p H).
  destruct (m p) as [a q|e q|? ?|]; [exact Hm | now apply Hh | exact Hm | exact I].
Qed.

Lemma preserves_snapshot ts {A} (k : nat -> Token -> M A) :
  (forall sp st, snapshot_ok ts sp st -> preserves ts (k sp st)) ->
  preserves ts (bind get_pos (fun sp => bind get_current_token (fun st => k sp st))).
Proof.
  intros Hk p H. unfold bind, get_pos, get_current_token.
  apply (Hk _ _ (consistent_snapshot H) p H).
Qed.

Lemma preserves_rollback ts sp st :
  snapshot_ok ts sp st -> preserves ts (rollback sp st).
Proof.
  intros Hs p [Ht _]. unfold rollback, consistent, cursor_ok, restore. simpl.
  rewrite Ht. split; [reflexivity | exact Hs].
Qed.

Lemma preserves_rollback_and_raise ts {A} sp st msg se :
  snapshot_ok ts sp st -> preserves ts (@rollback_and_raise A sp st msg se).
Proof.
  intros Hs. unfold rollback_and_raise.
  apply preserves_bind; [now apply preserves_rollback|].
  intros _. apply preserves_raise.
Qed.

Lemma preserves_consume ts ty v : preserves ts (consume ty v).
Proof.
  intros p [Ht Hc]. unfold consume.
  pose proof (cursor_ok_consume_token ty v Hc) as Hc'.
  pose proof (consume_token_tokens ty v p) as Ht'.
  destruct (consume_token ty v p) as [t q]. simpl in *.
  split; congruence.
Qed.

Lemma preserves_consume_token_or_fail ts ty v msg :
  preserves ts (consume_token_or_fail ty v msg).
Proof.
  intros p [Ht Hc]. unfold consume_token_or_fail.
  pose proof (cursor_ok_consume_token ty v Hc) as Hc'.
  pose proof (consume_token_tokens ty v p) as Ht'.
  destruct (consume_token ty v p) as [[t|] q]; simpl in *; split; congruence.
Qed.

Lemma preserves_sequence_loop ts sp st ss :
  snapshot_ok ts sp st -> Forall (preserves ts) ss ->
  forall results, preserves ts (sequence_loop sp st ss results).
Proof.
  intros Hs. induction 1 as [|s rest H _ IH]; intros results; simpl.
  - apply preserves_ret.
  - apply preserves_bind; [|intros; apply IH].
    apply preserves_try_except; [exact H|].
    intros e. now apply preserves_rollback_and_raise.
Qed.

Lemma preserves_parse_sequence ts ss :
  Forall (preserves ts) ss -> preserves ts (parse_sequence ss).
Proof.
  intros H. destruct ss as [|s rest]; [apply preserves_raise|].
  unfold parse_sequence. apply preserves_snapshot.
  intros sp st Hs. now apply preserves_sequence_loop.
Qed.

Lemma preserves_ordered_choice_loop ts sp st ss :
  snapshot_ok ts sp st -> Forall (preserves ts) ss ->
  preserves ts (ordered_choice_loop sp st ss).
Proof.
  intros Hs. induction 1 as [|s rest H _ IH]; simpl.
  - apply preserves_ret.
  - intros p Hp. specialize (H p Hp).
    destruct (s p) as [r q|e q|? ?|]; [exact H | | exact H | exact I].
    apply IH. exact (preserves_rollback Hs H).
Qed.

Lemma preserves_parse_ordered_choice ts ss :
  Forall (preserves ts) ss -> preserves ts (parse_ordered_choice ss).
Proof.
  intros H. destruct ss as [|s rest]; [apply preserves_raise|].
  unfold parse_ordered_choice. apply preserves_snapshot.
  intros sp st Hs. now apply preserves_ordered_choice_loop.
Qed.

Lemma preserves_zero_or_more_loop ts fuel (s : symbol) :
  preserves ts s ->
  forall results, preserves ts (zero_or_more_loop fuel s results).
Proof.
  intros Hs. induction fuel as [|fuel IH]; intros results p Hp; simpl;
    [exact I|].
  pose proof (Hs p Hp) as H.
  destruct (s p) as [r q|e q|? ?|]; [| | exact H | exact I].
  - destruct (pos p =? pos q)%nat; [exact H | now apply IH].
  - exact (preserves_rollback (consistent_snapshot Hp) H).
Qed.

Lemma preserves_parse_zero_or_more ts fuel (s : symbol) :
  preserves ts s -> preserves ts (parse_zero_or_more fuel s).
Proof. intros. now apply preserves_zero_or_more_loop. Qed.

Lemma preserves_parse_one_or_more ts fuel (s : symbol) :
  preserves ts s -> preserves ts (parse_one_or_more fuel s).
Proof.
  intros Hs. unfold parse_one_or_more. apply preserves_snapshot.
  intros sp st Hsnap. apply preserves_bind.
  - apply preserves_try_except; [exact Hs|].
    intros e. now apply preserves_rollback_and_raise.
  - intros first. destruct (negb (truthy first)); [apply preserves_ret|].
    apply preserves_bind; [now apply preserves_parse_zero_or_more|].
    intros [|x l]; apply preserves_ret.
Qed.

Lemma preserves_parse_optional ts (s : symbol) :
  preserves ts s -> preserves ts (parse_optional s).
Proof.
  intros Hs. unfold parse_optional. apply preserves_snapshot.
  intros sp st Hsnap. apply preserves_try_except; [exact Hs|].
  intros e. apply preserves_bind; [now apply preserves_rollback|].
  intros _. apply preserves_ret.
Qed.

Lemma preserves_match_operator ts ops : preserves ts (match_operator ops).
Proof.
  induction ops as [|[ty op] rest IH]; simpl; [apply preserves_ret|].
  apply preserves_bind; [apply preserves_consume|].
  intros [t|]; [apply preserves_ret | exact IH].
Qed.

Lemma preserves_operator_loop ts fuel ops (operand : symbol) sp st :
  snapshot_ok ts sp st -> preserves ts operand ->
  forall left, preserves ts (operator_loop fuel ops operand sp st left).
Proof.
  intros Hsnap Ho. induction fuel as [|fuel IH]; intros left; simpl;
    [apply preserves_out_of_fuel|].
  apply preserves_bind; [apply preserves_match_operator|].
  intros [op|]; [|apply preserves_ret].
  apply preserves_bind; [|intros; apply IH].
  apply preserves_try_except; [exact Ho|].
  intros e. now apply preserves_rollback_and_raise.
Qed.

Lemma preserves_binary_level ts fuel ops (operand : symbol) before_msg :
  preserves ts operand ->
  preserves ts (binary_level fuel ops operand before_msg).
Proof.
  intros Ho. unfold binary_level. apply preserves_snapshot.
  intros sp st Hsnap. apply preserves_bind.
  - apply preserves_try_except; [exact Ho|].
    intros e. now apply preserves_rollback_and_raise.
  - intros left. now apply preserves_operator_loop.
Qed.

Ltac preserves_step :=
  first
    [ assumption
    | apply preserves_ret
    | apply preserves_raise
    | apply preserves_out_of_fuel
    | apply preserves_float
    | apply preserves_consume
    | apply preserves_consume_token_or_fail
    | apply preserves_rollback_and_raise; assumption
    | apply preserves_binary_level
    | apply preserves_parse_zero_or_more
    | apply preserves_parse_one_or_more
    | apply preserves_parse_ordered_choice
    | apply Forall_cons
    | apply Forall_nil
    | apply preserves_snapshot; intros ? ? ?
    | apply preserves_try_except; [|intros ?]
    | apply preserves_bind; [|intros ?]
    | match goal with
      | |- preserves _ (match ?x with _ => _ end) => destruct x
      end ].

Ltac preserves_auto := repeat preserves_step.

Lemma preserves_expression_family ts fuel :
  preserves ts (expression fuel) /\
  preserves ts (logical_or fuel) /\
  preserves ts (logical_and fuel) /\
  preserves ts (equality fuel) /\
  preserves ts (relational fuel) /\
  preserves ts (additive fuel) /\
  preserves ts (multiplicative fuel) /\
  preserves ts (primary fuel).
Proof.
  induction fuel as [|fuel IH].
  - repeat split; apply preserves_out_of_fuel.
  - destruct IH as (He & Hor & Hand & Heq & Hrel & Hadd & Hmul & Hpri).
    repeat split; simpl; preserves_auto.
Qed.

Lemma preserves_expression ts fuel : preserves ts (expression fuel).
Proof. apply preserves_expression_family. Qed.

Lemma preserves_var_decl ts fuel : preserves ts (var_decl fuel).
Proof.
  pose proof (@preserves_expression ts fuel). unfold var_decl. preserves_auto.
Qed.

Lemma preserves_assignment ts fuel : preserves ts (assignment fuel).
Proof.
  pose proof (@preserves_expression ts fuel). unfold assignment. preserves_auto.
Qed.

Lemma preserves_print_stmt ts fuel : preserves ts (print_stmt fuel).
Proof.
  pose proof (@preserves_expression ts fuel). unfold print_stmt. preserves_auto.
Qed.

Lemma preserves_statement_family ts fuel :
  preserves ts (statement fuel) /\
  preserves ts (block fuel) /\
  preserves ts (if_stmt fuel) /\
  preserves ts (while_loop fuel).
Proof.
  induction fuel as [|fuel IH].
  - repeat split; apply preserves_out_of_fuel.
  - destruct IH as (Hst & Hbl & Hif & Hwh).
    pose proof (@preserves_expression ts fuel).
    pose proof (@preserves_var_decl ts fuel).
    pose proof (@preserves_assignment ts fuel).
    pose proof (@preserves_print_stmt ts fuel).
    repeat split; cbn [statement block if_stmt while_loop]; preserves_auto.
Qed.

Lemma preserves_program ts fuel : preserves ts (program fuel).
Proof.
  pose proof (proj1 (@preserves_statement_family ts fuel)).
  unfold program. preserves_auto.
Qed.

(** Whatever [program] does on a freshly built parser, it leaves the tokens
    untouched and the cursor invariant in force. *)
Lemma program_keeps_cursor_invariant ts fuel :
  match program fuel (init ts) with
  | Ok _ q => tokens q = ts /\ cursor_ok q
  | Raise _ q => tokens q = ts /\ cursor_ok q
  | Uncaught _ q => tokens q = ts /\ cursor_ok q
  | OutOfFuel => True
  end.
Proof.
  apply (@preserves_program ts fuel). split; [reflexivity | apply cursor_ok_init].
Qed.

(** ** Which failures of a statement rule are rolled back *)

Lemma consume_token_or_fail_raise ty v msg p e q :
  consume_token_or_fail ty v msg p = Raise e q ->
  q = p /\ exists m, e = SyntaxError m None.
Proof.
  unfold consume_token_or_fail, consume_token.
  destruct (token_matches (current_token p) ty v); [discriminate|].
  intros H. inversion H; subst. split; [reflexivity | eauto].
Qed.

Ltac break_hyps :=
  repeat match goal with
         | H : context [match ?x with _ => _ end] |- _ =>
             destruct x eqn:?; cbv beta iota in *; try congruence
         end.

Ltac wrapped_failure H :=
  unfold_monad H; break_hyps;
  repeat match goal with
         | E : consume_token_or_fail _ _ _ _ = Raise _ _ |- _ =>
             apply consume_token_or_fail_raise in E;
             destruct E as (_ & ? & ?)
         | E : Raise _ _ = Raise _ _ |- _ => inversion E; clear E; subst
         end;
  first [reflexivity | congruence].

(** A failure that wraps the failure of a nested rule escapes with the
    cursor restored to the entry of the statement rule. *)
Lemma wrapped_failure_rolls_back fuel p msg se q :
  var_decl fuel p = Raise (SyntaxError msg (Some se)) q \/
  assignment fuel p = Raise (SyntaxError msg (Some se)) q \/
  print_stmt fuel p = Raise (SyntaxError msg (Some se)) q \/
  if_stmt fuel p = Raise (SyntaxError msg (Some se)) q \/
  while_loop fuel p = Raise (SyntaxError msg (Some se)) q ->
  cursor q = cursor p.
Proof.
  intros [H|[H|[H|[H|H]]]].
  - unfold var_decl in H. wrapped_failure H.
  - unfold assignment in H. wrapped_failure H.
  - unfold print_stmt in H. wrapped_failure H.
  - destruct fuel as [|fuel]; [discriminate|].
    cbn [if_stmt] in H. wrapped_failure H.
  - destruct fuel as [|fuel]; [discriminate|].
    cbn [while_loop] in H. wrapped_failure H.
Qed.

(** * Main results *)

(** C9.  The cursor invariant holds after construction (for the empty token
    list the current token is the end-of-stream sentinel), after every
    [advance_to_next_token], after every [consume_token] and
    [consume_token_or_fail] (returning or raising), and after every restore
    of a snapshot taken in a state where it held; so it holds in the state
    [program] leaves behind, returning or raising, on any token list. *)
Theorem cursor_invariant :
  (forall ts, cursor_ok (init ts)) /\
  current_token (init []) = eof_token /\
  (forall p, cursor_ok (snd (advance_to_next_token p)) /\
             fst (advance_to_next_token p)
             = current_token (snd (advance_to_next_token p)) /\
             pos (snd (advance_to_next_token p)) = pos p + 1) /\
  (forall ty v p, cursor_ok p -> cursor_ok (snd (consume_token ty v p))) /\
  (forall ty v msg p,
      cursor_ok p ->
      match consume_token_or_fail ty v msg p with
      | Ok _ p' => cursor_ok p'
      | Raise _ p' => cursor_ok p'
      | Uncaught _ _ => False
      | OutOfFuel => False
      end) /\
  (forall p p0,
      cursor_ok p0 -> tokens p = tokens p0 ->
      cursor_ok (restore p (pos p0) (current_token p0))) /\
  (forall ts fuel,
      match program fuel (init ts) with
      | Ok _ q => tokens q = ts /\ cursor_ok q
      | Raise _ q => tokens q = ts /\ cursor_ok q
      | Uncaught _ q => tokens q = ts /\ cursor_ok q
      | OutOfFuel => True
      end).
Proof.
  split; [exact cursor_ok_init|].
  split; [reflexivity|].
  split; [intros p; repeat split|].
  split; [exact cursor_ok_consume_token|].
  split; [|split; [exact cursor_ok_restore | exact program_keeps_cursor_invariant]].
  intros ty v msg p H. unfold consume_token_or_fail.
  pose proof (cursor_ok_consume_token ty v H) as Hc.
  destruct (consume_token ty v p) as [[t|] p']; exact Hc.
Qed.

Lemma cursor_invariant_witness :
  cursor_ok (snd (consume_token VAR (Some "var")
                    (init [tok VAR "var"; tok IDENTIFIER "x"]))) /\
  cursor_ok (restore (snd (consume_token VAR (Some "var")
                             (init [tok VAR "var"; tok IDENTIFIER "x"])))
               0 (tok VAR "var")).
Proof.
  destruct cursor_invariant as (Hinit & _ & _ & Hcons & _ & Hrest & _).
  split.
  - apply Hcons. apply Hinit.
  - apply (Hrest _ (init [tok VAR "var"; tok IDENTIFIER "x"])).
    + apply Hinit.
    + reflexivity.
Defined.

(** C3, as stated, fails on the empty list of symbols: the guard at the top
    of [parse_ordered_choice] raises. *)
Lemma parse_ordered_choice_empty_raises :
  parse_ordered_choice [] (init [eof_token])
  = Raise (SyntaxError "Syntax error. Empty ordered choice." None)
          (init [eof_token]).
Proof. reflexivity. Qed.

(** C3 (amended).  For every non-empty list of symbols and every state,
    [parse_ordered_choice] never raises; it agrees with the choice that
    snapshots the cursor before each attempt; when the symbols before [s]
    all fail (each attempt starting from the entry cursor) and [s] succeeds,
    the result is the singleton of [s]'s result, whatever symbols follow;
    when all fail the result is the empty list with the cursor at its entry
    value; and a returned list is empty or a singleton. *)
Theorem parse_ordered_choice_correct (symbols : list symbol) (p : parser) :
  symbols <> [] ->
  (forall e p', parse_ordered_choice symbols p <> Raise e p') /\
  parse_ordered_choice symbols p = ordered_choice_by_spec symbols p /\
  (forall pre s post q r p',
      symbols = pre ++ s :: post ->
      all_fail (pos p) (current_token p) pre p q ->
      s q = Ok r p' ->
      cursor q = cursor p /\
      parse_ordered_choice symbols p = Ok [r] p') /\
  (forall q,
      all_fail (pos p) (current_token p) symbols p q ->
      cursor q = cursor p /\
      parse_ordered_choice symbols p = Ok [] q) /\
  (forall rs p',
      parse_ordered_choice symbols p = Ok rs p' ->
      (rs = [] /\ all_fail (pos p) (current_token p) symbols p p') \/
      (exists pre s post q r,
          symbols = pre ++ s :: post /\
          all_fail (pos p) (current_token p) pre p q /\
          s q = Ok r p' /\ rs = [r])).
Proof.
  intros Hne. rewrite (parse_ordered_choice_unfold _ Hne).
  split; [apply ordered_choice_loop_no_raise|].
  split; [apply ordered_choice_loop_by_spec|].
  split; [|split].
  - intros pre s post q r p' -> Hf Hs. split.
    + now apply (all_fail_cursor Hf).
    + eapply ordered_choice_loop_first; eauto.
  - intros q Hf. split.
    + now apply (all_fail_cursor Hf).
    + now apply ordered_choice_loop_none.
  - apply ordered_choice_loop_shape.
Qed.

Lemma parse_ordered_choice_correct_witness :
  parse_ordered_choice [var_decl 0; primary 1]
    (init [tok NUMBER "7"; eof_token])
  = Ok [node "number" [("value", FFloat (Some "7"))]]
       (mkParser [tok NUMBER "7"; eof_token] 1 eof_token).
Proof.
  destruct (@parse_ordered_choice_correct [var_decl 0; primary 1]
              (init [tok NUMBER "7"; eof_token]))
    as (_ & _ & Hfirst & _).
  - discriminate.
  - apply (Hfirst [var_decl 0] (primary 1) []
             (init [tok NUMBER "7"; eof_token])).
    + reflexivity.
    + eapply all_fail_cons; [vm_compute; reflexivity | apply all_fail_nil].
    + vm_compute. reflexivity.
Defined.

(** C4.  For a non-empty list of symbols, [parse_sequence] is
    all-or-nothing: a raised failure leaves position and current token at
    their entry values and wraps the cause; it is raised exactly when some
    symbol raises after its predecessors returned; a returned list holds the
    results of all the symbols in order (one per symbol), and is returned
    exactly when every symbol returns. *)
Theorem parse_sequence_all_or_nothing (symbols : list symbol) (p : parser) :
  symbols <> [] ->
  (forall e p',
      parse_sequence symbols p = Raise e p' ->
      pos p' = pos p /\ current_token p' = current_token p /\
      exists se,
        e = SyntaxError
              "Syntax error. One symbol parsing failed within sequence."
              (Some se)) /\
  (forall pre s post rs p1 se p2,
      symbols = pre ++ s :: post ->
      all_succeed pre p rs p1 ->
      s p1 = Raise se p2 ->
      parse_sequence symbols p
      = Raise (SyntaxError
                 "Syntax error. One symbol parsing failed within sequence."
                 (Some se))
              (restore p2 (pos p) (current_token p))) /\
  (forall rs q,
      parse_sequence symbols p = Ok rs q <-> all_succeed symbols p rs q) /\
  (forall rs q,
      parse_sequence symbols p = Ok rs q ->
      List.length rs = List.length symbols).
Proof.
  intros Hne. rewrite (parse_sequence_unfold _ Hne).
  assert (Hok : forall rs q,
             sequence_loop (pos p) (current_token p) symbols [] p = Ok rs q
             <-> all_succeed symbols p rs q).
  { intros rs q. rewrite sequence_loop_ok. simpl. split.
    - now intros (rs' & -> & H).
    - intros H. eauto. }
  split; [|split; [|split]].
  - intros e p' H. apply sequence_loop_raise in H.
    destruct H as (Hc & se & ->). inversion Hc.
    repeat split; eauto.
  - intros pre s post rs p1 se p2 -> Hs Hr.
    eapply sequence_loop_fail; eauto.
  - exact Hok.
  - intros rs q H. apply Hok in H. now apply all_succeed_length in H.
Qed.

Lemma parse_sequence_all_or_nothing_witness :
  parse_sequence [primary 1; primary 1]
    (init [tok IDENTIFIER "x"; tok SEMICOLON ";"; eof_token])
  = Raise (SyntaxError
             "Syntax error. One symbol parsing failed within sequence."
             (Some (SyntaxError "Expected primary expression" None)))
          (init [tok IDENTIFIER "x"; tok SEMICOLON ";"; eof_token]).
Proof.
  destruct (@parse_sequence_all_or_nothing [primary 1; primary 1]
              (init [tok IDENTIFIER "x"; tok SEMICOLON ";"; eof_token]))
    as (_ & Hfail & _).
  - discriminate.
  - apply (Hfail [primary 1] (primary 1) []
             [node "identifier" [("name", FStr "x")]]
             (mkParser [tok IDENTIFIER "x"; tok SEMICOLON ";"; eof_token]
                1 (tok SEMICOLON ";"))
             (SyntaxError "Expected primary expression" None)
             (mkParser [tok IDENTIFIER "x"; tok SEMICOLON ";"; eof_token]
                1 (tok SEMICOLON ";"))).
    + reflexivity.
    + eapply all_succeed_cons; [vm_compute; reflexivity | apply all_succeed_nil].
    + vm_compute. reflexivity.
Defined.

(** C6.  [parse_zero_or_more] never raises.  Each iteration saves the
    cursor and invokes the symbol: on a failure the saved cursor is restored
    and the results so far are returned; a success is appended, and the
    loop stops at once when it did not move the position, and goes on from
    the new state otherwise.  So a returned list is exactly the list of
    successes up to that point, and the loop does return it within the
    budget whenever moving successes lower a measure below the budget.
    (An exception of the symbol that is no [SyntaxError] is not caught: it
    ends the loop; a symbol that keeps to returning or raising a
    [SyntaxError] makes the loop return.) *)
Theorem parse_zero_or_more_correct (fuel : nat) (symbol : symbol) :
  (forall p e p', parse_zero_or_more fuel symbol p <> Raise e p') /\
  (forall results p se p',
      symbol p = Raise se p' ->
      zero_or_more_loop (S fuel) symbol results p
      = Ok results (restore p' (pos p) (current_token p))) /\
  (forall results p r p',
      symbol p = Ok r p' -> pos p' = pos p ->
      zero_or_more_loop (S fuel) symbol results p = Ok (results ++ [r]) p') /\
  (forall results p r p',
      symbol p = Ok r p' -> pos p' <> pos p ->
      zero_or_more_loop (S fuel) symbol results p
      = zero_or_more_loop fuel symbol (results ++ [r]) p') /\
  (forall p rs q,
      parse_zero_or_more fuel symbol p = Ok rs q -> repeats symbol p rs q) /\
  (forall p rs q,
      repeats symbol p rs q -> List.length rs < fuel ->
      parse_zero_or_more fuel symbol p = Ok rs q) /\
  (forall results p e p',
      symbol p = Uncaught e p' ->
      zero_or_more_loop (S fuel) symbol results p = Uncaught e p') /\
  (forall mu : parser -> nat,
      (forall p, symbol p <> OutOfFuel) ->
      (forall p r p', symbol p = Ok r p' -> pos p' <> pos p -> mu p' < mu p) ->
      forall p, mu p < fuel ->
        parse_zero_or_more fuel symbol p <> OutOfFuel /\
        ((forall p e q, symbol p <> Uncaught e q) ->
         exists rs q, parse_zero_or_more fuel symbol p = Ok rs q)).
Proof.
  unfold parse_zero_or_more.
  split; [apply zero_or_more_loop_no_raise|].
  split; [intros results p se p' E; simpl; now rewrite E|].
  split; [intros results p r p' E Hp; simpl;
          now rewrite E, Hp, Nat.eqb_refl|].
  split.
  { intros results p r p' E Hp. simpl. rewrite E.
    assert (Hne : (pos p =? pos p')%nat = false)
      by (apply Nat.eqb_neq; congruence).
    now rewrite Hne. }
  split.
  { intros p rs q H. apply zero_or_more_loop_sound in H.
    now destruct H as (rs' & -> & Hr). }
  split.
  { intros p rs q Hr Hlt.
    exact (zero_or_more_loop_complete Hr [] Hlt). }
  split; [intros results p e p' E; simpl; now rewrite E|].
  intros mu Hs Hmu p Hlt.
  pose proof (@zero_or_more_loop_terminates symbol mu Hs Hmu fuel [] p Hlt) as Hn.
  split; [exact Hn|]. intros Hu.
  pose proof (@zero_or_more_loop_no_raise fuel symbol [] p) as Hr.
  pose proof (@zero_or_more_loop_no_uncaught fuel symbol Hu [] p) as Hc.
  destruct (zero_or_more_loop fuel symbol [] p) as [rs q|e q|e q|]; eauto.
  - now elim (Hr e q).
  - now elim (Hc e q).
  - now elim Hn.
Qed.

Lemma parse_zero_or_more_correct_witness :
  parse_zero_or_more 2 (primary 1)
    (init [tok IDENTIFIER "x"; tok SEMICOLON ";"; eof_token])
  = Ok [node "identifier" [("name", FStr "x")]]
       (mkParser [tok IDENTIFIER "x"; tok SEMICOLON ";"; eof_token]
          1 (tok SEMICOLON ";")).
Proof.
  destruct (parse_zero_or_more_correct 2 (primary 1))
    as (_ & _ & _ & _ & _ & Hcomplete & _ & _).
  apply Hcomplete.
  - eapply repeats_more with
      (p' := mkParser [tok IDENTIFIER "x"; tok SEMICOLON ";"; eof_token]
               1 (tok SEMICOLON ";")).
    + vm_compute. reflexivity.
    + simpl. lia.
    + apply (@repeats_fail (primary 1)
               (mkParser [tok IDENTIFIER "x"; tok SEMICOLON ";"; eof_token]
                  1 (tok SEMICOLON ";"))
               (SyntaxError "Expected primary expression" None)
               (mkParser [tok IDENTIFIER "x"; tok SEMICOLON ";"; eof_token]
                  1 (tok SEMICOLON ";"))).
      vm_compute. reflexivity.
  - simpl. lia.
Defined.

(** C5.  [parse_one_or_more] invokes the symbol once.  If that invocation
    raises, the cursor is put back to its entry value and a failure wrapping
    the cause is raised; if it returns a false value -- the empty marker
    [{}] in particular -- the result is the empty list; otherwise the result
    is the first result (a dictionary as a one-element list) followed by
    what [parse_zero_or_more] of the same symbol returns from there, and
    nothing is returned while that repetition has not returned. *)
Theorem parse_one_or_more_correct (fuel : nat) (symbol : symbol) (p : parser) :
  (forall se p',
      symbol p = Raise se p' ->
      parse_one_or_more fuel symbol p
      = Raise (SyntaxError
                 "Syntax error. 1st symbol parsing failed in 'one_or_more'."
                 (Some se))
              (restore p' (pos p) (current_token p))) /\
  (forall first p1,
      symbol p = Ok first p1 -> truthy first = false ->
      parse_one_or_more fuel symbol p = Ok [] p1) /\
  (forall p1,
      symbol p = Ok empty_marker p1 ->
      parse_one_or_more fuel symbol p = Ok [] p1) /\
  (forall first p1 rest p2,
      symbol p = Ok first p1 -> truthy first = true ->
      parse_zero_or_more fuel symbol p1 = Ok rest p2 ->
      parse_one_or_more fuel symbol p = Ok (as_list first ++ rest) p2) /\
  (forall first p1 rest p2,
      symbol p = Ok first p1 -> truthy first = true -> is_dict first = true ->
      parse_zero_or_more fuel symbol p1 = Ok rest p2 ->
      parse_one_or_more fuel symbol p = Ok (first :: rest) p2) /\
  (forall first p1,
      symbol p = Ok first p1 -> truthy first = true ->
      parse_zero_or_more fuel symbol p1 = OutOfFuel ->
      parse_one_or_more fuel symbol p = OutOfFuel).
Proof.
  assert (Hrest : forall first p1 rest p2,
             symbol p = Ok first p1 -> truthy first = true ->
             parse_zero_or_more fuel symbol p1 = Ok rest p2 ->
             parse_one_or_more fuel symbol p = Ok (as_list first ++ rest) p2).
  { intros first p1 rest p2 E Ht Hz.
    unfold parse_one_or_more, bind, try_except, get_pos, get_current_token.
    rewrite E, Ht. simpl. rewrite Hz.
    destruct rest; [now rewrite app_nil_r | reflexivity]. }
  assert (Hfalse : forall first p1,
             symbol p = Ok first p1 -> truthy first = false ->
             parse_one_or_more fuel symbol p = Ok [] p1).
  { intros first p1 E Ht.
    unfold parse_one_or_more, bind, try_except, get_pos, get_current_token.
    now rewrite E, Ht. }
  split.
  { intros se p' E.
    unfold parse_one_or_more, bind, try_except, get_pos, get_current_token.
    now rewrite E. }
  split; [exact Hfalse|].
  split; [intros p1 E; now apply (Hfalse empty_marker)|].
  split; [exact Hrest|].
  split.
  { intros first p1 rest p2 E Ht Hd Hz.
    rewrite (Hrest _ _ _ _ E Ht Hz). destruct first; [reflexivity | discriminate]. }
  intros first p1 E Ht Hz.
  unfold parse_one_or_more, bind, try_except, get_pos, get_current_token.
  rewrite E, Ht. simpl. now rewrite Hz.
Qed.

Lemma parse_one_or_more_correct_witness :
  parse_one_or_more 3 (primary 1)
    (init [tok IDENTIFIER "x"; tok NUMBER "2"; eof_token])
  = Ok [node "identifier" [("name", FStr "x")];
        node "number" [("value", FFloat (Some "2"))]]
       (mkParser [tok IDENTIFIER "x"; tok NUMBER "2"; eof_token] 2 eof_token).
Proof.
  destruct (parse_one_or_more_correct 3 (primary 1)
              (init [tok IDENTIFIER "x"; tok NUMBER "2"; eof_token]))
    as (_ & _ & _ & _ & Hdict & _).
  apply (Hdict (node "identifier" [("name", FStr "x")])
           (mkParser [tok IDENTIFIER "x"; tok NUMBER "2"; eof_token]
              1 (tok NUMBER "2"))).
  - vm_compute. reflexivity.
  - reflexivity.
  - reflexivity.
  - vm_compute. reflexivity.
Defined.





(** C10.  [program] makes no end-of-input check.  On the tokens of
    [print x; )] it returns a program node of one statement while the
    cursor stands on the unconsumed [')'], a token inside the list that is
    not the end-of-stream and at which no statement starts. *)
Theorem program_ignores_trailing_tokens :
  exists ts body q,
    (forall k,
        program (11 + k) (init ts)
        = Ok (node "program" [("body", FVal (VList body))]) q) /\
    body <> [] /\
    tokens q = ts /\
    pos q < List.length ts /\
    current_token q = nth (pos q) ts eof_token /\
    type (current_token q) <> EOF /\
    (forall k, exists e q', statement (2 + k) q = Raise e q').
Proof.
  exists [tok PRINT "print"; tok IDENTIFIER "x"; tok SEMICOLON ";";
          tok RPAREN ")"; eof_token].
  exists [node "print_stmt"
            [("expression", FVal (node "identifier" [("name", FStr "x")]))]].
  exists (mkParser [tok PRINT "print"; tok IDENTIFIER "x"; tok SEMICOLON ";";
                    tok RPAREN ")"; eof_token] 3 (tok RPAREN ")")).
  split; [|split; [|split; [|split; [|split; [|split]]]]].
  - intros k.
    apply (@fuel_enough _ program 11 _ _ (fun m H => program_fuel_mono H));
      [|discriminate | lia].
    vm_compute. reflexivity.
  - discriminate.
  - reflexivity.
  - simpl. lia.
  - reflexivity.
  - discriminate.
  - intros k. do 2 eexists.
    apply (@fuel_enough _ statement 2 _ _ (fun m H => statement_fuel_mono H));
      [|discriminate | lia].
    vm_compute. reflexivity.
Qed.

(** C2.  On the token stream that holds only the end-of-stream token,
    [program] raises -- but the failure is the one of
    [parse_one_or_more], caused by ["Expected statement"]; its message is
    not ["Empty program"]. *)
Theorem program_on_empty_stream :
  (forall k,
      program (2 + k) (init [eof_token])
      = Raise (SyntaxError
                 "Syntax error. 1st symbol parsing failed in 'one_or_more'."
                 (Some (SyntaxError "Expected statement" None)))
              (init [eof_token])) /\
  message (SyntaxError
             "Syntax error. 1st symbol parsing failed in 'one_or_more'."
             (Some (SyntaxError "Expected statement" None)))
  <> "Empty program".
Proof.
  split; [|discriminate].
  intros k.
  apply (@fuel_enough _ program 2 _ _ (fun m H => program_fuel_mono H));
    [|discriminate | lia].
  vm_compute. reflexivity.
Qed.

(** C1.  A mandatory-token mismatch after the first token of a rule
    escapes with the cursor where the mismatch was found, not at the rule's
    entry: [var_decl] on [var x = 5] (no [';'], the input of
    [test_syntax_error_missing_semicolon]) raises at position 4 and on
    [var ;] at position 1, [print_stmt] on [print x] (no [';']) at position
    2, [block] on [{ print x ;] (no ['}']) at position 4; each rule was
    entered at position 0. *)
Theorem mismatch_escapes_without_rollback :
  (forall k,
      let ts := [tok VAR "var"; tok IDENTIFIER "x"; tok ASSIGN "=";
                 tok NUMBER "5"; eof_token] in
      var_decl (8 + k) (init ts)
      = Raise (SyntaxError
                 "Expected ';' after declaration. Expected ;, found EOF at line None:None"
                 None)
              (mkParser ts 4 eof_token)) /\
  (forall fuel,
      let ts := [tok VAR "var"; tok SEMICOLON ";"; eof_token] in
      var_decl fuel (init ts)
      = Raise (SyntaxError
                 "Expected variable name in declaration. Expected IDENTIFIER, found ; at line None:None"
                 None)
              (mkParser ts 1 (tok SEMICOLON ";"))) /\
  (forall k,
      let ts := [tok PRINT "print"; tok IDENTIFIER "x"; eof_token] in
      print_stmt (8 + k) (init ts)
      = Raise (SyntaxError
                 "Expected ';' after print. Expected ;, found EOF at line None:None"
                 None)
              (mkParser ts 2 eof_token)) /\
  (forall k,
      let ts := [tok LBRACE "{"; tok PRINT "print"; tok IDENTIFIER "x";
                 tok SEMICOLON ";"; eof_token] in
      block (12 + k) (init ts)
      = Raise (SyntaxError
                 "Expected '}' to end block. Expected }, found EOF at line None:None"
                 None)
              (mkParser ts 4 eof_token)).
Proof.
  split; [|split; [|split]].
  - intros k ts.
    apply (@fuel_enough _ var_decl 8 _ _ (fun m H => var_decl_fuel_mono H));
      [|discriminate | lia].
    vm_compute. reflexivity.
  - intros fuel ts. reflexivity.
  - intros k ts.
    apply (@fuel_enough _ print_stmt 8 _ _ (fun m H => print_stmt_fuel_mono H));
      [|discriminate | lia].
    vm_compute. reflexivity.
  - intros k ts.
    apply (@fuel_enough _ block 12 _ _ (fun m H => block_fuel_mono H));
      [|discriminate | lia].
    vm_compute. reflexivity.
Qed.

(** * Further properties of the parser *)

(** ** What consuming a token does *)

Lemma consume_token_some ty v p t q :
  consume_token ty v p = (Some t, q) ->
  t = current_token p /\
  token_matches (current_token p) ty v = true /\
  q = snd (advance_to_next_token p).
Proof.
  unfold consume_token.
  destruct (token_matches (current_token p) ty v); intros H; inversion H.
  repeat split.
Qed.

Lemma consume_token_none ty v p q :
  consume_token ty v p = (None, q) ->
  q = p /\ token_matches (current_token p) ty v = false.
Proof.
  unfold consume_token.
  destruct (token_matches (current_token p) ty v); intros H; inversion H.
  split; reflexivity.
Qed.

Lemma consume_token_or_fail_ok ty v msg p t q :
  consume_token_or_fail ty v msg p = Ok t q ->
  consume_token ty v p = (Some t, q).
Proof.
  unfold consume_token_or_fail.
  destruct (consume_token ty v p) as [[t'|] q']; intros H; inversion H.
  reflexivity.
Qed.

(** ** Progress: a rule that returns has moved the cursor forward *)

Lemma advancing_stays {A} (m : M A) : advancing m -> stays m.
Proof. intros H p a q E. apply H in E. lia. Qed.

Lemma never_returns_advancing {A} (m : M A) : never_returns m -> advancing m.
Proof. intros H p a q E. now apply H in E. Qed.

Lemma never_returns_raise {A} e : never_returns (@raise A e).
Proof. intros p a q. discriminate. Qed.

Lemma never_returns_out_of_fuel {A} : never_returns (@out_of_fuel A).
Proof. intros p a q. discriminate. Qed.

Lemma never_returns_rollback_and_raise {A} sp st msg se :
  never_returns (@rollback_and_raise A sp st msg se).
Proof. intros p a q. discriminate. Qed.

Lemma stays_ret {A} (a : A) : stays (ret a).
Proof. intros p a' q H. inversion H. lia. Qed.

Lemma stays_float x : stays (float x).
Proof.
  intros p a q H. unfold float, uncaught, ret in H.
  destruct x as [s|]; [destruct (float_literal s)|]; inversion H. lia.
Qed.

Lemma stays_get_pos : stays get_pos.
Proof. intros p a q H. inversion H. lia. Qed.

Lemma stays_get_current_token : stays get_current_token.
Proof. intros p a q H. inversion H. lia. Qed.

Lemma eats_if_some_consume ty v : eats_if_some (consume ty v).
Proof.
  intros p o q H. unfold consume in H.
  destruct (consume_token ty v p) as [o' q'] eqn:E. inversion H; subst.
  destruct o.
  - apply consume_token_some in E. destruct E as (_ & _ & ->). reflexivity.
  - now apply consume_token_none in E.
Qed.

Lemma eats_if_some_or (m1 m2 : M (option Token)) :
  eats_if_some m1 -> eats_if_some m2 ->
  eats_if_some (bind m1 (fun x => match x with
                                  | Some _ => ret x
                                  | None => m2
                                  end)).
Proof.
  intros H1 H2 p o q H. unfold bind in H.
  destruct (m1 p) as [x p1|e p1|? ?|] eqn:E; try discriminate.
  pose proof (H1 _ _ _ E) as Hx. destruct x.
  - inversion H; subst. exact Hx.
  - subst p1. now apply H2.
Qed.

Lemma stays_eats_if_some m : eats_if_some m -> stays m.
Proof.
  intros Hm p o q E. apply Hm in E. destruct o; [lia | subst; lia].
Qed.

Lemma advancing_consume_token_or_fail ty v msg :
  advancing (consume_token_or_fail ty v msg).
Proof.
  intros p t q H. apply consume_token_or_fail_ok, consume_token_some in H.
  destruct H as (_ & _ & ->). simpl. lia.
Qed.

Lemma stays_bind {A B} (m : M A) (k : A -> M B) :
  stays m -> (forall a, stays (k a)) -> stays (bind m k).
Proof.
  intros Hm Hk p b q H. unfold bind in H.
  destruct (m p) as [a p1|e p1|? ?|] eqn:E; try discriminate.
  apply Hm in E. apply Hk in H. lia.
Qed.

Lemma advancing_bind_l {A B} (m : M A) (k : A -> M B) :
  advancing m -> (forall a, stays (k a)) -> advancing (bind m k).
Proof.
  intros Hm Hk p b q H. unfold bind in H.
  destruct (m p) as [a p1|e p1|? ?|] eqn:E; try discriminate.
  apply Hm in E. apply Hk in H. lia.
Qed.

Lemma advancing_bind_r {A B} (m : M A) (k : A -> M B) :
  stays m -> (forall a, advancing (k a)) -> advancing (bind m k).
Proof.
  intros Hm Hk p b q H. unfold bind in H.
  destruct (m p) as [a p1|e p1|? ?|] eqn:E; try discriminate.
  apply Hm in E. apply Hk in H. lia.
Qed.

Lemma advancing_bind_option {B} (m : M (option Token)) (k : option Token -> M B) :
  eats_if_some m ->
  (forall t, stays (k (Some t))) -> advancing (k None) ->
  advancing (bind m k).
Proof.
  intros Hm Hs Hn p b q H. unfold bind in H.
  destruct (m p) as [o p1|e p1|? ?|] eqn:E; try discriminate.
  apply Hm in E. destruct o.
  - apply Hs in H. lia.
  - subst p1. now apply Hn in H.
Qed.

Lemma advancing_try_except {A} (m : M A) (h : exn -> M A) :
  advancing m -> (forall e, never_returns (h e)) -> advancing (try_except m h).
Proof.
  intros Hm Hh p a q H. unfold try_except in H.
  destruct (m p) as [a' p1|e p1|? ?|] eqn:E; try discriminate.
  - inversion H; subst. eapply Hm; eauto.
  - now apply Hh in H.
Qed.

Lemma stays_try_except {A} (m : M A) (h : exn -> M A) :
  stays m -> (forall e, never_returns (h e)) -> stays (try_except m h).
Proof.
  intros Hm Hh p a q H. unfold try_except in H.
  destruct (m p) as [a' p1|e p1|? ?|] eqn:E; try discriminate.
  - inversion H; subst. eapply Hm; eauto.
  - now apply Hh in H.
Qed.

Lemma eats_if_some_match_operator ops :
  forall p o q, match_operator ops p = Ok o q ->
    match o with
    | Some _ => pos q = pos p + 1
    | None => q = p
    end.
Proof.
  induction ops as [|[ty op] rest IH]; intros p o q H; simpl in H.
  - inversion H; subst. reflexivity.
  - unfold bind in H.
    destruct (consume ty (Some op) p) as [t p1|e p1|? ?|] eqn:E; try discriminate.
    apply eats_if_some_consume in E. destruct t.
    + inversion H; subst. exact E.
    + subst p1. now apply IH.
Qed.

Lemma stays_operator_loop fuel ops (operand : symbol) sp st :
  stays operand ->
  forall left, stays (operator_loop fuel ops operand sp st left).
Proof.
  intros Ho. induction fuel as [|fuel IH]; intros left p v q H; simpl in H;
    [discriminate|].
  unfold bind, try_except in H.
  destruct (match_operator ops p) as [o p1|e p1|? ?|] eqn:Em; try discriminate.
  apply eats_if_some_match_operator in Em. destruct o as [op|].
  - destruct (operand p1) as [r p2|e p2|? ?|] eqn:Eo; try discriminate.
    apply Ho in Eo. apply IH in H. lia.
  - inversion H; subst. lia.
Qed.

Lemma advancing_binary_level fuel ops (operand : symbol) before_msg :
  advancing operand -> advancing (binary_level fuel ops operand before_msg).
Proof.
  intros Ho. unfold binary_level.
  apply advancing_bind_r; [apply stays_get_pos | intros sp].
  apply advancing_bind_r; [apply stays_get_current_token | intros st].
  apply advancing_bind_l.
  - apply advancing_try_except; [exact Ho|].
    intros e. apply never_returns_rollback_and_raise.
  - intros left. apply stays_operator_loop. now apply advancing_stays.
Qed.

Lemma ordered_choice_loop_progress start_pos start_token ss :
  Forall advancing ss ->
  forall p rs q,
    pos p = start_pos ->
    ordered_choice_loop start_pos start_token ss p = Ok rs q ->
    (rs = [] /\ pos q = start_pos) \/ (rs <> [] /\ start_pos < pos q).
Proof.
  induction 1 as [|s rest Hs _ IH]; intros p rs q Hp H; simpl in H.
  - inversion H; subst. left. split; reflexivity.
  - destruct (s p) as [r p1|e p1|? ?|] eqn:E; try discriminate.
    + inversion H; subst. right. split; [discriminate | eapply Hs; eauto].
    + eapply IH; [|exact H]. reflexivity.
Qed.

Lemma stays_zero_or_more_loop fuel (s : symbol) :
  stays s -> forall results, stays (zero_or_more_loop fuel s results).
Proof.
  intros Hs. induction fuel as [|fuel IH]; intros results p rs q H; simpl in H;
    [discriminate|].
  destruct (s p) as [r p1|e p1|? ?|] eqn:E; try discriminate.
  - apply Hs in E. destruct (pos p =? pos p1)%nat.
    + inversion H; subst. exact E.
    + apply IH in H. lia.
  - inversion H; subst. simpl. lia.
Qed.

Lemma stays_parse_zero_or_more fuel (s : symbol) :
  stays s -> stays (parse_zero_or_more fuel s).
Proof. intros. now apply stays_zero_or_more_loop. Qed.

Lemma advancing_parse_one_or_more fuel (s : symbol) :
  advancing s -> advancing (parse_one_or_more fuel s).
Proof.
  intros Hs. unfold parse_one_or_more.
  apply advancing_bind_r; [apply stays_get_pos | intros sp].
  apply advancing_bind_r; [apply stays_get_current_token | intros st].
  apply advancing_bind_l.
  - apply advancing_try_except; [exact Hs|].
    intros e. apply never_returns_rollback_and_raise.
  - intros first. destruct (negb (truthy first)); [apply stays_ret|].
    apply stays_bind.
    + apply stays_parse_zero_or_more. now apply advancing_stays.
    + intros [|x l]; apply stays_ret.
Qed.

Ltac stays_step :=
  first
    [ assumption
    | apply stays_ret
    | apply stays_get_pos
    | apply stays_get_current_token
    | apply stays_float
    | apply advancing_stays; assumption
    | apply advancing_stays; apply advancing_consume_token_or_fail
    | apply advancing_stays; apply never_returns_advancing;
      first [apply never_returns_raise | apply never_returns_out_of_fuel]
    | apply stays_eats_if_some; apply eats_if_some_consume
    | apply stays_parse_zero_or_more
    | apply stays_try_except;
      [|intros ?; apply never_returns_rollback_and_raise]
    | apply stays_bind; [|intros ?]
    | match goal with
      | |- stays (match ?x with _ => _ end) => destruct x
      end ].

Ltac advancing_step :=
  first
    [ assumption
    | apply never_returns_advancing;
      first [apply never_returns_raise | apply never_returns_out_of_fuel]
    | apply advancing_consume_token_or_fail
    | apply advancing_binary_level
    | apply advancing_parse_one_or_more
    | apply advancing_try_except;
      [|intros ?;
        first [apply never_returns_rollback_and_raise
              | apply never_returns_raise]]
    | match goal with
      | |- advancing (bind get_pos _) =>
          apply advancing_bind_r; [apply stays_get_pos | intros ?]
      | |- advancing (bind get_current_token _) =>
          apply advancing_bind_r; [apply stays_get_current_token | intros ?]
      | |- advancing (bind (consume _ _) _) =>
          apply advancing_bind_option;
          [apply eats_if_some_consume | intros ?; repeat stays_step | ]
      | |- advancing (bind (bind (consume _ _) _) _) =>
          apply advancing_bind_option;
          [apply eats_if_some_or; apply eats_if_some_consume
          | intros ?; repeat stays_step | ]
      | |- advancing (bind _ _) =>
          apply advancing_bind_l; [|intros ?; repeat stays_step]
      | |- advancing (match ?x with _ => _ end) => destruct x
      end ].

Lemma expression_family_advancing fuel :
  advancing (expression fuel) /\
  advancing (logical_or fuel) /\
  advancing (logical_and fuel) /\
  advancing (equality fuel) /\
  advancing (relational fuel) /\
  advancing (additive fuel) /\
  advancing (multiplicative fuel) /\
  advancing (primary fuel).
Proof.
  induction fuel as [|fuel IH].
  - repeat split; apply never_returns_advancing, never_returns_out_of_fuel.
  - destruct IH as (He & Hor & Hand & Heq & Hrel & Hadd & Hmul & Hpri).
    repeat split; simpl; repeat advancing_step.
Qed.

Lemma advancing_expression fuel : advancing (expression fuel).
Proof. apply expression_family_advancing. Qed.

Lemma advancing_primary fuel : advancing (primary fuel).
Proof. apply expression_family_advancing. Qed.

Lemma advancing_var_decl fuel : advancing (var_decl fuel).
Proof.
  pose proof (advancing_expression fuel). unfold var_decl.
  repeat advancing_step.
Qed.

Lemma advancing_assignment fuel : advancing (assignment fuel).
Proof.
  pose proof (advancing_expression fuel). unfold assignment.
  repeat advancing_step.
Qed.

Lemma advancing_print_stmt fuel : advancing (print_stmt fuel).
Proof.
  pose proof (advancing_expression fuel). unfold print_stmt.
  repeat advancing_step.
Qed.

Lemma advancing_statement_of fuel :
  advancing (if_stmt fuel) -> advancing (while_loop fuel) ->
  advancing (block fuel) -> advancing (statement (S fuel)).
Proof.
  intros Hif Hwh Hbl p v q H. cbn [statement] in H. unfold bind in H.
  destruct (parse_ordered_choice _ p) as [rs p1|e p1|? ?|] eqn:E;
    try discriminate.
  rewrite parse_ordered_choice_unfold in E by discriminate.
  apply ordered_choice_loop_progress in E; [|
    repeat constructor;
      auto using advancing_var_decl, advancing_assignment,
        advancing_print_stmt | reflexivity].
  destruct E as [[-> _]|[Hne Hlt]]; [discriminate|].
  destruct rs; [congruence|]. inversion H; subst. exact Hlt.
Qed.

Lemma statement_family_advancing fuel :
  advancing (statement fuel) /\
  advancing (block fuel) /\
  advancing (if_stmt fuel) /\
  advancing (while_loop fuel).
Proof.
  induction fuel as [|fuel IH].
  - repeat split; apply never_returns_advancing, never_returns_out_of_fuel.
  - destruct IH as (Hst & Hbl & Hif & Hwh).
    pose proof (advancing_expression fuel).
    split; [now apply advancing_statement_of|].
    repeat split; cbn [block if_stmt while_loop]; repeat advancing_step.
Qed.

Lemma advancing_statement fuel : advancing (statement fuel).
Proof. apply statement_family_advancing. Qed.

Lemma advancing_program fuel : advancing (program fuel).
Proof.
  pose proof (advancing_statement fuel). unfold program.
  repeat advancing_step.
Qed.

Lemma advancing_rule (rule : nat -> symbol) fuel :
  In rule grammar_rules -> advancing (rule fuel).
Proof.
  intros Hin.
  pose proof (expression_family_advancing fuel)
    as (He & Hor & Hand & Heq & Hrel & Hadd & Hmul & Hpri).
  pose proof (statement_family_advancing fuel) as (Hst & Hbl & Hif & Hwh).
  simpl in Hin.
  repeat (destruct Hin as [<- | Hin];
          [auto using advancing_program, advancing_var_decl,
             advancing_assignment, advancing_print_stmt|]).
  contradiction.
Qed.

(** X1.  Every grammar rule that returns has consumed at least one token:
    the position after the call is strictly beyond the position before
    it. *)
Theorem rules_consume_at_least_one_token (rule : nat -> symbol) :
  In rule grammar_rules ->
  forall fuel p v q, rule fuel p = Ok v q -> pos p < pos q.
Proof. intros Hin fuel. exact (advancing_rule fuel Hin). Qed.

Lemma rules_consume_at_least_one_token_witness :
  pos (init [tok VAR "var"; tok IDENTIFIER "x"; tok SEMICOLON ";"; eof_token])
  < pos (mkParser [tok VAR "var"; tok IDENTIFIER "x"; tok SEMICOLON ";";
                   eof_token] 3 eof_token).
Proof.
  apply (@rules_consume_at_least_one_token var_decl)
    with (fuel := 0)
         (p := init [tok VAR "var"; tok IDENTIFIER "x"; tok SEMICOLON ";";
                     eof_token])
         (v := node "var_decl"
                 [("name", FStr "x"); ("init", FVal empty_marker)])
         (q := mkParser [tok VAR "var"; tok IDENTIFIER "x"; tok SEMICOLON ";";
                         eof_token] 3 eof_token).
  - simpl. tauto.
  - reflexivity.
Defined.

(** ** Rollback: which rules leave the cursor untouched when they fail *)

Lemma match_operator_no_raise ops :
  forall p e q, match_operator ops p <> Raise e q.
Proof.
  induction ops as [|[ty op] rest IH]; intros p e q; simpl; [discriminate|].
  unfold bind, consume.
  destruct (consume_token ty (Some op) p) as [[t|] p1]; [discriminate|].
  apply IH.
Qed.

Lemma match_operator_answers ops :
  forall p, match_operator ops p <> OutOfFuel.
Proof.
  induction ops as [|[ty op] rest IH]; intros p; simpl; [discriminate|].
  unfold bind, consume.
  destruct (consume_token ty (Some op) p) as [[t|] p1]; [discriminate|].
  apply IH.
Qed.

Lemma operator_loop_raise fuel ops (operand : symbol) sp st :
  forall left p e q,
    operator_loop fuel ops operand sp st left p = Raise e q ->
    cursor q = (sp, st).
Proof.
  induction fuel as [|fuel IH]; intros left p e q H; simpl in H;
    [discriminate|].
  unfold bind, try_except in H.
  destruct (match_operator ops p) as [o p1|e1 p1|? ?|] eqn:Em; try discriminate.
  - destruct o as [op|]; [|discriminate].
    destruct (operand p1) as [r p2|e2 p2|? ?|]; try discriminate.
    + eapply IH; eauto.
    + inversion H; subst. reflexivity.
  - now apply match_operator_no_raise in Em.
Qed.

Lemma restoring_binary_level fuel ops (operand : symbol) before_msg :
  restoring (binary_level fuel ops operand before_msg).
Proof.
  intros p e q H.
  unfold binary_level, bind, try_except, get_pos, get_current_token in H.
  destruct (operand p) as [left p1|e1 p1|? ?|]; try discriminate.
  - now apply operator_loop_raise in H.
  - inversion H; subst. reflexivity.
Qed.

Lemma restoring_expression fuel : restoring (expression fuel).
Proof.
  intros p e q H. destruct fuel as [|fuel]; [discriminate|].
  cbn [expression] in H. unfold try_except in H.
  destruct (logical_or fuel p) as [v p1|e1 p1|? ?|] eqn:E; try discriminate.
  inversion H; subst.
  destruct fuel as [|fuel]; [discriminate|].
  now apply restoring_binary_level in E.
Qed.

Lemma restoring_statement fuel p e q :
  statement fuel p = Raise e q ->
  cursor q = cursor p /\ e = SyntaxError "Expected statement" None.
Proof.
  intros H. destruct fuel as [|fuel]; [discriminate|].
  cbn [statement] in H. unfold bind in H.
  destruct (parse_ordered_choice _ p) as [rs p1|e1 p1|? ?|] eqn:E;
    try discriminate.
  - rewrite parse_ordered_choice_unfold in E by discriminate.
    destruct rs; [|discriminate]. inversion H; subst.
    apply ordered_choice_loop_shape in E.
    destruct E as [[_ Hf]|(pre & s & post & q0 & r & _ & _ & _ & Hrs)];
      [|discriminate].
    split; [|reflexivity]. now apply (all_fail_cursor Hf).
  - rewrite parse_ordered_choice_unfold in E by discriminate.
    now apply ordered_choice_loop_no_raise in E.
Qed.

Lemma restoring_program fuel : restoring (program fuel).
Proof.
  intros p e q H. unfold program, bind in H.
  destruct (parse_one_or_more fuel (statement fuel) p) as [rs p1|e1 p1|? ?|] eqn:E;
    try discriminate.
  - destruct rs; [|discriminate].
    apply parse_one_or_more_nil in E. destruct E as (first & Hs & Hf).
    apply statement_returns_truthy in Hs. congruence.
  - inversion H; subst.
    unfold parse_one_or_more, bind, try_except, get_pos, get_current_token in E.
    destruct (statement fuel p) as [first p2|e2 p2|? ?|]; try discriminate.
    + destruct (negb (truthy first)); [discriminate|].
      pose proof (@zero_or_more_loop_no_raise fuel (statement fuel) [] p2) as Hn.
      unfold parse_zero_or_more in E.
      destruct (zero_or_more_loop fuel (statement fuel) [] p2) as [rest p3|e3 p3|? ?|];
        try discriminate.
      * destruct rest; discriminate.
      * now elim (Hn e3 p3).
    + inversion E; subst. reflexivity.
Qed.

(** X2.  When [program], [statement], [expression] or one of the six
    binary levels raises, position and current token are exactly what they
    were when the rule was entered. *)
Theorem failing_rule_restores_cursor (rule : nat -> symbol) :
  In rule restoring_rules ->
  forall fuel p e q,
    rule fuel p = Raise e q ->
    pos q = pos p /\ current_token q = current_token p.
Proof.
  intros Hin fuel p e q H.
  assert (Hc : cursor q = cursor p);
    [|unfold cursor in Hc; injection Hc as H1 H2; split; assumption].
  simpl in Hin.
  destruct Hin as [<-|[<-|[<-|Hin]]].
  - now apply restoring_program in H.
  - now apply restoring_statement in H.
  - now apply restoring_expression in H.
  - destruct fuel as [|fuel]; [repeat (destruct Hin as [<-|Hin]; [discriminate|]);
                                contradiction|].
    repeat (destruct Hin as [<-|Hin];
            [now apply restoring_binary_level in H|]).
    contradiction.
Qed.

Lemma failing_rule_restores_cursor_witness :
  pos (init [tok PRINT "print"; tok IDENTIFIER "x"; eof_token])
  = pos (init [tok PRINT "print"; tok IDENTIFIER "x"; eof_token]) /\
  current_token (init [tok PRINT "print"; tok IDENTIFIER "x"; eof_token])
  = current_token (init [tok PRINT "print"; tok IDENTIFIER "x"; eof_token]).
Proof.
  apply (@failing_rule_restores_cursor statement)
    with (fuel := 10)
         (p := init [tok PRINT "print"; tok IDENTIFIER "x"; eof_token])
         (e := SyntaxError "Expected statement" None)
         (q := init [tok PRINT "print"; tok IDENTIFIER "x"; eof_token]).
  - simpl. tauto.
  - vm_compute. reflexivity.
Defined.

(** ** Invariants of the parser state

    [keeps Inv m]: entered in a state satisfying [Inv], [m] leaves such a
    state, returning or raising.  Any [Inv] that survives the consumption
    of a token other than end-of-stream and the restoring of a cursor
    saved in an [Inv] state is kept by every combinator and rule. *)

Section Invariant.

Variable Inv : parser -> Prop.
Variable Snap : nat -> Token -> Prop.

Hypothesis Inv_snapshot :
  forall p, Inv p -> Snap (pos p) (current_token p).
Hypothesis Inv_restore :
  forall p sp st, Inv p -> Snap sp st -> Inv (restore p sp st).
Hypothesis Inv_consume :
  forall ty v p, ty <> EOF -> Inv p -> Inv (snd (consume_token ty v p)).

Lemma keeps_ret {A} (a : A) : keeps Inv (ret a).
Proof. intros p H. exact H. Qed.

Lemma keeps_raise {A} e : keeps Inv (@raise A e).
Proof. intros p H. exact H. Qed.

Lemma keeps_out_of_fuel {A} : keeps Inv (@out_of_fuel A).
Proof. intros p H. exact I. Qed.

Lemma keeps_float x : keeps Inv (float x).
Proof.
  intros p H. unfold float, uncaught, ret.
  destruct x as [s|]; [destruct (float_literal s)|]; exact H.
Qed.

Lemma keeps_bind {A B} (m : M A) (k : A -> M B) :
  keeps Inv m -> (forall a, keeps Inv (k a)) -> keeps Inv (bind m k).
Proof.
  intros Hm Hk p H. unfold bind. specialize (Hm p H).
  destruct (m p) as [a q|e q|? ?|]; [now apply Hk | exact Hm | exact Hm | exact I].
Qed.

Lemma keeps_try_except {A} (m : M A) (h : exn -> M A) :
  keeps Inv m -> (forall e, keeps Inv (h e)) -> keeps Inv (try_except m h).
Proof.
  intros Hm Hh p H. unfold try_except. specialize (Hm p H).
  destruct (m p) as [a q|e q|? ?|]; [exact Hm | now apply Hh | exact Hm | exact I].
Qed.

Lemma keeps_snapshot {A} (k : nat -> Token -> M A) :
  (forall sp st, Snap sp st -> keeps Inv (k sp st)) ->
  keeps Inv (bind get_pos
               (fun sp => bind get_current_token (fun st => k sp st))).
Proof.
  intros Hk p H. unfold bind, get_pos, get_current_token.
  apply (Hk _ _ (Inv_snapshot H) p H).
Qed.

Lemma keeps_rollback sp st : Snap sp st -> keeps Inv (rollback sp st).
Proof. intros Hs p H. unfold rollback. now apply Inv_restore. Qed.

Lemma keeps_rollback_and_raise {A} sp st msg se :
  Snap sp st -> keeps Inv (@rollback_and_raise A sp st msg se).
Proof.
  intros Hs. unfold rollback_and_raise.
  apply keeps_bind; [now apply keeps_rollback|].
  intros _. apply keeps_raise.
Qed.

Lemma keeps_consume ty v : ty <> EOF -> keeps Inv (consume ty v).
Proof.
  intros Hty p H. unfold consume.
  pose proof (Inv_consume v Hty H) as Hc.
  destruct (consume_token ty v p) as [t q]. exact Hc.
Qed.

Lemma keeps_consume_token_or_fail ty v msg :
  ty <> EOF -> keeps Inv (consume_token_or_fail ty v msg).
Proof.
  intros Hty p H. unfold consume_token_or_fail.
  pose proof (Inv_consume v Hty H) as Hc.
  destruct (consume_token ty v p) as [[t|] q]; exact Hc.
Qed.

Lemma keeps_sequence_loop sp st ss :
  Snap sp st -> Forall (keeps Inv) ss ->
  forall results, keeps Inv (sequence_loop sp st ss results).
Proof.
  intros Hs. induction 1 as [|s rest H _ IH]; intros results; simpl.
  - apply keeps_ret.
  - apply keeps_bind; [|intros; apply IH].
    apply keeps_try_except; [exact H|].
    intros e. now apply keeps_rollback_and_raise.
Qed.

Lemma keeps_parse_sequence ss :
  Forall (keeps Inv) ss -> keeps Inv (parse_sequence ss).
Proof.
  intros H. destruct ss as [|s rest]; [apply keeps_raise|].
  unfold parse_sequence. apply keeps_snapshot.
  intros sp st Hs. now apply keeps_sequence_loop.
Qed.

Lemma keeps_ordered_choice_loop sp st ss :
  Snap sp st -> Forall (keeps Inv) ss ->
  keeps Inv (ordered_choice_loop sp st ss).
Proof.
  intros Hs. induction 1 as [|s rest H _ IH]; simpl.
  - apply keeps_ret.
  - intros p Hp. specialize (H p Hp).
    destruct (s p) as [r q|e q|? ?|]; [exact H | | exact H | exact I].
    apply IH. now apply Inv_restore.
Qed.

Lemma keeps_parse_ordered_choice ss :
  Forall (keeps Inv) ss -> keeps Inv (parse_ordered_choice ss).
Proof.
  intros H. destruct ss as [|s rest]; [apply keeps_raise|].
  unfold parse_ordered_choice. apply keeps_snapshot.
  intros sp st Hs. now apply keeps_ordered_choice_loop.
Qed.

Lemma keeps_zero_or_more_loop fuel (s : symbol) :
  keeps Inv s -> forall results, keeps Inv (zero_or_more_loop fuel s results).
Proof.
  intros Hs. induction fuel as [|fuel IH]; intros results p Hp; simpl;
    [exact I|].
  pose proof (Hs p Hp) as H.
  destruct (s p) as [r q|e q|? ?|]; [| | exact H | exact I].
  - destruct (pos p =? pos q)%nat; [exact H | now apply IH].
  - apply Inv_restore; [exact H | now apply Inv_snapshot].
Qed.

Lemma keeps_parse_zero_or_more fuel (s : symbol) :
  keeps Inv s -> keeps Inv (parse_zero_or_more fuel s).
Proof. intros. now apply keeps_zero_or_more_loop. Qed.

Lemma keeps_parse_one_or_more fuel (s : symbol) :
  keeps Inv s -> keeps Inv (parse_one_or_more fuel s).
Proof.
  intros Hs. unfold parse_one_or_more. apply keeps_snapshot.
  intros sp st Hsnap. apply keeps_bind.
  - apply keeps_try_except; [exact Hs|].
    intros e. now apply keeps_rollback_and_raise.
  - intros first. destruct (negb (truthy first)); [apply keeps_ret|].
    apply keeps_bind; [now apply keeps_parse_zero_or_more|].
    intros [|x l]; apply keeps_ret.
Qed.

Lemma keeps_parse_optional (s : symbol) :
  keeps Inv s -> keeps Inv (parse_optional s).
Proof.
  intros Hs. unfold parse_optional. apply keeps_snapshot.
  intros sp st Hsnap. apply keeps_try_except; [exact Hs|].
  intros e. apply keeps_bind; [now apply keeps_rollback|].
  intros _. apply keeps_ret.
Qed.

Lemma keeps_match_operator ops :
  no_eof ops -> keeps Inv (match_operator ops).
Proof.
  induction 1 as [|[ty op] rest Hty _ IH]; simpl; [apply keeps_ret|].
  apply keeps_bind; [now apply keeps_consume|].
  intros [t|]; [apply keeps_ret | exact IH].
Qed.

Lemma keeps_operator_loop fuel ops (operand : symbol) sp st :
  no_eof ops -> Snap sp st -> keeps Inv operand ->
  forall left, keeps Inv (operator_loop fuel ops operand sp st left).
Proof.
  intros Hops Hsnap Ho. induction fuel as [|fuel IH]; intros left; simpl;
    [apply keeps_out_of_fuel|].
  apply keeps_bind; [now apply keeps_match_operator|].
  intros [op|]; [|apply keeps_ret].
  apply keeps_bind; [|intros; apply IH].
  apply keeps_try_except; [exact Ho|].
  intros e. now apply keeps_rollback_and_raise.
Qed.

Lemma keeps_binary_level fuel ops (operand : symbol) before_msg :
  no_eof ops -> keeps Inv operand ->
  keeps Inv (binary_level fuel ops operand before_msg).
Proof.
  intros Hops Ho. unfold binary_level. apply keeps_snapshot.
  intros sp st Hsnap. apply keeps_bind.
  - apply keeps_try_except; [exact Ho|].
    intros e. now apply keeps_rollback_and_raise.
  - intros left. now apply keeps_operator_loop.
Qed.

Ltac keeps_step :=
  first
    [ assumption
    | apply keeps_ret
    | apply keeps_raise
    | apply keeps_out_of_fuel
    | apply keeps_float
    | apply keeps_consume; discriminate
    | apply keeps_consume_token_or_fail; discriminate
    | apply keeps_rollback_and_raise; assumption
    | apply keeps_binary_level;
      [repeat constructor; simpl; discriminate|]
    | apply keeps_parse_zero_or_more
    | apply keeps_parse_one_or_more
    | apply keeps_parse_ordered_choice
    | apply Forall_cons
    | apply Forall_nil
    | apply keeps_snapshot; intros ? ? ?
    | apply keeps_try_except; [|intros ?]
    | apply keeps_bind; [|intros ?]
    | match goal with
      | |- keeps _ (match ?x with _ => _ end) => destruct x
      end ].

Lemma keeps_expression_family fuel :
  keeps Inv (expression fuel) /\
  keeps Inv (logical_or fuel) /\
  keeps Inv (logical_and fuel) /\
  keeps Inv (equality fuel) /\
  keeps Inv (relational fuel) /\
  keeps Inv (additive fuel) /\
  keeps Inv (multiplicative fuel) /\
  keeps Inv (primary fuel).
Proof.
  induction fuel as [|fuel IH].
  - repeat split; apply keeps_out_of_fuel.
  - destruct IH as (He & Hor & Hand & Heq & Hrel & Hadd & Hmul & Hpri).
    repeat split; simpl; repeat keeps_step.
Qed.

Lemma keeps_simple_statements fuel :
  keeps Inv (var_decl fuel) /\
  keeps Inv (assignment fuel) /\
  keeps Inv (print_stmt fuel).
Proof.
  pose proof (proj1 (keeps_expression_family fuel)).
  unfold var_decl, assignment, print_stmt.
  repeat split; repeat keeps_step.
Qed.

Lemma keeps_statement_family fuel :
  keeps Inv (statement fuel) /\
  keeps Inv (block fuel) /\
  keeps Inv (if_stmt fuel) /\
  keeps Inv (while_loop fuel).
Proof.
  induction fuel as [|fuel IH].
  - repeat split; apply keeps_out_of_fuel.
  - destruct IH as (Hst & Hbl & Hif & Hwh).
    pose proof (proj1 (keeps_expression_family fuel)).
    destruct (keeps_simple_statements fuel) as (Hv & Ha & Hp).
    repeat split; cbn [statement block if_stmt while_loop];
      repeat keeps_step.
Qed.

Lemma keeps_program fuel : keeps Inv (program fuel).
Proof.
  pose proof (proj1 (keeps_statement_family fuel)).
  unfold program. repeat keeps_step.
Qed.

Lemma keeps_grammar_rules (rule : nat -> symbol) fuel :
  In rule grammar_rules -> keeps Inv (rule fuel).
Proof.
  intros Hin.
  pose proof (keeps_expression_family fuel)
    as (He & Hor & Hand & Heq & Hrel & Hadd & Hmul & Hpri).
  pose proof (keeps_statement_family fuel) as (Hst & Hbl & Hif & Hwh).
  pose proof (keeps_simple_statements fuel) as (Hv & Ha & Hp).
  pose proof (keeps_program fuel).
  simpl in Hin.
  repeat (destruct Hin as [<- | Hin]; [assumption|]).
  contradiction.
Qed.

End Invariant.

Lemma in_range_init ts : in_range ts (init ts).
Proof.
  repeat split; [apply cursor_ok_init | simpl; lia].
Qed.

Lemma token_matches_type t ty v :
  token_matches t ty v = true -> type t = ty.
Proof.
  unfold token_matches, TokenType_eqb. intros H.
  apply andb_true_iff in H. destruct H as [H _].
  destruct (TokenType_eq_dec (type t) ty); [assumption | discriminate].
Qed.

(** A token other than end-of-stream is only matched inside the list. *)
Lemma matched_inside ts p ty v :
  tokens p = ts -> cursor_ok p -> ty <> EOF ->
  token_matches (current_token p) ty v = true ->
  pos p < List.length ts.
Proof.
  intros Ht Hc Hty Hm. apply token_matches_type in Hm.
  unfold cursor_ok in Hc. rewrite Ht in Hc.
  destruct (pos p <? List.length ts)%nat eqn:E.
  - now apply Nat.ltb_lt in E.
  - rewrite Hc in Hm. simpl in Hm. congruence.
Qed.

Lemma in_range_snapshot ts p :
  in_range ts p -> snapshot_in_range ts (pos p) (current_token p).
Proof.
  intros (Ht & Hc & Hle). split; [|exact Hle].
  unfold snapshot_ok. rewrite <- Ht. exact Hc.
Qed.

Lemma in_range_restore ts p sp st :
  in_range ts p -> snapshot_in_range ts sp st -> in_range ts (restore p sp st).
Proof.
  intros (Ht & _ & _) (Hs & Hle). unfold in_range, cursor_ok, restore. simpl.
  rewrite Ht. repeat split; assumption.
Qed.

Lemma in_range_consume ts ty v p :
  ty <> EOF -> in_range ts p -> in_range ts (snd (consume_token ty v p)).
Proof.
  intros Hty (Ht & Hc & Hle). unfold consume_token.
  destruct (token_matches (current_token p) ty v) eqn:Hm;
    [|repeat split; assumption].
  pose proof (matched_inside v Ht Hc Hty Hm). simpl.
  unfold in_range, cursor_ok. simpl. repeat split; [assumption | lia].
Qed.

Lemma keeps_in_range_rule ts (rule : nat -> symbol) fuel :
  In rule grammar_rules -> keeps (in_range ts) (rule fuel).
Proof.
  intros Hin.
  apply (@keeps_grammar_rules (in_range ts) (snapshot_in_range ts)
           (@in_range_snapshot ts) (@in_range_restore ts)
           (fun ty v p => @in_range_consume ts ty v p) rule fuel Hin).
Qed.

Lemma keeps_in_range_consume ts ty v :
  ty <> EOF -> keeps (in_range ts) (consume ty v).
Proof.
  intros H. apply keeps_consume; [|exact H].
  intros. now apply in_range_consume.
Qed.

Lemma keeps_in_range_consume_token_or_fail ts ty v msg :
  ty <> EOF -> keeps (in_range ts) (consume_token_or_fail ty v msg).
Proof.
  intros H. apply keeps_consume_token_or_fail; [|exact H].
  intros. now apply in_range_consume.
Qed.

Lemma keeps_in_range_match_operator ts ops :
  no_eof ops -> keeps (in_range ts) (match_operator ops).
Proof.
  intros H. apply keeps_match_operator; [|exact H].
  intros. now apply in_range_consume.
Qed.

(** X3.  From a state over the token list [ts] that obeys the cursor
    invariant with the position at most [len(ts)], every grammar rule
    leaves, returning or raising, such a state again: the tokens are never
    changed, the current token is the one at the position (or the
    sentinel), and the position never runs past the end of the list. *)
Theorem rules_keep_cursor_in_range ts (rule : nat -> symbol) fuel p :
  In rule grammar_rules -> in_range ts p ->
  match rule fuel p with
  | Ok _ q => in_range ts q
  | Raise _ q => in_range ts q
  | Uncaught _ q => in_range ts q
  | OutOfFuel => True
  end.
Proof.
  intros Hin Hp. exact (@keeps_in_range_rule ts rule fuel Hin p Hp).
Qed.

Lemma rules_keep_cursor_in_range_witness :
  match statement 12
          (init [tok PRINT "print"; tok IDENTIFIER "x"; tok SEMICOLON ";"]) with
  | Ok _ q =>
      in_range [tok PRINT "print"; tok IDENTIFIER "x"; tok SEMICOLON ";"] q
  | Raise _ q =>
      in_range [tok PRINT "print"; tok IDENTIFIER "x"; tok SEMICOLON ";"] q
  | Uncaught _ q =>
      in_range [tok PRINT "print"; tok IDENTIFIER "x"; tok SEMICOLON ";"] q
  | OutOfFuel => True
  end.
Proof.
  apply (@rules_keep_cursor_in_range
           [tok PRINT "print"; tok IDENTIFIER "x"; tok SEMICOLON ";"]
           statement 12).
  - simpl. tauto.
  - apply in_range_init.
Defined.

(** X4.  The five combinators keep the same invariant whenever the symbols
    they are given keep it. *)
Theorem combinators_keep_cursor_in_range ts (symbols : list symbol)
    (s : symbol) fuel :
  Forall (keeps (in_range ts)) symbols -> keeps (in_range ts) s ->
  keeps (in_range ts) (parse_sequence symbols) /\
  keeps (in_range ts) (parse_ordered_choice symbols) /\
  keeps (in_range ts) (parse_zero_or_more fuel s) /\
  keeps (in_range ts) (parse_one_or_more fuel s) /\
  keeps (in_range ts) (parse_optional s).
Proof.
  intros Hss Hs.
  pose proof (@in_range_snapshot ts) as H1.
  pose proof (@in_range_restore ts) as H2.
  repeat split.
  - apply keeps_parse_sequence with (Snap := snapshot_in_range ts); assumption.
  - apply keeps_parse_ordered_choice with (Snap := snapshot_in_range ts); assumption.
  - apply keeps_parse_zero_or_more with (Snap := snapshot_in_range ts); assumption.
  - apply keeps_parse_one_or_more with (Snap := snapshot_in_range ts); assumption.
  - apply keeps_parse_optional with (Snap := snapshot_in_range ts); assumption.
Qed.

Lemma combinators_keep_cursor_in_range_witness :
  keeps (in_range [tok NUMBER "7"; eof_token])
    (parse_optional (primary 1)).
Proof.
  apply (@combinators_keep_cursor_in_range [tok NUMBER "7"; eof_token]
           [primary 1] (primary 1) 0).
  - repeat constructor. apply keeps_in_range_rule. simpl. tauto.
  - apply keeps_in_range_rule. simpl. tauto.
Defined.

(** ** Termination: enough fuel always gives an answer *)

Lemma statement_unfold n :
  statement (S n)
  = bind (parse_ordered_choice
            [var_decl n; assignment n; if_stmt n; while_loop n; print_stmt n;
             block n])
      (fun choice_results =>
         match choice_results with
         | [] => raise (SyntaxError "Expected statement" None)
         | first :: _ => ret first
         end).
Proof. reflexivity. Qed.

Lemma total_ret {A} (a : A) : total (ret a).
Proof. intros p. discriminate. Qed.

Lemma total_raise {A} e : total (@raise A e).
Proof. intros p. discriminate. Qed.

Lemma total_rollback_and_raise {A} sp st msg se :
  total (@rollback_and_raise A sp st msg se).
Proof. intros p. discriminate. Qed.

Lemma total_float x : total (float x).
Proof.
  intros p. unfold float, uncaught, ret.
  destruct x as [s|]; [destruct (float_literal s)|]; discriminate.
Qed.

Lemma total_consume ty v : total (consume ty v).
Proof.
  intros p. unfold consume. destruct (consume_token ty v p). discriminate.
Qed.

Lemma total_consume_token_or_fail ty v msg :
  total (consume_token_or_fail ty v msg).
Proof.
  intros p. unfold consume_token_or_fail.
  destruct (consume_token ty v p) as [[t|] q]; discriminate.
Qed.

Lemma answers_total ts r {A} (m : M A) : total m -> answers ts r m.
Proof. intros H p _ _. apply H. Qed.

Lemma answers_le ts r r' {A} (m : M A) :
  r' <= r -> answers ts r m -> answers ts r' m.
Proof. intros Hle H p Hp Hr. apply H; [assumption | lia]. Qed.

Lemma answers_snapshot ts r {A} (k : nat -> Token -> M A) :
  (forall sp st, answers ts r (k sp st)) ->
  answers ts r (bind get_pos
                  (fun sp => bind get_current_token (fun st => k sp st))).
Proof.
  intros Hk p Hp Hr. unfold bind, get_pos, get_current_token. now apply Hk.
Qed.

Lemma answers_bind_stays ts r {A B} (m : M A) (k : A -> M B) :
  keeps (in_range ts) m -> stays m -> answers ts r m ->
  (forall a, answers ts r (k a)) ->
  answers ts r (bind m k).
Proof.
  intros Hk Hs Hm Hcont p Hp Hr. unfold bind.
  specialize (Hk p Hp). specialize (Hm p Hp Hr).
  destruct (m p) as [a q|e q|? ?|] eqn:E; [|discriminate|discriminate|contradiction].
  apply Hs in E. apply Hcont; [exact Hk|]. unfold remaining in *. lia.
Qed.

Lemma answers_bind_advancing ts r {A B} (m : M A) (k : A -> M B) :
  keeps (in_range ts) m -> advancing m -> answers ts r m ->
  (forall a, 1 <= r -> answers ts (r - 1) (k a)) ->
  answers ts r (bind m k).
Proof.
  intros Hk Hs Hm Hcont p Hp Hr. unfold bind.
  specialize (Hk p Hp). specialize (Hm p Hp Hr).
  destruct (m p) as [a q|e q|? ?|] eqn:E; [|discriminate|discriminate|contradiction].
  apply Hs in E. destruct Hk as (Ht & Hc & Hle).
  unfold remaining in *.
  apply Hcont; [lia | repeat split; assumption | unfold remaining; lia].
Qed.

Lemma answers_bind_option ts r {B} (m : M (option Token))
    (k : option Token -> M B) :
  keeps (in_range ts) m -> eats_if_some m -> total m ->
  (forall t, 1 <= r -> answers ts (r - 1) (k (Some t))) ->
  answers ts r (k None) ->
  answers ts r (bind m k).
Proof.
  intros Hk He Hm Hsome Hnone p Hp Hr. unfold bind.
  specialize (Hk p Hp). specialize (Hm p).
  destruct (m p) as [o q|e q|? ?|] eqn:E; [|discriminate|discriminate|contradiction].
  apply He in E. destruct o as [t|].
  - destruct Hk as (Ht & Hc & Hle). unfold remaining in *.
    apply Hsome; [lia | repeat split; assumption | unfold remaining; lia].
  - subst q. now apply Hnone.
Qed.

Lemma answers_try_except ts r {A} (m : M A) (h : exn -> M A) :
  answers ts r m -> (forall e, total (h e)) -> answers ts r (try_except m h).
Proof.
  intros Hm Hh p Hp Hr. unfold try_except. specialize (Hm p Hp Hr).
  destruct (m p) as [a q|e q|? ?|]; [discriminate | apply Hh | discriminate | contradiction].
Qed.

Lemma answers_bind_ret ts r {A B} (a : A) (k : A -> M B) :
  answers ts r (k a) -> answers ts r (bind (ret a) k).
Proof. intros H p Hp Hr. unfold bind, ret. now apply H. Qed.

Lemma answers_bind_try ts r {A B} (m : M A) (h : exn -> M A) (k : A -> M B) :
  keeps (in_range ts) m -> advancing m -> answers ts r m ->
  (forall e, total (h e) /\ never_returns (h e)) ->
  (forall a, 1 <= r -> answers ts (r - 1) (k a)) ->
  answers ts r (bind (try_except m h) k).
Proof.
  intros Hk Ha Hm Hh Hcont p Hp Hr. unfold bind, try_except.
  specialize (Hk p Hp). specialize (Hm p Hp Hr).
  destruct (m p) as [a q|e q|? ?|] eqn:E; [| |discriminate|contradiction].
  - apply Ha in E. destruct Hk as (Ht & Hc & Hle). unfold remaining in *.
    apply Hcont; [lia | repeat split; assumption | unfold remaining; lia].
  - destruct (Hh e) as [Htot Hnev]. specialize (Htot q).
    destruct (h e q) as [a q'|e' q'|? ?|] eqn:Eh;
      [now apply Hnev in Eh | discriminate | discriminate | contradiction].
Qed.

Lemma keeps_in_range_plus_or_minus ts :
  keeps (in_range ts)
    (bind (consume PLUS (Some "+"))
       (fun plus => match plus with
                    | Some _ => ret plus
                    | None => consume MINUS (Some "-")
                    end)).
Proof.
  intros p Hp. unfold bind.
  pose proof (@keeps_in_range_consume ts PLUS (Some "+") ltac:(discriminate) p Hp)
    as H1.
  destruct (consume PLUS (Some "+") p) as [[t|] q|e q|? ?|]; try exact H1.
  apply keeps_in_range_consume; [discriminate | exact H1].
Qed.

Lemma total_plus_or_minus :
  total (bind (consume PLUS (Some "+"))
           (fun plus => match plus with
                        | Some _ => ret plus
                        | None => consume MINUS (Some "-")
                        end)).
Proof.
  intros p. unfold bind.
  pose proof (@total_consume PLUS (Some "+") p) as H1.
  destruct (consume PLUS (Some "+") p) as [[t|] q|e q|? ?|];
    [discriminate | apply total_consume | discriminate | discriminate
    | contradiction].
Qed.

Lemma answers_operator_loop ts ops (operand : symbol) sp st :
  no_eof ops -> keeps (in_range ts) operand -> advancing operand ->
  forall fuel r left,
    r < fuel -> answers ts r operand ->
    answers ts r (operator_loop fuel ops operand sp st left).
Proof.
  intros Hops Hk Ha. induction fuel as [|fuel IH];
    intros r left Hlt Ho p Hp Hr; [lia|].
  simpl. unfold bind, try_except.
  pose proof (@keeps_in_range_match_operator ts ops Hops p Hp) as Hkm.
  destruct (match_operator ops p) as [o p1|e p1|? ?|] eqn:Em;
    [|discriminate|discriminate|now apply match_operator_answers in Em].
  apply eats_if_some_match_operator in Em.
  destruct o as [op|]; [|discriminate].
  destruct Hkm as (Ht1 & Hc1 & Hle1).
  assert (Hp1 : in_range ts p1) by (repeat split; assumption).
  assert (Hr1 : remaining ts p1 <= r - 1 /\ 1 <= r)
    by (unfold remaining in *; lia).
  pose proof (Hk p1 Hp1) as Hk1.
  pose proof (Ho p1 Hp1 ltac:(lia)) as Ho1.
  destruct (operand p1) as [right p2|e p2|? ?|] eqn:Eo;
    [|discriminate|discriminate|contradiction].
  apply Ha in Eo.
  apply IH with (r := r - 1); [lia | apply answers_le with (r := r); [lia|exact Ho]
                              | exact Hk1 | unfold remaining in *; lia].
Qed.

Lemma answers_binary_level ts fuel r ops (operand : symbol) before_msg :
  no_eof ops -> keeps (in_range ts) operand -> advancing operand ->
  r < fuel -> answers ts r operand ->
  answers ts r (binary_level fuel ops operand before_msg).
Proof.
  intros Hops Hk Ha Hlt Ho. unfold binary_level.
  apply answers_snapshot. intros sp st.
  apply answers_bind_try; try assumption.
  - intros e. split; [apply total_rollback_and_raise
                     | apply never_returns_rollback_and_raise].
  - intros left Hr. apply answers_operator_loop; try assumption; [lia|].
    apply answers_le with (r := r); [lia | exact Ho].
Qed.

Lemma answers_ordered_choice_loop ts r sp st ss :
  snapshot_in_range ts sp st -> List.length ts - sp <= r ->
  Forall (fun s => keeps (in_range ts) s /\ answers ts r s) ss ->
  answers ts r (ordered_choice_loop sp st ss).
Proof.
  intros Hsnap Hsp. induction 1 as [|s rest [Hk Hs] _ IH];
    intros p Hp Hr; simpl; [discriminate|].
  specialize (Hk p Hp). specialize (Hs p Hp Hr).
  destruct (s p) as [v q|e q|? ?|]; [discriminate | | discriminate | contradiction].
  apply IH; [now apply in_range_restore | exact Hsp].
Qed.

Lemma answers_parse_ordered_choice ts r ss :
  Forall (fun s => keeps (in_range ts) s /\ answers ts r s) ss ->
  answers ts r (parse_ordered_choice ss).
Proof.
  intros H. destruct ss as [|s rest]; [apply answers_total, total_raise|].
  unfold parse_ordered_choice. intros p Hp Hr.
  unfold bind, get_pos, get_current_token.
  apply answers_ordered_choice_loop with (ts := ts) (r := r); try assumption.
  now apply in_range_snapshot.
Qed.

Lemma keeps_in_range_parse_ordered_choice ts ss :
  Forall (keeps (in_range ts)) ss -> keeps (in_range ts) (parse_ordered_choice ss).
Proof.
  intros H.
  apply keeps_parse_ordered_choice with (Snap := snapshot_in_range ts);
    [apply in_range_snapshot | apply in_range_restore | exact H].
Qed.

Lemma keeps_in_range_parse_zero_or_more ts fuel (s : symbol) :
  keeps (in_range ts) s -> keeps (in_range ts) (parse_zero_or_more fuel s).
Proof.
  intros H.
  apply keeps_parse_zero_or_more with (Snap := snapshot_in_range ts);
    [apply in_range_snapshot | apply in_range_restore | exact H].
Qed.

Lemma keeps_in_range_parse_one_or_more ts fuel (s : symbol) :
  keeps (in_range ts) s -> keeps (in_range ts) (parse_one_or_more fuel s).
Proof.
  intros H.
  apply keeps_parse_one_or_more with (Snap := snapshot_in_range ts);
    [apply in_range_snapshot | apply in_range_restore | exact H].
Qed.

Lemma answers_zero_or_more_loop ts (s : symbol) :
  keeps (in_range ts) s -> stays s ->
  forall fuel r results,
    r < fuel -> answers ts r s ->
    answers ts r (zero_or_more_loop fuel s results).
Proof.
  intros Hk Hst. induction fuel as [|fuel IH];
    intros r results Hlt Hs p Hp Hr; [lia|].
  simpl. specialize (Hk p Hp). pose proof (Hs p Hp Hr) as Hsp.
  destruct (s p) as [v q|e q|? ?|] eqn:E; [|discriminate|discriminate|contradiction].
  apply Hst in E. destruct (pos p =? pos q)%nat eqn:Epos; [discriminate|].
  apply Nat.eqb_neq in Epos. destruct Hk as (Ht & Hc & Hle).
  unfold remaining in *.
  apply IH with (r := r - 1);
    [lia | apply answers_le with (r := r); [lia | exact Hs]
    | repeat split; assumption | unfold remaining; lia].
Qed.

Lemma answers_parse_zero_or_more ts fuel r (s : symbol) :
  keeps (in_range ts) s -> stays s -> r < fuel -> answers ts r s ->
  answers ts r (parse_zero_or_more fuel s).
Proof. intros. now apply answers_zero_or_more_loop. Qed.

Lemma answers_parse_one_or_more ts fuel r (s : symbol) :
  keeps (in_range ts) s -> advancing s -> r < fuel -> answers ts r s ->
  answers ts r (parse_one_or_more fuel s).
Proof.
  intros Hk Ha Hlt Hs. unfold parse_one_or_more.
  apply answers_snapshot. intros sp st.
  apply answers_bind_try; try assumption.
  - intros e. split; [apply total_rollback_and_raise
                     | apply never_returns_rollback_and_raise].
  - intros first Hr. destruct (negb (truthy first));
      [apply answers_total, total_ret|].
    apply answers_bind_stays.
    + now apply keeps_in_range_parse_zero_or_more.
    + apply stays_parse_zero_or_more. now apply advancing_stays.
    + apply answers_parse_zero_or_more; try assumption;
        [now apply advancing_stays | lia
        | apply answers_le with (r := r); [lia | exact Hs]].
    + intros [|x l]; apply answers_total, total_ret.
Qed.

Lemma answers_bind_total ts r {A B} (m : M A) (k : A -> M B) :
  answers ts r m -> (forall a, total (k a)) -> answers ts r (bind m k).
Proof.
  intros Hm Hk p Hp Hr. unfold bind. specialize (Hm p Hp Hr).
  destruct (m p) as [a q|e q|? ?|]; [apply Hk | discriminate | discriminate | contradiction].
Qed.

Ltac in_rules := simpl; tauto.

Ltac use_budget :=
  match goal with
  | H : forall r, _ -> answers ?ts r ?m |- answers ?ts _ ?m => apply H; lia
  end.

Ltac answers_step :=
  match goal with
  | |- answers _ _ (bind get_pos _) => apply answers_snapshot; intros ? ?
  | |- answers _ _ (bind (consume_token_or_fail _ _ _) _) =>
      apply answers_bind_advancing;
      [ apply keeps_in_range_consume_token_or_fail; discriminate
      | apply advancing_consume_token_or_fail
      | apply answers_total, total_consume_token_or_fail
      | intros ? ? ]
  | |- answers _ _ (bind (consume _ _) _) =>
      apply answers_bind_option;
      [ apply keeps_in_range_consume; discriminate
      | apply eats_if_some_consume
      | apply total_consume
      | intros ? ?
      | ]
  | |- answers _ _ (bind (bind (consume _ _) _) _) =>
      apply answers_bind_option;
      [ apply keeps_in_range_plus_or_minus
      | apply eats_if_some_or; apply eats_if_some_consume
      | apply total_plus_or_minus
      | intros ? ?
      | ]
  | |- answers _ _ (bind (try_except _ _) _) =>
      apply answers_bind_try;
      [ apply keeps_in_range_rule; in_rules
      | apply advancing_rule; in_rules
      | use_budget
      | intros ?; split; [apply total_rollback_and_raise
                         | apply never_returns_rollback_and_raise]
      | intros ? ? ]
  | |- answers _ _ (bind (parse_zero_or_more _ _) _) =>
      apply answers_bind_stays;
      [ apply keeps_in_range_parse_zero_or_more;
        apply keeps_in_range_rule; in_rules
      | apply stays_parse_zero_or_more, advancing_stays, advancing_rule;
        in_rules
      | apply answers_parse_zero_or_more;
        [ apply keeps_in_range_rule; in_rules
        | apply advancing_stays, advancing_rule; in_rules
        | lia
        | use_budget ]
      | intros ? ]
  | |- answers _ _ (bind (float _) _) =>
      apply answers_bind_total;
      [apply answers_total, total_float | intros ?; apply total_ret]
  | |- answers _ _ (bind (match ?x with _ => _ end) _) => destruct x
  | |- answers _ _ (bind (ret _) _) => apply answers_bind_ret
  | |- answers _ _ (match ?x with _ => _ end) => destruct x
  | |- answers _ _ (ret _) => apply answers_total, total_ret
  | |- answers _ _ (raise _) => apply answers_total, total_raise
  | |- answers _ _ (try_except _ _) =>
      apply answers_try_except; [use_budget | intros ?; apply total_raise]
  | |- answers _ _ (binary_level _ _ _ _) =>
      apply answers_binary_level;
      [ repeat constructor; simpl; discriminate
      | apply keeps_in_range_rule; in_rules
      | apply advancing_rule; in_rules
      | lia
      | use_budget ]
  end.

Lemma answers_expression_family ts n :
  forall r,
    (8 * r + 8 <= n -> answers ts r (expression n)) /\
    (8 * r + 7 <= n -> answers ts r (logical_or n)) /\
    (8 * r + 6 <= n -> answers ts r (logical_and n)) /\
    (8 * r + 5 <= n -> answers ts r (equality n)) /\
    (8 * r + 4 <= n -> answers ts r (relational n)) /\
    (8 * r + 3 <= n -> answers ts r (additive n)) /\
    (8 * r + 2 <= n -> answers ts r (multiplicative n)) /\
    (8 * r + 1 <= n -> answers ts r (primary n)).
Proof.
  induction n as [|n IH]; intros r.
  - repeat split; intros; lia.
  - assert (He : forall r, 8 * r + 8 <= n -> answers ts r (expression n))
      by (intros; now apply IH).
    assert (Hor : forall r, 8 * r + 7 <= n -> answers ts r (logical_or n))
      by (intros; now apply IH).
    assert (Hand : forall r, 8 * r + 6 <= n -> answers ts r (logical_and n))
      by (intros; now apply IH).
    assert (Heq : forall r, 8 * r + 5 <= n -> answers ts r (equality n))
      by (intros; now apply IH).
    assert (Hrel : forall r, 8 * r + 4 <= n -> answers ts r (relational n))
      by (intros; now apply IH).
    assert (Hadd : forall r, 8 * r + 3 <= n -> answers ts r (additive n))
      by (intros; now apply IH).
    assert (Hmul : forall r, 8 * r + 2 <= n -> answers ts r (multiplicative n))
      by (intros; now apply IH).
    assert (Hpri : forall r, 8 * r + 1 <= n -> answers ts r (primary n))
      by (intros; now apply IH).
    clear IH.
    repeat split; intros Hb; simpl; repeat answers_step.
Qed.

Lemma answers_expression ts n r :
  8 * r + 8 <= n -> answers ts r (expression n).
Proof. apply answers_expression_family. Qed.

Lemma answers_simple_statements ts n r :
  8 * r + 8 <= n ->
  answers ts r (var_decl n) /\
  answers ts r (assignment n) /\
  answers ts r (print_stmt n).
Proof.
  intros Hb.
  assert (He : forall r', 8 * r' + 8 <= n -> answers ts r' (expression n))
    by (intros; now apply answers_expression).
  unfold var_decl, assignment, print_stmt.
  repeat split; repeat answers_step.
Qed.

Lemma answers_statement_family ts n :
  forall r,
    (8 * r + 10 <= n -> answers ts r (statement n)) /\
    (8 * r + 9 <= n -> answers ts r (block n)) /\
    (8 * r + 9 <= n -> answers ts r (if_stmt n)) /\
    (8 * r + 9 <= n -> answers ts r (while_loop n)).
Proof.
  induction n as [|n IH]; intros r.
  - repeat split; intros; lia.
  - assert (Hst : forall r, 8 * r + 10 <= n -> answers ts r (statement n))
      by (intros; now apply IH).
    assert (Hbl : forall r, 8 * r + 9 <= n -> answers ts r (block n))
      by (intros; now apply IH).
    assert (Hif : forall r, 8 * r + 9 <= n -> answers ts r (if_stmt n))
      by (intros; now apply IH).
    assert (Hwh : forall r, 8 * r + 9 <= n -> answers ts r (while_loop n))
      by (intros; now apply IH).
    assert (He : forall r, 8 * r + 8 <= n -> answers ts r (expression n))
      by (intros; now apply answers_expression).
    clear IH.
    split; [|repeat split; intros Hb; cbn [block if_stmt while_loop];
             repeat answers_step].
    intros Hb. rewrite statement_unfold.
    apply answers_bind_total;
      [|intros [|first rest]; [apply total_raise | apply total_ret]].
    destruct (@answers_simple_statements ts n r ltac:(lia)) as (Hv & Ha & Hp).
    apply answers_parse_ordered_choice.
    repeat constructor;
      first [apply keeps_in_range_rule; in_rules | assumption | use_budget].
Qed.

Lemma answers_program ts n r :
  8 * r + 10 <= n -> answers ts r (program n).
Proof.
  intros Hb. unfold program.
  apply answers_bind_total;
    [|intros [|first rest]; [apply total_raise | apply total_ret]].
  apply answers_parse_one_or_more;
    [apply keeps_in_range_rule; in_rules | apply advancing_rule; in_rules
    | lia | now apply answers_statement_family].
Qed.

Lemma answers_rule ts (rule : nat -> symbol) n r :
  In rule grammar_rules -> 8 * r + 10 <= n -> answers ts r (rule n).
Proof.
  intros Hin Hb.
  pose proof (answers_expression_family ts n r)
    as (He & Hor & Hand & Heq & Hrel & Hadd & Hmul & Hpri).
  pose proof (answers_statement_family ts n r) as (Hst & Hbl & Hif & Hwh).
  destruct (@answers_simple_statements ts n r ltac:(lia)) as (Hv & Ha & Hp).
  pose proof (@answers_program ts n r Hb) as Hprog.
  simpl in Hin.
  repeat (destruct Hin as [<- | Hin];
          [first [assumption
                 | match goal with H : _ -> answers ts r ?m |- answers ts r ?m =>
                     apply H; lia end]|]).
  contradiction.
Qed.

Lemma fuel_le_rule (rule : nat -> symbol) n m :
  In rule grammar_rules -> n <= m -> fuel_le (rule n) (rule m).
Proof.
  intros Hin Hnm.
  pose proof (expression_family_fuel_mono Hnm)
    as (He & Hor & Hand & Heq & Hrel & Hadd & Hmul & Hpri).
  pose proof (statement_family_fuel_mono Hnm) as (Hst & Hbl & Hif & Hwh).
  simpl in Hin.
  repeat (destruct Hin as [<- | Hin];
          [auto using program_fuel_mono, var_decl_fuel_mono,
             assignment_fuel_mono, print_stmt_fuel_mono|]).
  contradiction.
Qed.

(** X5.  The parser terminates.  In a state in range, every grammar rule
    called with fuel at least [8 * tokens_left + 10] returns or raises, and
    its answer is the same for every such fuel; in particular [program]
    answers on every token list. *)
Theorem rules_terminate ts (rule : nat -> symbol) fuel p :
  In rule grammar_rules -> in_range ts p -> enough_fuel ts p <= fuel ->
  rule fuel p <> OutOfFuel /\
  rule fuel p = rule (enough_fuel ts p) p.
Proof.
  intros Hin Hp Hfuel.
  assert (H : rule (enough_fuel ts p) p <> OutOfFuel).
  { apply (@answers_rule ts rule (enough_fuel ts p) (remaining ts p));
      [assumption | unfold enough_fuel; lia | assumption | lia]. }
  assert (E : rule fuel p = rule (enough_fuel ts p) p)
    by (apply (fuel_le_rule Hin Hfuel); exact H).
  split; [congruence | exact E].
Qed.

Lemma rules_terminate_witness :
  program 26 (init [tok VAR "var"; tok SEMICOLON ";"]) <> OutOfFuel.
Proof.
  apply (@rules_terminate [tok VAR "var"; tok SEMICOLON ";"] program 26).
  - simpl. tauto.
  - apply in_range_init.
  - vm_compute. apply le_n.
Defined.

(** ** The grammar of the docstrings, and the parser's soundness for it

    The grammar is stated over positions of a token list [ts]:
    [derives_... ts i j v] says that the tokens from index [i] up to, not
    including, index [j] form the construct and that [v] is its tree.
    Binary levels are the left-recursive rules
    [level ::= operand | level op operand]. *)

Lemma bind_ok {A B} (m : M A) (k : A -> M B) p b q :
  bind m k p = Ok b q -> exists a p1, m p = Ok a p1 /\ k a p1 = Ok b q.
Proof.
  unfold bind. destruct (m p) as [a p1|e p1|? ?|]; try discriminate. eauto.
Qed.

Lemma try_rollback_ok {A} (m : M A) sp st msg p a q :
  try_except m (rollback_and_raise sp st msg) p = Ok a q -> m p = Ok a q.
Proof.
  unfold try_except. destruct (m p) as [a' p1|e p1|? ?|]; try discriminate.
  trivial.
Qed.

Lemma current_token_at ts p ty v :
  in_range ts p -> ty <> EOF ->
  token_matches (current_token p) ty v = true ->
  token_at ts (pos p) ty v (current_token p).
Proof.
  intros (Ht & Hc & Hle) Hty Hm.
  pose proof (@matched_inside ts p ty v Ht Hc Hty Hm) as Hlt.
  split; [|exact Hm].
  unfold cursor_ok in Hc. rewrite Ht in Hc.
  apply Nat.ltb_lt in Hlt as Hb. rewrite Hb in Hc. rewrite Hc.
  now apply nth_error_nth'.
Qed.

Lemma consume_token_inv ts ty v p t p1 :
  in_range ts p -> ty <> EOF ->
  consume_token ty v p = (Some t, p1) ->
  token_at ts (pos p) ty v t /\ pos p1 = S (pos p) /\ in_range ts p1.
Proof.
  intros Hp Hty E.
  pose proof (@in_range_consume ts ty v p Hty Hp) as Hq. rewrite E in Hq.
  apply consume_token_some in E. destruct E as (-> & Hm & ->).
  split; [now apply current_token_at|].
  split; [simpl; lia | exact Hq].
Qed.

Lemma consume_inv ts ty v p o p1 :
  in_range ts p -> ty <> EOF ->
  consume ty v p = Ok o p1 ->
  match o with
  | None => p1 = p
  | Some t => token_at ts (pos p) ty v t /\ pos p1 = S (pos p) /\ in_range ts p1
  end.
Proof.
  intros Hp Hty E. unfold consume in E.
  destruct (consume_token ty v p) as [o' p'] eqn:Ec. inversion E; subst.
  destruct o as [t|].
  - now apply consume_token_inv.
  - now apply consume_token_none in Ec.
Qed.

Lemma consume_token_or_fail_inv ts ty v msg p t p1 :
  in_range ts p -> ty <> EOF ->
  consume_token_or_fail ty v msg p = Ok t p1 ->
  token_at ts (pos p) ty v t /\ pos p1 = S (pos p) /\ in_range ts p1.
Proof.
  intros Hp Hty E. apply consume_token_or_fail_ok in E.
  now apply consume_token_inv.
Qed.

Lemma match_operator_inv ts ops :
  no_eof ops ->
  forall p o p1,
    in_range ts p ->
    match_operator ops p = Ok o p1 ->
    match o with
    | None => p1 = p
    | Some op =>
        exists ty t,
          In (ty, op) ops /\ token_at ts (pos p) ty (Some op) t /\
          pos p1 = S (pos p) /\ in_range ts p1
    end.
Proof.
  induction 1 as [|[ty op] rest Hty _ IH]; intros p o p1 Hp H; simpl in H.
  - inversion H; subst. reflexivity.
  - apply bind_ok in H. destruct H as (t & p2 & E & H).
    apply (@consume_inv ts _ _ _ _ _ Hp Hty) in E. destruct t as [t|].
    + inversion H; subst. exists ty, t. simpl. tauto.
    + subst p2. specialize (IH _ _ _ Hp H). destruct o as [op'|]; [|exact IH].
      destruct IH as (ty' & t' & Hin & Hrest). exists ty', t'. simpl. tauto.
Qed.

Lemma float_ok x p a q :
  float x p = Ok a q ->
  a = FFloat x /\ q = p /\ exists s, x = Some s /\ float_literal s = true.
Proof.
  unfold float, uncaught, ret. intros H.
  destruct x as [s|]; [|discriminate].
  destruct (float_literal s) eqn:E; inversion H; subst. eauto.
Qed.

Section Soundness.

Variable ts : list Token.

Lemma operator_loop_sound fuel ops (operand : symbol) derives sp st :
  no_eof ops -> keeps (in_range ts) operand ->
  sound_for ts operand derives ->
  forall left p v q i,
    in_range ts p ->
    chain ts ops derives i (pos p) left ->
    operator_loop fuel ops operand sp st left p = Ok v q ->
    chain ts ops derives i (pos q) v.
Proof.
  intros Hops Hk Hs. induction fuel as [|fuel IH];
    intros left p v q i Hp Hleft H; simpl in H; [discriminate|].
  apply bind_ok in H. destruct H as (o & p1 & Em & H).
  apply (@match_operator_inv ts ops Hops _ _ _ Hp) in Em. destruct o as [op|].
  - destruct Em as (ty & t & Hin & Htok & Hpos & Hp1).
    apply bind_ok in H. destruct H as (right & p2 & Eo & H).
    apply try_rollback_ok in Eo.
    pose proof (Hk p1 Hp1) as Hp2. rewrite Eo in Hp2.
    apply (Hs _ _ _ Hp1) in Eo. rewrite Hpos in Eo.
    apply (IH _ _ _ _ i Hp2) in H; [exact H|].
    eapply chain_operator; eauto.
  - subst p1. inversion H; subst. exact Hleft.
Qed.

Lemma binary_level_sound fuel ops (operand : symbol) derives before_msg :
  no_eof ops -> keeps (in_range ts) operand ->
  sound_for ts operand derives ->
  sound_for ts (binary_level fuel ops operand before_msg)
    (chain ts ops derives).
Proof.
  intros Hops Hk Hs p v q Hp H. unfold binary_level in H.
  unfold bind at 1 2 in H. unfold get_pos, get_current_token in H.
  apply bind_ok in H. destruct H as (left & p1 & Eo & H).
  apply try_rollback_ok in Eo.
  pose proof (Hk p Hp) as Hp1. rewrite Eo in Hp1.
  apply (Hs _ _ _ Hp) in Eo.
  eapply operator_loop_sound; eauto. now apply chain_operand.
Qed.

(** One step of reading the successful run of a rule body. *)
Ltac run_step :=
  match goal with
  | H : bind get_pos _ _ = Ok _ _ |- _ =>
      unfold bind at 1 in H; unfold get_pos at 1 in H
  | H : bind get_current_token _ _ = Ok _ _ |- _ =>
      unfold bind at 1 in H; unfold get_current_token at 1 in H
  | H : bind _ _ _ = Ok _ _ |- _ =>
      apply bind_ok in H;
      let a := fresh "a" in
      let q := fresh "q" in
      let E := fresh "E" in
      destruct H as (a & q & E & H)
  | H : try_except _ (rollback_and_raise _ _ _) _ = Ok _ _ |- _ =>
      apply try_rollback_ok in H
  | H : ret _ _ = Ok _ _ |- _ => inversion H; subst; clear H
  | H : raise _ _ = Ok _ _ |- _ => discriminate H
  | H : float _ _ = Ok _ _ |- _ =>
      apply float_ok in H; destruct H as (? & ? & _); subst
  | Hp : in_range ts ?p, H : consume _ _ ?p = Ok ?o _ |- _ =>
      apply (@consume_inv ts _ _ _ _ _ Hp) in H; [|discriminate];
      destruct o;
      [ let Htok := fresh "Htok" in
        let Hpos := fresh "Hpos" in
        let Hin := fresh "Hin" in
        destruct H as (Htok & Hpos & Hin)
      | subst ]
  | Hp : in_range ts ?p, H : consume_token_or_fail _ _ _ ?p = Ok _ _ |- _ =>
      apply (@consume_token_or_fail_inv ts _ _ _ _ _ _ Hp) in H; [|discriminate];
      let Htok := fresh "Htok" in
      let Hpos := fresh "Hpos" in
      let Hin := fresh "Hin" in
      destruct H as (Htok & Hpos & Hin)
  | Hp : in_range ts ?p, Hk : keeps (in_range ts) ?m,
    Hs : sound_for ts ?m _, H : ?m ?p = Ok _ ?q |- _ =>
      let Hin := fresh "Hin" in
      pose proof (Hk p Hp) as Hin; rewrite H in Hin;
      apply (Hs _ _ _ Hp) in H
  end.

Ltac run := repeat (run_step; cbv beta iota in * ).

Ltac positions :=
  repeat match goal with
         | H : pos _ = S _ |- _ => rewrite H in *; clear H
         end.

Lemma primary_sound_of n :
  keeps (in_range ts) (expression n) ->
  sound_for ts (expression n) (derives_expression ts) ->
  keeps (in_range ts) (primary n) ->
  sound_for ts (primary n) (derives_primary ts) ->
  sound_for ts (primary (S n)) (derives_primary ts).
Proof.
  intros Hke Hse Hkp Hsp p v q Hp H. simpl in H.
  run; positions.
  - apply derives_number. assumption.
  - apply derives_identifier. assumption.
  - eapply derives_parenthesized; eauto.
  - eapply derives_unary; eauto.
  - eapply derives_unary; eauto.
Qed.

Lemma try_wrap_ok {A} (m : M A) (wrap : exn -> exn) p a q :
  try_except m (fun se => raise (wrap se)) p = Ok a q -> m p = Ok a q.
Proof.
  unfold try_except. destruct (m p) as [a' p1|e p1|? ?|]; try discriminate.
  trivial.
Qed.

Lemma expression_family_sound n :
  sound_for ts (expression n) (derives_expression ts) /\
  sound_for ts (logical_or n) (derives_logical_or ts) /\
  sound_for ts (logical_and n) (derives_logical_and ts) /\
  sound_for ts (equality n) (derives_equality ts) /\
  sound_for ts (relational n) (derives_relational ts) /\
  sound_for ts (additive n) (derives_additive ts) /\
  sound_for ts (multiplicative n) (derives_multiplicative ts) /\
  sound_for ts (primary n) (derives_primary ts).
Proof.
  induction n as [|n IH].
  - repeat split; intros p v q _ H; discriminate H.
  - destruct IH as (He & Hor & Hand & Heq & Hrel & Hadd & Hmul & Hpri).
    assert (Hk : forall rule, In rule grammar_rules ->
                              keeps (in_range ts) (rule n))
      by (intros; now apply keeps_in_range_rule).
    split; [|split; [|split; [|split; [|split; [|split; [|split]]]]]].
    + intros p v q Hp H. simpl in H. apply try_wrap_ok in H.
      now apply Hor.
    + apply binary_level_sound;
        [repeat constructor; simpl; discriminate | apply Hk; in_rules
        | exact Hand].
    + apply binary_level_sound;
        [repeat constructor; simpl; discriminate | apply Hk; in_rules
        | exact Heq].
    + apply binary_level_sound;
        [repeat constructor; simpl; discriminate | apply Hk; in_rules
        | exact Hrel].
    + apply binary_level_sound;
        [repeat constructor; simpl; discriminate | apply Hk; in_rules
        | exact Hadd].
    + apply binary_level_sound;
        [repeat constructor; simpl; discriminate | apply Hk; in_rules
        | exact Hmul].
    + apply binary_level_sound;
        [repeat constructor; simpl; discriminate | apply Hk; in_rules
        | exact Hpri].
    + apply primary_sound_of; try assumption; apply Hk; in_rules.
Qed.

Lemma expression_sound n :
  sound_for ts (expression n) (derives_expression ts).
Proof. apply expression_family_sound. Qed.

Lemma simple_statements_sound n :
  sound_for ts (var_decl n) (derives_statement ts) /\
  sound_for ts (assignment n) (derives_statement ts) /\
  sound_for ts (print_stmt n) (derives_statement ts).
Proof.
  pose proof (expression_sound n) as Hse.
  assert (Hke : keeps (in_range ts) (expression n))
    by (apply keeps_in_range_rule; in_rules).
  repeat split; intros p v q Hp H;
    unfold var_decl, assignment, print_stmt in H; run; positions.
  - eapply derives_var_decl_init; eauto.
  - eapply derives_var_decl; eauto.
  - eapply derives_assignment; eauto.
  - eapply derives_print; eauto.
Qed.

Lemma ordered_choice_loop_sound sp st ss derives :
  snapshot_in_range ts sp st ->
  Forall (fun s => keeps (in_range ts) s /\ sound_for ts s derives) ss ->
  forall p rs q,
    in_range ts p -> pos p = sp ->
    ordered_choice_loop sp st ss p = Ok rs q ->
    rs = [] \/ exists r, rs = [r] /\ derives sp (pos q) r.
Proof.
  intros Hsnap. induction 1 as [|s rest [Hk Hs] _ IH];
    intros p rs q Hp Hpos H; simpl in H.
  - inversion H. now left.
  - pose proof (Hk p Hp) as Hq.
    destruct (s p) as [r p1|e p1|? ?|] eqn:E; try discriminate.
    + inversion H; subst. right. exists r. split; [reflexivity|].
      now apply (Hs _ _ _ Hp).
    + apply (IH (restore p1 sp st) rs q);
        [now apply in_range_restore | reflexivity | exact H].
Qed.

Lemma zero_or_more_loop_sound_for fuel (s : symbol) derives :
  keeps (in_range ts) s -> sound_for ts s derives ->
  forall results p rs q,
    in_range ts p ->
    zero_or_more_loop fuel s results p = Ok rs q ->
    in_range ts q /\
    exists rs', rs = results ++ rs' /\
                sequence_of derives (pos p) (pos q) rs'.
Proof.
  intros Hk Hs. induction fuel as [|fuel IH];
    intros results p rs q Hp H; simpl in H; [discriminate|].
  pose proof (Hk p Hp) as Hq.
  destruct (s p) as [r p1|e p1|? ?|] eqn:E; try discriminate.
  - apply (Hs _ _ _ Hp) in E.
    destruct (pos p =? pos p1)%nat.
    + inversion H; subst. split; [exact Hq|]. exists [r].
      split; [reflexivity|]. eapply sequence_cons; [exact E|constructor].
    + apply (IH _ _ _ _ Hq) in H. destruct H as (Hin & rs' & -> & Hseq).
      split; [exact Hin|]. exists (r :: rs'). rewrite <- app_assoc.
      split; [reflexivity|]. eapply sequence_cons; eauto.
  - inversion H; subst. split.
    + apply in_range_restore; [exact Hq | now apply in_range_snapshot].
    + exists []. rewrite app_nil_r. split; [reflexivity | constructor].
Qed.

Lemma parse_zero_or_more_sound_for fuel (s : symbol) derives p rs q :
  keeps (in_range ts) s -> sound_for ts s derives ->
  in_range ts p ->
  parse_zero_or_more fuel s p = Ok rs q ->
  in_range ts q /\ sequence_of derives (pos p) (pos q) rs.
Proof.
  intros Hk Hs Hp H.
  unfold parse_zero_or_more in H.
  eapply zero_or_more_loop_sound_for in H; [|exact Hk|exact Hs|exact Hp].
  destruct H as (Hq & rs' & -> & Hseq). now split.
Qed.

Ltac run_repetition :=
  match goal with
  | Hp : in_range ts ?p, Hk : keeps (in_range ts) ?s,
    Hs : sound_for ts ?s _,
    H : parse_zero_or_more _ ?s ?p = Ok _ _ |- _ =>
      eapply parse_zero_or_more_sound_for in H;
      [|exact Hk|exact Hs|exact Hp];
      let Hin := fresh "Hin" in
      destruct H as (Hin & H)
  end.

Lemma statement_family_sound n :
  sound_for ts (statement n) (derives_statement ts) /\
  sound_for ts (block n) (derives_statement ts) /\
  sound_for ts (if_stmt n) (derives_statement ts) /\
  sound_for ts (while_loop n) (derives_statement ts).
Proof.
  induction n as [|n IH].
  - repeat split; intros p v q _ H; discriminate H.
  - destruct IH as (Hst & Hbl & Hif & Hwh).
    pose proof (expression_sound n) as Hse.
    destruct (simple_statements_sound n) as (Hv & Ha & Hpr).
    assert (Hk : forall rule, In rule grammar_rules ->
                              keeps (in_range ts) (rule n))
      by (intros; now apply keeps_in_range_rule).
    assert (Hke : keeps (in_range ts) (expression n)) by (apply Hk; in_rules).
    assert (Hks : keeps (in_range ts) (statement n)) by (apply Hk; in_rules).
    split; [|split; [|split]].
    + intros p v q Hp H. rewrite statement_unfold in H.
      apply bind_ok in H. destruct H as (rs & p1 & E & H).
      unfold parse_ordered_choice, bind, get_pos, get_current_token in E.
      apply ordered_choice_loop_sound with (derives := derives_statement ts)
        in E; [|now apply in_range_snapshot| |exact Hp|reflexivity].
      * destruct E as [->|(r & -> & Hd)]; [discriminate|].
        inversion H; subst. exact Hd.
      * repeat constructor; try assumption; apply Hk; in_rules.
    + intros p v q Hp H. cbn [block] in H.
      run; try run_repetition; run; positions.
      eapply derives_block; eauto.
    + intros p v q Hp H. cbn [if_stmt] in H. run; positions.
      * eapply derives_if_else; eauto.
      * eapply derives_if; eauto.
    + intros p v q Hp H. cbn [while_loop] in H. run; positions.
      eapply derives_while; eauto.
Qed.

Lemma derives_statement_truthy_dict i j v :
  derives_statement ts i j v -> truthy v = true /\ as_list v = [v].
Proof. intros H. destruct H; split; reflexivity. Qed.

Lemma program_sound n :
  sound_for ts (program n) (derives_program ts).
Proof.
  intros p v q Hp H.
  destruct (statement_family_sound n) as (Hst & _).
  assert (Hks : keeps (in_range ts) (statement n))
    by (apply keeps_in_range_rule; in_rules).
  unfold program in H. apply bind_ok in H. destruct H as (rs & p1 & E & H).
  unfold parse_one_or_more in E.
  unfold bind at 1 2 in E. unfold get_pos, get_current_token in E.
  apply bind_ok in E. destruct E as (first & p2 & Ef & E).
  apply try_rollback_ok in Ef.
  pose proof (Hks p Hp) as Hp2. rewrite Ef in Hp2.
  apply (Hst _ _ _ Hp) in Ef.
  destruct (derives_statement_truthy_dict Ef) as (Ht & Hl).
  rewrite Ht, Hl in E. simpl negb in E. cbv iota in E.
  apply bind_ok in E. destruct E as (rest & p3 & Ez & E).
  eapply parse_zero_or_more_sound_for in Ez; [|exact Hks|exact Hst|exact Hp2].
  destruct Ez as (Hp3 & Hseq).
  assert (Hbody : rs = first :: rest /\ p1 = p3)
    by (destruct rest; inversion E; subst; split; reflexivity).
  destruct Hbody as (-> & ->). inversion H; subst.
  exists (first :: rest). split; [discriminate|]. split; [|reflexivity].
  eapply sequence_cons; eauto.
Qed.

End Soundness.

(** X6.  Soundness of the expression rules for the grammar of their
    docstrings: started in a state in range, a rule that returns tree [v]
    has consumed exactly the tokens of a derivation of its level with tree
    [v] -- operands and operators where the grammar puts them, and binary
    chains nested to the left. *)
Theorem expression_rules_sound ts fuel p v q :
  in_range ts p ->
  (expression fuel p = Ok v q -> derives_expression ts (pos p) (pos q) v) /\
  (logical_or fuel p = Ok v q -> derives_logical_or ts (pos p) (pos q) v) /\
  (logical_and fuel p = Ok v q -> derives_logical_and ts (pos p) (pos q) v) /\
  (equality fuel p = Ok v q -> derives_equality ts (pos p) (pos q) v) /\
  (relational fuel p = Ok v q -> derives_relational ts (pos p) (pos q) v) /\
  (additive fuel p = Ok v q -> derives_additive ts (pos p) (pos q) v) /\
  (multiplicative fuel p = Ok v q ->
   derives_multiplicative ts (pos p) (pos q) v) /\
  (primary fuel p = Ok v q -> derives_primary ts (pos p) (pos q) v).
Proof.
  intros Hp.
  destruct (expression_family_sound ts fuel)
    as (He & Hor & Hand & Heq & Hrel & Hadd & Hmul & Hpri).
  repeat split; intros H;
    [apply He | apply Hor | apply Hand | apply Heq | apply Hrel | apply Hadd
    | apply Hmul | apply Hpri]; assumption.
Qed.

Lemma expression_rules_sound_witness :
  derives_primary [tok NUMBER "7"; eof_token] 0 1
    (node "number" [("value", FFloat (Some "7"))]).
Proof.
  destruct (@expression_rules_sound [tok NUMBER "7"; eof_token] 1
              (init [tok NUMBER "7"; eof_token])
              (node "number" [("value", FFloat (Some "7"))])
              (mkParser [tok NUMBER "7"; eof_token] 1 eof_token))
    as (_ & _ & _ & _ & _ & _ & _ & Hpri).
  - apply in_range_init.
  - apply Hpri. vm_compute. reflexivity.
Defined.

(** X7.  Soundness of the statement rules and of [program]: started in a
    state in range, a statement rule that returns [v] has consumed the
    tokens of a derivation of [statement] with tree [v], and [program] those
    of one or more statements, its [body] being their trees in order. *)
Theorem statement_rules_sound ts fuel p v q :
  in_range ts p ->
  (program fuel p = Ok v q -> derives_program ts (pos p) (pos q) v) /\
  (statement fuel p = Ok v q -> derives_statement ts (pos p) (pos q) v) /\
  (block fuel p = Ok v q -> derives_statement ts (pos p) (pos q) v) /\
  (var_decl fuel p = Ok v q -> derives_statement ts (pos p) (pos q) v) /\
  (assignment fuel p = Ok v q -> derives_statement ts (pos p) (pos q) v) /\
  (if_stmt fuel p = Ok v q -> derives_statement ts (pos p) (pos q) v) /\
  (while_loop fuel p = Ok v q -> derives_statement ts (pos p) (pos q) v) /\
  (print_stmt fuel p = Ok v q -> derives_statement ts (pos p) (pos q) v).
Proof.
  intros Hp.
  destruct (statement_family_sound ts fuel) as (Hst & Hbl & Hif & Hwh).
  destruct (simple_statements_sound ts fuel) as (Hv & Ha & Hpr).
  pose proof (@program_sound ts fuel) as Hprog.
  repeat split; intros H;
    [apply Hprog | apply Hst | apply Hbl | apply Hv | apply Ha | apply Hif
    | apply Hwh | apply Hpr]; assumption.
Qed.

Lemma statement_rules_sound_witness :
  derives_statement
    [tok VAR "var"; tok IDENTIFIER "x"; tok SEMICOLON ";"; eof_token] 0 3
    (node "var_decl" [("name", FStr "x"); ("init", FVal empty_marker)]).
Proof.
  destruct (@statement_rules_sound
              [tok VAR "var"; tok IDENTIFIER "x"; tok SEMICOLON ";"; eof_token]
              2
              (init [tok VAR "var"; tok IDENTIFIER "x"; tok SEMICOLON ";";
                     eof_token])
              (node "var_decl"
                 [("name", FStr "x"); ("init", FVal empty_marker)])
              (mkParser [tok VAR "var"; tok IDENTIFIER "x"; tok SEMICOLON ";";
                         eof_token] 3 eof_token))
    as (_ & Hst & _).
  - apply in_range_init.
  - apply Hst. vm_compute. reflexivity.
Defined.

(** ** Statements are told apart by their leading token *)

Lemma consume_token_or_fail_type ty v msg p t q :
  consume_token_or_fail ty v msg p = Ok t q -> type (current_token p) = ty.
Proof.
  intros E. apply consume_token_or_fail_ok, consume_token_some in E.
  destruct E as (_ & Hm & _). now apply token_matches_type in Hm.
Qed.

Lemma var_decl_leads_with fuel : leads_with VAR "var_decl" (var_decl fuel).
Proof.
  intros p v q H. split.
  - unfold var_decl in H. unfold bind at 1 2 in H.
    unfold get_pos, get_current_token in H.
    apply bind_ok in H. destruct H as (t & p1 & E & _).
    now apply consume_token_or_fail_type in E.
  - destruct (var_decl_returns_node _ _ H) as (? & ? & ->). reflexivity.
Qed.

Lemma assignment_leads_with fuel :
  leads_with IDENTIFIER "assignment" (assignment fuel).
Proof.
  intros p v q H. split.
  - unfold assignment in H. unfold bind at 1 2 in H.
    unfold get_pos, get_current_token in H.
    apply bind_ok in H. destruct H as (t & p1 & E & _).
    now apply consume_token_or_fail_type in E.
  - unfold assignment in H. unfold_monad H. break_calls H.
    all: inversion H; reflexivity.
Qed.

Lemma print_stmt_leads_with fuel :
  leads_with PRINT "print_stmt" (print_stmt fuel).
Proof.
  intros p v q H. split.
  - unfold print_stmt in H. unfold bind at 1 2 in H.
    unfold get_pos, get_current_token in H.
    apply bind_ok in H. destruct H as (t & p1 & E & _).
    now apply consume_token_or_fail_type in E.
  - unfold print_stmt in H. unfold_monad H. break_calls H.
    all: inversion H; reflexivity.
Qed.

Lemma if_stmt_leads_with fuel : leads_with IF "if_stmt" (if_stmt fuel).
Proof.
  intros p v q H. split.
  - destruct fuel as [|fuel]; [discriminate|]. cbn [if_stmt] in H.
    unfold bind at 1 2 in H. unfold get_pos, get_current_token in H.
    apply bind_ok in H. destruct H as (t & p1 & E & _).
    now apply consume_token_or_fail_type in E.
  - destruct (if_stmt_returns_node _ _ H) as (? & ? & ? & ->). reflexivity.
Qed.

Lemma while_loop_leads_with fuel :
  leads_with WHILE "while_loop" (while_loop fuel).
Proof.
  intros p v q H. destruct fuel as [|fuel]; [discriminate|].
  cbn [while_loop] in H. split.
  - unfold bind at 1 2 in H. unfold get_pos, get_current_token in H.
    apply bind_ok in H. destruct H as (t & p1 & E & _).
    now apply consume_token_or_fail_type in E.
  - unfold_monad H. break_calls H. all: inversion H; reflexivity.
Qed.

Lemma block_leads_with fuel : leads_with LBRACE "block" (block fuel).
Proof.
  intros p v q H. destruct fuel as [|fuel]; [discriminate|].
  cbn [block] in H. split.
  - apply bind_ok in H. destruct H as (t & p1 & E & _).
    now apply consume_token_or_fail_type in E.
  - unfold_monad H. break_calls H. all: inversion H; reflexivity.
Qed.

Lemma ordered_choice_loop_leads sp st ss :
  Forall (fun s => exists ty tag,
              leads_with ty tag s /\ statement_tag ty = Some tag) ss ->
  forall p rs q,
    current_token p = st ->
    ordered_choice_loop sp st ss p = Ok rs q ->
    rs = [] \/
    exists r tag,
      rs = [r] /\ statement_tag (type st) = Some tag /\
      get_field "type" r = Some (FStr tag).
Proof.
  induction 1 as [|s rest (ty & tag & Hs & Htag) _ IH];
    intros p rs q Hcur H; simpl in H.
  - inversion H. now left.
  - destruct (s p) as [r p1|e p1|? ?|] eqn:E; try discriminate.
    + inversion H; subst. right. exists r, tag.
      apply Hs in E. destruct E as (<- & Hf). auto.
    + apply (IH (restore p1 sp st) rs q); [reflexivity | exact H].
Qed.

Lemma consume_token_or_fail_mismatch ty v msg p :
  type (current_token p) <> ty ->
  exists e, consume_token_or_fail ty v msg p = Raise e p.
Proof.
  intros Hne. unfold consume_token_or_fail, consume_token.
  assert (Hm : token_matches (current_token p) ty v = false).
  { unfold token_matches, TokenType_eqb.
    destruct (TokenType_eq_dec (type (current_token p)) ty);
      [contradiction | reflexivity]. }
  rewrite Hm. eauto.
Qed.

Ltac first_token_mismatch Hne :=
  unfold bind, get_pos, get_current_token;
  match goal with
  | |- context [consume_token_or_fail ?ty ?v ?msg ?p] =>
      destruct (@consume_token_or_fail_mismatch ty v msg p) as (e & ->);
      [intros Heq; simpl in Heq; rewrite Heq in Hne; discriminate Hne | eauto]
  end.

(** X8.  [statement] dispatches on the leading token.  When it returns,
    the current token at entry has one of the types VAR, IDENTIFIER, IF,
    WHILE, PRINT, LBRACE and the node returned has the matching type
    ([var_decl], [assignment], [if_stmt], [while_loop], [print_stmt],
    [block]); when the current token has any other type, [statement]
    raises ["Expected statement"] and leaves the parser as it found it. *)
Theorem statement_dispatches_on_leading_token :
  (forall fuel p v q,
      statement fuel p = Ok v q ->
      exists tag,
        statement_tag (type (current_token p)) = Some tag /\
        get_field "type" v = Some (FStr tag)) /\
  (forall fuel p,
      statement_tag (type (current_token p)) = None ->
      statement (2 + fuel) p
      = Raise (SyntaxError "Expected statement" None) p).
Proof.
  split.
  - intros fuel p v q H. destruct fuel as [|fuel]; [discriminate|].
    rewrite statement_unfold in H. apply bind_ok in H.
    destruct H as (rs & p1 & E & H).
    unfold parse_ordered_choice, bind, get_pos, get_current_token in E.
    apply ordered_choice_loop_leads in E; [|
      repeat constructor;
        [exists VAR, "var_decl" | exists IDENTIFIER, "assignment"
        | exists IF, "if_stmt" | exists WHILE, "while_loop"
        | exists PRINT, "print_stmt" | exists LBRACE, "block"];
        (split; [|reflexivity]);
        auto using var_decl_leads_with, assignment_leads_with,
          if_stmt_leads_with, while_loop_leads_with, print_stmt_leads_with,
          block_leads_with
      | reflexivity].
    destruct E as [->|(r & tag & -> & Htag & Hf)]; [discriminate|].
    inversion H; subst. eauto.
  - intros fuel p Hnone. destruct p as [ts i t]. simpl in Hnone.
    assert (Hv : exists e, var_decl (S fuel) (mkParser ts i t)
                           = Raise e (mkParser ts i t))
      by (unfold var_decl; first_token_mismatch Hnone).
    assert (Ha : exists e, assignment (S fuel) (mkParser ts i t)
                           = Raise e (mkParser ts i t))
      by (unfold assignment; first_token_mismatch Hnone).
    assert (Hi : exists e, if_stmt (S fuel) (mkParser ts i t)
                           = Raise e (mkParser ts i t))
      by (cbn [if_stmt]; first_token_mismatch Hnone).
    assert (Hw : exists e, while_loop (S fuel) (mkParser ts i t)
                           = Raise e (mkParser ts i t))
      by (cbn [while_loop]; first_token_mismatch Hnone).
    assert (Hp : exists e, print_stmt (S fuel) (mkParser ts i t)
                           = Raise e (mkParser ts i t))
      by (unfold print_stmt; first_token_mismatch Hnone).
    assert (Hb : exists e, block (S fuel) (mkParser ts i t)
                           = Raise e (mkParser ts i t))
      by (cbn [block]; first_token_mismatch Hnone).
    destruct Hv as (e1 & Hv), Ha as (e2 & Ha), Hi as (e3 & Hi),
      Hw as (e4 & Hw), Hp as (e5 & Hp), Hb as (e6 & Hb).
    change (2 + fuel) with (S (S fuel)). rewrite statement_unfold.
    unfold parse_ordered_choice, bind, get_pos, get_current_token.
    cbn [ordered_choice_loop pos current_token].
    repeat (change (restore (mkParser ts i t) i t) with (mkParser ts i t);
            first [rewrite Hv | rewrite Ha | rewrite Hi | rewrite Hw
                  | rewrite Hp | rewrite Hb]).
    reflexivity.
Qed.

Lemma statement_dispatches_on_leading_token_witness :
  exists tag,
    statement_tag (type (current_token
                           (init [tok VAR "var"; tok IDENTIFIER "x";
                                  tok SEMICOLON ";"; eof_token])))
    = Some tag /\
    get_field "type"
      (node "var_decl" [("name", FStr "x"); ("init", FVal empty_marker)])
    = Some (FStr tag).
Proof.
  destruct statement_dispatches_on_leading_token as (Hok & _).
  apply (Hok 2 _ _
           (mkParser [tok VAR "var"; tok IDENTIFIER "x"; tok SEMICOLON ";";
                      eof_token] 3 eof_token)).
  vm_compute. reflexivity.
Defined.

(** ** The cursor primitives *)

(** X9.  After [k] advances from construction the position is [k], the
    tokens are untouched, and the current token is [tokens[k]] when
    [k < len(tokens)] and the end-of-stream sentinel otherwise. *)
Theorem advance_times_from_init ts k :
  pos (advance_times k (init ts)) = k /\
  tokens (advance_times k (init ts)) = ts /\
  current_token (advance_times k (init ts)) = nth k ts eof_token /\
  (List.length ts <= k -> current_token (advance_times k (init ts)) = eof_token).
Proof.
  assert (H : pos (advance_times k (init ts)) = k /\
              tokens (advance_times k (init ts)) = ts /\
              current_token (advance_times k (init ts)) = nth k ts eof_token).
  { induction k as [|k (Hp & Ht & Hc)].
    - repeat split. destruct ts; reflexivity.
    - simpl. rewrite Hp, Ht. replace (k + 1) with (S k) by lia.
      repeat split.
      destruct (S k <? List.length ts)%nat eqn:E; [reflexivity|].
      apply Nat.ltb_ge in E. symmetry. now apply nth_overflow. }
  destruct H as (Hp & Ht & Hc). repeat split; try assumption.
  intros Hle. rewrite Hc. now apply nth_overflow.
Qed.

Lemma advance_times_from_init_witness :
  current_token (advance_times 2 (init [tok VAR "var"; tok SEMICOLON ";"]))
  = eof_token.
Proof.
  apply (advance_times_from_init [tok VAR "var"; tok SEMICOLON ";"] 2).
  simpl. lia.
Defined.

Lemma option_string_eqb_eq a b : option_string_eqb a b = true <-> a = b.
Proof.
  destruct a as [x|], b as [y|]; simpl; split; intros H;
    try discriminate; try reflexivity.
  - apply String.eqb_eq in H. now subst.
  - inversion H. apply String.eqb_refl.
Qed.

Lemma token_matches_iff t ty v :
  token_matches t ty v = true <-> type t = ty /\ (v = None \/ value t = v).
Proof.
  unfold token_matches, TokenType_eqb.
  destruct (TokenType_eq_dec (type t) ty) as [Hty|Hty]; simpl.
  - destruct v as [s|].
    + rewrite option_string_eqb_eq. split.
      * intros H. auto.
      * intros [_ [H|H]]; [discriminate | exact H].
    + split; auto.
  - split; [discriminate | intros [H _]; contradiction].
Qed.

(** X10.  [consume_token] and [consume_token_or_fail] share one matching
    rule: the current token matches when its type is the requested one and
    no text is requested or its text is the requested one.  On a match both
    return the token that was current and advance the cursor by exactly
    one; on a mismatch [consume_token] returns [None] and
    [consume_token_or_fail] raises a failure without cause, and both leave
    the parser exactly as it was. *)
Theorem consume_token_contract ty v msg p :
  (type (current_token p) = ty /\ (v = None \/ value (current_token p) = v) ->
   consume_token ty v p
   = (Some (current_token p), snd (advance_to_next_token p)) /\
   consume_token_or_fail ty v msg p
   = Ok (current_token p) (snd (advance_to_next_token p)) /\
   pos (snd (advance_to_next_token p)) = pos p + 1) /\
  (~ (type (current_token p) = ty /\
      (v = None \/ value (current_token p) = v)) ->
   consume_token ty v p = (None, p) /\
   exists text, consume_token_or_fail ty v msg p
                = Raise (SyntaxError text None) p).
Proof.
  split; intros H.
  - apply token_matches_iff in H.
    unfold consume_token_or_fail, consume_token. rewrite H.
    repeat split.
  - assert (Hm : token_matches (current_token p) ty v = false).
    { destruct (token_matches (current_token p) ty v) eqn:E;
        [|reflexivity].
      apply token_matches_iff in E. contradiction. }
    unfold consume_token_or_fail, consume_token. rewrite Hm.
    split; [reflexivity | eauto].
Qed.

Lemma consume_token_contract_witness :
  consume_token VAR (Some "var") (init [tok IDENTIFIER "var"; eof_token])
  = (None, init [tok IDENTIFIER "var"; eof_token]).
Proof.
  destruct (consume_token_contract VAR (Some "var") None
              (init [tok IDENTIFIER "var"; eof_token])) as (_ & Hno).
  apply Hno. simpl. intros [H _]. discriminate H.
Defined.

(** ** The optional combinator *)

(** X11.  [parse_optional] never raises: it passes on what the symbol
    returns together with the state the symbol left, and when the symbol
    raises it returns the empty list with position and current token put
    back to their entry values. *)
Theorem parse_optional_correct (s : symbol) (p : parser) :
  (forall e q, parse_optional s p <> Raise e q) /\
  (forall v q, s p = Ok v q -> parse_optional s p = Ok v q) /\
  (forall e q,
      s p = Raise e q ->
      parse_optional s p
      = Ok (VList []) (restore q (pos p) (current_token p))) /\
  (s p = OutOfFuel -> parse_optional s p = OutOfFuel).
Proof.
  unfold parse_optional, bind, try_except, get_pos, get_current_token,
    rollback, ret.
  repeat split.
  - intros e q. destruct (s p); discriminate.
  - intros v q E. now rewrite E.
  - intros e q E. now rewrite E.
  - intros E. now rewrite E.
Qed.

Lemma parse_optional_correct_witness :
  parse_optional (primary 1) (init [tok SEMICOLON ";"; eof_token])
  = Ok (VList []) (init [tok SEMICOLON ";"; eof_token]).
Proof.
  destruct (parse_optional_correct (primary 1)
              (init [tok SEMICOLON ";"; eof_token])) as (_ & _ & Hfail & _).
  apply (Hfail (SyntaxError "Expected primary expression" None)
           (init [tok SEMICOLON ";"; eof_token])).
  vm_compute. reflexivity.
Defined.

(** ** Precedence *)



(** ** Expressions and their leading token *)

Lemma consume_mismatch ty v p :
  type (current_token p) <> ty -> consume ty v p = Ok None p.
Proof.
  intros Hne. unfold consume, consume_token.
  assert (Hm : token_matches (current_token p) ty v = false).
  { destruct (token_matches (current_token p) ty v) eqn:E; [|reflexivity].
    apply token_matches_type in E. contradiction. }
  now rewrite Hm.
Qed.

Lemma consume_some_type ty v p t q :
  consume ty v p = Ok (Some t) q -> type (current_token p) = ty.
Proof.
  unfold consume. destruct (consume_token ty v p) as [o p1] eqn:E.
  intros H. inversion H; subst. apply consume_token_some in E.
  destruct E as (_ & Hm & _). now apply token_matches_type in Hm.
Qed.

Lemma primary_fails_on_other_token fuel p :
  starts_expression (type (current_token p)) = false ->
  primary (S fuel) p = Raise (SyntaxError "Expected primary expression" None) p.
Proof.
  intros H. simpl. unfold bind, get_pos, get_current_token.
  rewrite !consume_mismatch
    by (intros E; rewrite E in H; discriminate H).
  reflexivity.
Qed.

Lemma primary_needs_expression_start fuel :
  needs_expression_start (primary fuel).
Proof.
  intros p v q H.
  destruct (starts_expression (type (current_token p))) eqn:E;
    [reflexivity|].
  destruct fuel as [|fuel]; [discriminate|].
  rewrite (primary_fails_on_other_token fuel p E) in H. discriminate.
Qed.

Lemma binary_level_wraps fuel ops (operand : symbol) before_msg p e p' :
  operand p = Raise e p' ->
  binary_level fuel ops operand before_msg p
  = Raise (SyntaxError before_msg (Some e))
          (restore p' (pos p) (current_token p)).
Proof.
  intros E.
  unfold binary_level, bind, try_except, get_pos, get_current_token.
  now rewrite E.
Qed.

Lemma binary_level_needs_expression_start fuel ops (operand : symbol) msg :
  needs_expression_start operand ->
  needs_expression_start (binary_level fuel ops operand msg).
Proof.
  intros Ho p v q H.
  unfold binary_level, bind, try_except, get_pos, get_current_token in H.
  destruct (operand p) as [left p1|e p1|? ?|] eqn:E; try discriminate.
  eapply Ho; eauto.
Qed.

Lemma expression_family_needs_start fuel :
  needs_expression_start (expression fuel) /\
  needs_expression_start (logical_or fuel) /\
  needs_expression_start (logical_and fuel) /\
  needs_expression_start (equality fuel) /\
  needs_expression_start (relational fuel) /\
  needs_expression_start (additive fuel) /\
  needs_expression_start (multiplicative fuel) /\
  needs_expression_start (primary fuel).
Proof.
  induction fuel as [|fuel IH].
  - repeat split; intros p v q H; discriminate H.
  - destruct IH as (He & Hor & Hand & Heq & Hrel & Hadd & Hmul & Hpri).
    split; [|repeat split;
             first [now apply binary_level_needs_expression_start
                   | apply primary_needs_expression_start]].
    intros p v q H. simpl in H. unfold try_except in H.
    destruct (logical_or fuel p) as [v1 p1|e p1|? ?|] eqn:E; try discriminate.
    eapply Hor; eauto.
Qed.

(** X13.  An expression can only start with a number, an identifier,
    ['('], ['+'] or ['-'].  On any other current token [expression] raises
    without moving the cursor, and the failure chains the context of every
    precedence level down to ["Expected primary expression"] ([additive]
    reporting the same text as [relational]); and whenever [expression]
    returns, the current token at entry was one of those five kinds. *)
Theorem expression_needs_its_leading_token :
  (forall k p,
      starts_expression (type (current_token p)) = false ->
      expression (8 + k) p = Raise no_expression_failure p) /\
  (forall fuel p v q,
      expression fuel p = Ok v q ->
      starts_expression (type (current_token p)) = true).
Proof.
  split.
  - intros k p H. destruct p as [ts i t].
    change (8 + k) with (S (S (S (S (S (S (S (S k)))))))).
    pose proof (primary_fails_on_other_token k (mkParser ts i t) H) as E0.
    pose proof (binary_level_wraps (S k) [(MUL, "*"); (DIV, "/")]
                  (primary (S k)) "Expected expression before '*' or '/'"
                  _ E0) as E1.
    change (binary_level (S k) [(MUL, "*"); (DIV, "/")] (primary (S k))
              "Expected expression before '*' or '/'")
      with (multiplicative (S (S k))) in E1.
    pose proof (binary_level_wraps (S (S k)) [(PLUS, "+"); (MINUS, "-")]
                  (multiplicative (S (S k)))
                  "Expected expression before '<', '>', '<=', or '>='"
                  _ E1) as E2.
    change (binary_level (S (S k)) [(PLUS, "+"); (MINUS, "-")]
              (multiplicative (S (S k)))
              "Expected expression before '<', '>', '<=', or '>='")
      with (additive (S (S (S k)))) in E2.
    pose proof (binary_level_wraps (S (S (S k)))
                  [(LT, "<"); (GT, ">"); (LTE, "<="); (GTE, ">=")]
                  (additive (S (S (S k))))
                  "Expected expression before '<', '>', '<=', or '>='"
                  _ E2) as E3.
    change (binary_level (S (S (S k)))
              [(LT, "<"); (GT, ">"); (LTE, "<="); (GTE, ">=")]
              (additive (S (S (S k))))
              "Expected expression before '<', '>', '<=', or '>='")
      with (relational (S (S (S (S k))))) in E3.
    pose proof (binary_level_wraps (S (S (S (S k))))
                  [(EQ, "=="); (NEQ, "!=")]
                  (relational (S (S (S (S k)))))
                  "Expected expression before '==' or '!='"
                  _ E3) as E4.
    change (binary_level (S (S (S (S k)))) [(EQ, "=="); (NEQ, "!=")]
              (relational (S (S (S (S k)))))
              "Expected expression before '==' or '!='")
      with (equality (S (S (S (S (S k)))))) in E4.
    pose proof (binary_level_wraps (S (S (S (S (S k))))) [(AND, "&&")]
                  (equality (S (S (S (S (S k))))))
                  "Expected expression before '&&'"
                  _ E4) as E5.
    change (binary_level (S (S (S (S (S k))))) [(AND, "&&")]
              (equality (S (S (S (S (S k))))))
              "Expected expression before '&&'")
      with (logical_and (S (S (S (S (S (S k))))))) in E5.
    pose proof (binary_level_wraps (S (S (S (S (S (S k)))))) [(OR, "||")]
                  (logical_and (S (S (S (S (S (S k)))))))
                  "Expected expression before '||'"
                  _ E5) as E6.
    change (binary_level (S (S (S (S (S (S k)))))) [(OR, "||")]
              (logical_and (S (S (S (S (S (S k)))))))
              "Expected expression before '||'")
      with (logical_or (S (S (S (S (S (S (S k)))))))) in E6.
    change (expression (S (S (S (S (S (S (S (S k)))))))))
      with (try_except (logical_or (S (S (S (S (S (S (S k))))))))
              (fun se => raise (SyntaxError "Failed to parse expression"
                                  (Some se)))).
    unfold try_except. rewrite E6. reflexivity.
  - intros fuel p v q H.
    now apply (proj1 (expression_family_needs_start fuel)) in H.
Qed.

Lemma expression_needs_its_leading_token_witness :
  expression 8 (init [tok SEMICOLON ";"; eof_token])
  = Raise no_expression_failure (init [tok SEMICOLON ";"; eof_token]).
Proof.
  destruct expression_needs_its_leading_token as (Hfail & _).
  apply (Hfail 0 (init [tok SEMICOLON ";"; eof_token])). reflexivity.
Defined.

(** ** Exceptions of [float]: caught by no rule

    [forward ts m] adds to the invariant of the state what an exception of
    [float] leaves behind; every rule moves forward in this sense. *)

Lemma forward_ret ts {A} (a : A) : forward ts (ret a).
Proof. intros p H. split; [exact H | apply le_n]. Qed.

Lemma forward_raise ts {A} e : forward ts (@raise A e).
Proof. intros p H. exact H. Qed.

Lemma forward_out_of_fuel ts {A} : forward ts (@out_of_fuel A).
Proof. intros p H. exact I. Qed.

Lemma forward_consume ts ty v : ty <> EOF -> forward ts (consume ty v).
Proof.
  intros Hty p Hp. destruct (consume ty v p) as [o q|e q|e q|] eqn:E;
    try (unfold consume in E; destruct (consume_token ty v p); discriminate).
  pose proof (@eats_if_some_consume ty v p o q E) as Hpos.
  apply (@consume_inv ts ty v p o q Hp Hty) in E. destruct o as [t|].
  - destruct E as (_ & _ & Hq). split; [exact Hq | lia].
  - subst q. split; [exact Hp | apply le_n].
Qed.

Lemma forward_consume_token_or_fail ts ty v msg :
  ty <> EOF -> forward ts (consume_token_or_fail ty v msg).
Proof.
  intros Hty p Hp.
  destruct (consume_token_or_fail ty v msg p) as [t q|e q|e q|] eqn:E.
  - apply (@consume_token_or_fail_inv ts ty v msg p t q Hp Hty) in E.
    destruct E as (_ & Hpos & Hq). split; [exact Hq | lia].
  - apply consume_token_or_fail_raise in E. destruct E as [-> _]. exact Hp.
  - unfold consume_token_or_fail in E.
    destruct (consume_token ty v p) as [[t|] q']; discriminate.
  - exact I.
Qed.

Lemma forward_bind ts {A B} (m : M A) (k : A -> M B) :
  forward ts m -> (forall a, forward ts (k a)) -> forward ts (bind m k).
Proof.
  intros Hm Hk p Hp. unfold bind. specialize (Hm p Hp).
  destruct (m p) as [a p1|e p1|e p1|]; try exact Hm.
  destruct Hm as [Hp1 Hle]. specialize (Hk a p1 Hp1).
  destruct (k a p1) as [b q|e q|e q|]; try exact Hk.
  - destruct Hk as [Hq Hle']. split; [exact Hq | lia].
  - destruct Hk as (Hq & Hlt & Hbad).
    split; [exact Hq | split; [lia | exact Hbad]].
Qed.

Lemma forward_try_except ts {A} (m : M A) (h : exn -> M A) :
  forward ts m -> raising_handler ts h -> forward ts (try_except m h).
Proof.
  intros Hm Hh p Hp. unfold try_except. specialize (Hm p Hp).
  destruct (m p) as [a p1|e p1|e p1|]; try exact Hm.
  destruct (Hh e p1 Hm) as (e' & q & -> & Hq). exact Hq.
Qed.

Lemma forward_snapshot ts {A} (k : nat -> Token -> M A) :
  (forall sp st, snapshot_in_range ts sp st -> forward ts (k sp st)) ->
  forward ts (bind get_pos
                (fun sp => bind get_current_token (fun st => k sp st))).
Proof.
  intros Hk p Hp. unfold bind, get_pos, get_current_token.
  apply (Hk _ _ (in_range_snapshot Hp) p Hp).
Qed.

Lemma raising_handler_raise ts {A} (wrap : exn -> exn) :
  raising_handler ts (fun se => @raise A (wrap se)).
Proof. intros se p Hp. exists (wrap se), p. split; [reflexivity | exact Hp]. Qed.

Lemma raising_handler_rollback_and_raise ts {A} sp st msg :
  snapshot_in_range ts sp st ->
  raising_handler ts (@rollback_and_raise A sp st msg).
Proof.
  intros Hs se p Hp. eexists. eexists. split; [reflexivity|].
  now apply in_range_restore.
Qed.

Lemma forward_match_operator ts ops :
  no_eof ops -> forward ts (match_operator ops).
Proof.
  induction 1 as [|[ty op] rest Hty _ IH]; simpl; [apply forward_ret|].
  apply forward_bind; [now apply forward_consume|].
  intros [t|]; [apply forward_ret | exact IH].
Qed.

Lemma forward_operator_loop ts fuel ops (operand : symbol) sp st :
  no_eof ops -> snapshot_in_range ts sp st -> forward ts operand ->
  forall left, forward ts (operator_loop fuel ops operand sp st left).
Proof.
  intros Hops Hsnap Ho. induction fuel as [|fuel IH]; intros left; simpl;
    [apply forward_out_of_fuel|].
  apply forward_bind; [now apply forward_match_operator|].
  intros [op|]; [|apply forward_ret].
  apply forward_bind; [|intros; apply IH].
  apply forward_try_except; [exact Ho|].
  now apply raising_handler_rollback_and_raise.
Qed.

Lemma forward_binary_level ts fuel ops (operand : symbol) before_msg :
  no_eof ops -> forward ts operand ->
  forward ts (binary_level fuel ops operand before_msg).
Proof.
  intros Hops Ho. unfold binary_level. apply forward_snapshot.
  intros sp st Hsnap. apply forward_bind.
  - apply forward_try_except; [exact Ho|].
    now apply raising_handler_rollback_and_raise.
  - intros left. now apply forward_operator_loop.
Qed.

Lemma forward_ordered_choice_loop ts sp st ss :
  snapshot_in_range ts sp st -> Forall (forward ts) ss ->
  forall p, in_range ts p -> pos p = sp ->
    match ordered_choice_loop sp st ss p with
    | Ok _ q => in_range ts q /\ sp <= pos q
    | Raise _ q => in_range ts q
    | Uncaught e q => in_range ts q /\ sp < pos q /\ after_bad_number ts e q
    | OutOfFuel => True
    end.
Proof.
  intros Hsnap. induction 1 as [|s rest Hs _ IH]; intros p Hp Hpos; simpl.
  - split; [exact Hp | lia].
  - specialize (Hs p Hp). rewrite Hpos in Hs.
    destruct (s p) as [r q|e q|e q|]; try exact Hs.
    apply IH; [now apply in_range_restore | reflexivity].
Qed.

Lemma forward_parse_ordered_choice ts ss :
  Forall (forward ts) ss -> forward ts (parse_ordered_choice ss).
Proof.
  intros H. destruct ss as [|s rest]; [apply forward_raise|].
  intros p Hp. unfold parse_ordered_choice, bind, get_pos, get_current_token.
  apply forward_ordered_choice_loop;
    [now apply in_range_snapshot | exact H | exact Hp | reflexivity].
Qed.

Lemma forward_zero_or_more_loop ts fuel (s : symbol) :
  forward ts s -> forall results, forward ts (zero_or_more_loop fuel s results).
Proof.
  intros Hs. induction fuel as [|fuel IH]; intros results p Hp; simpl;
    [exact I|].
  pose proof (Hs p Hp) as H.
  destruct (s p) as [r q|e q|e q|]; try exact H.
  - destruct H as [Hq Hle]. destruct (pos p =? pos q)%nat.
    + split; assumption.
    + specialize (IH (results ++ [r]) q Hq).
      destruct (zero_or_more_loop fuel s (results ++ [r]) q)
        as [rs q'|e q'|e q'|]; try exact IH.
      * destruct IH as [Hq' Hle']. split; [exact Hq' | lia].
      * destruct IH as (Hq' & Hlt & Hbad).
        split; [exact Hq' | split; [lia | exact Hbad]].
  - split; [|apply le_n].
    apply in_range_restore; [exact H | now apply in_range_snapshot].
Qed.

Lemma forward_parse_zero_or_more ts fuel (s : symbol) :
  forward ts s -> forward ts (parse_zero_or_more fuel s).
Proof. intros. now apply forward_zero_or_more_loop. Qed.

Lemma forward_parse_one_or_more ts fuel (s : symbol) :
  forward ts s -> forward ts (parse_one_or_more fuel s).
Proof.
  intros Hs. unfold parse_one_or_more. apply forward_snapshot.
  intros sp st Hsnap. apply forward_bind.
  - apply forward_try_except; [exact Hs|].
    now apply raising_handler_rollback_and_raise.
  - intros first. destruct (negb (truthy first)); [apply forward_ret|].
    apply forward_bind; [now apply forward_parse_zero_or_more|].
    intros [|x l]; apply forward_ret.
Qed.

Lemma float_uncaught x p e q :
  float x p = Uncaught e q -> q = p /\ float_fails x e.
Proof.
  unfold float, uncaught, ret. intros H.
  destruct x as [s|]; [destruct (float_literal s) eqn:E|]; inversion H; subst;
    simpl; auto.
Qed.

(** The first alternative of [primary]: the number token is consumed, then
    [float] is called on its text. *)
Lemma forward_number_or ts (rest : M pyval) :
  forward ts rest ->
  forward ts
    (num <- consume NUMBER None ;;
     match num with
     | Some num =>
         number <- float (value num) ;;
         ret (node "number" [("value", number)])
     | None => rest
     end).
Proof.
  intros Hrest p Hp. unfold bind at 1.
  destruct (consume NUMBER None p) as [o p1|e p1|e p1|] eqn:E;
    try (unfold consume in E; destruct (consume_token NUMBER None p);
         discriminate).
  apply (@consume_inv ts NUMBER None p o p1 Hp) in E; [|discriminate].
  destruct o as [t|].
  - destruct E as ((Hnth & Hm) & Hpos & Hp1). unfold bind.
    destruct (float (value t) p1) as [x q|e q|e q|] eqn:Ef.
    + apply float_ok in Ef. destruct Ef as (_ & -> & _).
      split; [exact Hp1 | lia].
    + unfold float, uncaught, ret in Ef.
      destruct (value t) as [s|]; [destruct (float_literal s)|]; discriminate.
    + apply float_uncaught in Ef. destruct Ef as [-> Hf].
      split; [exact Hp1 | split; [lia|]].
      exists (pos p), t. repeat split; try assumption.
      unfold token_matches, TokenType_eqb in Hm.
      destruct (TokenType_eq_dec (type t) NUMBER); [assumption | discriminate].
    + now apply total_float in Ef.
  - subst p1. apply (Hrest p Hp).
Qed.

Ltac forward_step :=
  first
    [ assumption
    | apply forward_ret
    | apply forward_raise
    | apply forward_out_of_fuel
    | apply forward_consume; discriminate
    | apply forward_consume_token_or_fail; discriminate
    | apply raising_handler_raise
    | apply raising_handler_rollback_and_raise; assumption
    | apply forward_binary_level;
      [repeat constructor; simpl; discriminate|]
    | apply forward_parse_zero_or_more
    | apply forward_parse_one_or_more
    | apply forward_parse_ordered_choice
    | apply Forall_cons
    | apply Forall_nil
    | apply forward_number_or
    | apply forward_snapshot; intros ? ? ?
    | apply forward_try_except
    | apply forward_bind; [|intros ?]
    | match goal with
      | |- forward _ (match ?x with _ => _ end) => destruct x
      end ].

Lemma forward_expression_family ts fuel :
  forward ts (expression fuel) /\
  forward ts (logical_or fuel) /\
  forward ts (logical_and fuel) /\
  forward ts (equality fuel) /\
  forward ts (relational fuel) /\
  forward ts (additive fuel) /\
  forward ts (multiplicative fuel) /\
  forward ts (primary fuel).
Proof.
  induction fuel as [|fuel IH].
  - repeat split; apply forward_out_of_fuel.
  - destruct IH as (He & Hor & Hand & Heq & Hrel & Hadd & Hmul & Hpri).
    repeat split; simpl; repeat forward_step.
Qed.

Lemma forward_simple_statements ts fuel :
  forward ts (var_decl fuel) /\
  forward ts (assignment fuel) /\
  forward ts (print_stmt fuel).
Proof.
  pose proof (proj1 (forward_expression_family ts fuel)) as He.
  unfold var_decl, assignment, print_stmt.
  repeat split; repeat forward_step.
Qed.

Lemma forward_statement_family ts fuel :
  forward ts (statement fuel) /\
  forward ts (block fuel) /\
  forward ts (if_stmt fuel) /\
  forward ts (while_loop fuel).
Proof.
  induction fuel as [|fuel IH].
  - repeat split; apply forward_out_of_fuel.
  - destruct IH as (Hst & Hbl & Hif & Hwh).
    pose proof (proj1 (forward_expression_family ts fuel)) as He.
    destruct (forward_simple_statements ts fuel) as (Hv & Ha & Hp).
    split; [rewrite statement_unfold; repeat forward_step|].
    repeat split; cbn [block if_stmt while_loop]; repeat forward_step.
Qed.

Lemma forward_program ts fuel : forward ts (program fuel).
Proof.
  pose proof (proj1 (forward_statement_family ts fuel)) as Hst.
  unfold program. repeat forward_step.
Qed.

Lemma forward_rule ts (rule : nat -> symbol) fuel :
  In rule grammar_rules -> forward ts (rule fuel).
Proof.
  intros Hin.
  pose proof (forward_expression_family ts fuel)
    as (He & Hor & Hand & Heq & Hrel & Hadd & Hmul & Hpri).
  pose proof (forward_statement_family ts fuel) as (Hst & Hbl & Hif & Hwh).
  destruct (forward_simple_statements ts fuel) as (Hv & Ha & Hp).
  pose proof (@forward_program ts fuel) as Hprog.
  simpl in Hin.
  repeat (destruct Hin as [<- | Hin]; [assumption|]).
  contradiction.
Qed.

(** X14.  An exception of [float] is caught by no rule.  [float] converts
    texts such as [5], [2.5], [ 12 ], [1e5], [1_000], [.5], [5.], [-inf],
    [NaN] and refuses texts such as [abc], the empty text, [1.2.3], [0x10],
    [1__0], [1e], [.], [+-1], [12a], [infinit].  On a number token
    [primary] consumes the token and calls [float] on its text: it returns
    the number node when [float] converts the text, and ends with
    [ValueError] on any other text and with [TypeError] on a token without
    text.  No rule catches that exception or restores the cursor: when a
    grammar rule entered in a state in range ends with an exception that is
    no [SyntaxError], the cursor stands, in range, just after a number token
    on whose text [float] raises it, beyond the position where the rule was
    entered.  So [program] on [var x = 1.2.3;] ends with [ValueError] at
    position 4. *)
Theorem float_errors_escape_uncaught :
  (map float_literal
     ["5"; "10"; "2.5"; " 12 "; "1e5"; "1_000"; ".5"; "5."; "-inf"; "NaN"]
   = [true; true; true; true; true; true; true; true; true; true] /\
   map float_literal
     ["abc"; ""; "1.2.3"; "0x10"; "1__0"; "1e"; "."; "+-1"; "12a"; "infinit"]
   = [false; false; false; false; false; false; false; false; false; false]) /\
  (forall fuel p,
      type (current_token p) = NUMBER ->
      primary (S fuel) p
      = match value (current_token p) with
        | Some s =>
            if float_literal s
            then Ok (node "number" [("value", FFloat (Some s))])
                    (snd (advance_to_next_token p))
            else Uncaught (ValueError s) (snd (advance_to_next_token p))
        | None => Uncaught TypeError (snd (advance_to_next_token p))
        end) /\
  (forall ts (rule : nat -> symbol) fuel p e q,
      In rule grammar_rules -> in_range ts p ->
      rule fuel p = Uncaught e q ->
      in_range ts q /\ pos p < pos q /\ after_bad_number ts e q) /\
  (forall k,
      let ts := [tok VAR "var"; tok IDENTIFIER "x"; tok ASSIGN "=";
                 tok NUMBER "1.2.3"; tok SEMICOLON ";"; eof_token] in
      program (11 + k) (init ts)
      = Uncaught (ValueError "1.2.3") (mkParser ts 4 (tok SEMICOLON ";"))).
Proof.
  split; [split; vm_compute; reflexivity|].
  split; [|split].
  - intros fuel [ts i [ty v l c]] Hty. simpl in Hty. subst ty.
    destruct v as [s|]; [|reflexivity].
    simpl. unfold bind, consume, float. simpl.
    destruct (float_literal s); reflexivity.
  - intros ts rule fuel p e q Hin Hp H.
    pose proof (@forward_rule ts rule fuel Hin p Hp) as Hf.
    rewrite H in Hf. exact Hf.
  - intros k ts.
    apply (@fuel_enough _ program 11 _ _ (fun m H => program_fuel_mono H));
      [|discriminate | lia].
    vm_compute. reflexivity.
Qed.

Lemma float_errors_escape_uncaught_witness :
  pos (init [tok PRINT "print"; mkToken NUMBER None None None;
             tok SEMICOLON ";"; eof_token])
  < pos (mkParser [tok PRINT "print"; mkToken NUMBER None None None;
                   tok SEMICOLON ";"; eof_token] 2 (tok SEMICOLON ";")).
Proof.
  destruct float_errors_escape_uncaught as (_ & _ & Hrule & _).
  apply (Hrule [tok PRINT "print"; mkToken NUMBER None None None;
                tok SEMICOLON ";"; eof_token]
           program 11
           (init [tok PRINT "print"; mkToken NUMBER None None None;
                  tok SEMICOLON ";"; eof_token])
           TypeError).
  - simpl. tauto.
  - apply in_range_init.
  - vm_compute. reflexivity.
Defined.
